(** * Expo sourcemap upload script: grouping, correlation, staging, upload

    A shallow embedding of [scripts/expo-upload-sourcemaps.js].

    JavaScript strings are lists of characters ([str]).  The JS objects
    [groups], [groupedAssets], [groupedTmpAssets] and
    [runtimesByAssetGroup] are association lists of their own properties in
    the order of their creation; what they inherit from [Object.prototype],
    and the order in which [Object.keys] and [Object.entries] enumerate them
    (array indices first), are written out.  The POSIX flavour of Node's
    [path] module ([extname], [parse], [format], [normalize], [join]) is
    written out after Node's [lib/path.js].

    The process is a function from what the script finds (environment,
    arguments, directory listing, manifest, behaviour of the external
    commands and of the file system outside the output directory) to a final
    listing, a trace of effects and an outcome. *)

From Stdlib Require Import String Ascii Bool Arith ZArith Lia List.
Import ListNotations.


(** ** Strings *)

Definition str := list ascii.

(** A string literal of the script. *)
Definition lit (s : string) : str := list_ascii_of_string s.
Arguments lit : simpl never.

Fixpoint str_eqb (a b : str) : bool :=
  match a, b with
  | [], [] => true
  | x :: a', y :: b' => Ascii.eqb x y && str_eqb a' b'
  | _, _ => false
  end.

(** [isPrefix p s]: [s.startsWith(p)]. *)
Fixpoint isPrefix (p s : str) : bool :=
  match p, s with
  | [], _ => true
  | x :: p', y :: s' => Ascii.eqb x y && isPrefix p' s'
  | _ :: _, [] => false
  end.

(** [String.prototype.endsWith]. *)
Definition endsWith (s suffix : str) : bool :=
  isPrefix (rev suffix) (rev s).

(** [String.prototype.includes]: does [sub] occur in [s]. *)
Fixpoint includes (s sub : str) : bool :=
  isPrefix sub s ||
  match s with
  | [] => false
  | _ :: s' => includes s' sub
  end.

(** JS truthiness of a string: only the empty string is falsy. *)
Definition truthy (s : str) : bool :=
  match s with [] => false | _ => true end.

Definition slash : ascii := "/"%char.
Definition dot : ascii := "."%char.

Definition SENTRY_PROJECT : str := lit "SENTRY_PROJECT".
Definition SENTRY_AUTH_TOKEN : str := lit "SENTRY_AUTH_TOKEN".
Definition SENTRY_CLI : str := lit "node_modules/@sentry/cli/bin/sentry-cli".
Definition TMP_DIR : str := lit ".tmp".

(** ** Node's [path] module (POSIX) *)

Module path.

(** Split at every separator: ["a//b"] gives [["a"; ""; "b"]]. *)
Fixpoint split (p : str) : list str :=
  match p with
  | [] => [[]]
  | c :: p' =>
      if Ascii.eqb c slash then [] :: split p'
      else match split p' with
           | [] => [[c]]
           | s :: ss => (c :: s) :: ss
           end
  end.

(** [segs.join('/')]. *)
Fixpoint unsplit (segs : list str) : str :=
  match segs with
  | [] => []
  | [s] => s
  | s :: ss => s ++ slash :: unsplit ss
  end.

Definition isAbsolute (p : str) : bool :=
  match p with
  | c :: _ => Ascii.eqb c slash
  | [] => false
  end.

(** [normalizeString]: the segments kept so far are in [res], last first.
    Empty and ["."] segments are dropped; [".."] removes the last kept
    segment unless there is none or it is [".."] itself, in which case it is
    kept when the path is relative ([allowAboveRoot]). *)
Fixpoint normalizeSegs (allowAboveRoot : bool) (segs : list str) (res : list str)
  : list str :=
  match segs with
  | [] => rev res
  | s :: segs' =>
      if str_eqb s [] || str_eqb s (lit ".") then
        normalizeSegs allowAboveRoot segs' res
      else if str_eqb s (lit "..") then
        match res with
        | top :: res' =>
            if str_eqb top (lit "..") then
              normalizeSegs allowAboveRoot segs'
                (if allowAboveRoot then lit ".." :: res else res)
            else normalizeSegs allowAboveRoot segs' res'
        | [] =>
            normalizeSegs allowAboveRoot segs'
              (if allowAboveRoot then [lit ".."] else [])
        end
      else normalizeSegs allowAboveRoot segs' (s :: res)
  end.

Definition normalize (p : str) : str :=
  match p with
  | [] => lit "."
  | _ =>
      let abs := isAbsolute p in
      let trailingSeparator := endsWith p [slash] in
      let body := unsplit (normalizeSegs (negb abs) (split p) []) in
      match body with
      | [] => if abs then [slash]
              else if trailingSeparator then lit "./" else lit "."
      | _ =>
          let body' := if trailingSeparator then body ++ [slash] else body in
          if abs then slash :: body' else body'
      end
  end.

(** [path.join(a, b)]: empty arguments are skipped, the rest are joined
    with a separator and normalized. *)
Definition join (a b : str) : str :=
  match a, b with
  | [], [] => lit "."
  | [], _ => normalize b
  | _, [] => normalize a
  | _, _ => normalize (a ++ slash :: b)
  end.

(** [span c l]: the part of [l] before its first [c], and what follows
    that [c] when there is one. *)
Fixpoint span (c : ascii) (l : str) : str * option str :=
  match l with
  | [] => ([], None)
  | x :: l' =>
      if Ascii.eqb x c then ([], Some l')
      else let (before, after) := span c l' in (x :: before, after)
  end.

Fixpoint dropSlashes (l : str) : str :=
  match l with
  | x :: l' => if Ascii.eqb x slash then dropSlashes l' else l
  | [] => []
  end.

Record parsed := mkParsed {
  root : str;
  dir : str;
  base : str;
  ext : str;
  name : str
}.

(** The backward scan shared by [parse] and [extname], on the reversed
    path: trailing separators are skipped, the last component runs up to the
    next separator, [before] is what precedes that separator. *)
Definition lastComponent (p : str) : option (str * option str) :=
  match dropSlashes (rev p) with
  | [] => None
  | r =>
      let (base_rev, before_rev) := span slash r in
      Some (rev base_rev, option_map (@rev ascii) before_rev)
  end.

(** Name and extension of a component.  The extension starts at the last
    dot; there is none when the component has no dot, when the last dot is
    its first character, or when the component is [".."] and [dotdot] (the
    test [startDot === startPart + 1]) can see it. *)
Definition splitExt (dotdot : bool) (b : str) : str * str :=
  match span dot (rev b) with
  | (_, None) => (b, [])
  | (post_rev, Some pre_rev) =>
      match pre_rev with
      | [] => (b, [])
      | _ =>
          if dotdot && str_eqb b (lit "..") then (b, [])
          else (rev pre_rev, dot :: rev post_rev)
      end
  end.

Definition extname (p : str) : str :=
  match lastComponent p with
  | None => []
  | Some (b, _) => snd (splitExt true b)
  end.

(** [path.parse].  For an absolute path the scan stops before the leading
    separator, so a component directly under the root has [startPart = 0]:
    its [dir] is the root and the [".."] test does not apply to it. *)
Definition parse (p : str) : parsed :=
  match p with
  | [] => mkParsed [] [] [] [] []
  | _ =>
      let abs := isAbsolute p in
      let rt := if abs then [slash] else [] in
      match lastComponent p with
      | None => mkParsed rt rt [] [] []
      | Some (b, before) =>
          let underRoot :=
            match before with
            | Some [] => abs
            | _ => false
            end in
          let d :=
            match before with
            | Some [] => rt
            | Some d' => d'
            | None => []
            end in
          let (nm, ex) := splitExt (negb underRoot) b in
          mkParsed rt d b ex nm
      end
  end.

(** [path.format]: [dir || root], then [base || name + ext]. *)
Definition format (o : parsed) : str :=
  let d := if truthy (dir o) then dir o else root o in
  let b := if truthy (base o) then base o else name o ++ ext o in
  if truthy d then
    if str_eqb d (root o) then d ++ b else d ++ slash :: b
  else b.

End path.


(** ** The script: classification, walking, grouping *)

Definition isAsset (filename : str) : bool :=
  endsWith filename (lit ".map") || endsWith filename (lit ".js")
  || endsWith filename (lit ".hbc").

(** What [fs.readdirSync(directory, { withFileTypes: true })] lists: a
    regular file, a directory with its own listing, or an
    entry that is neither ([isFile()] and [isDirectory()] both false). *)
#[warnings="-register-all"]
Inductive dirent : Type :=
| File (name : str)
| Directory (name : str) (items : list dirent)
| Other (name : str).

Definition dirent_name (item : dirent) : str :=
  match item with
  | File n => n
  | Directory n _ => n
  | Other n => n
  end.

(** The walk of one entry of [directory]; a directory entry is walked with
    its own listing, under its joined path. *)
Fixpoint walkItem (directory : str) (item : dirent) {struct item} : list str :=
  match item with
  | Directory n sub => flat_map (walkItem (path.join directory n)) sub
  | File n => if isAsset n then [path.join directory n] else []
  | Other _ => []
  end.

(** [getAssetPathsSync(directory)], with [items] what [readdirSync] lists
    for [directory]. *)
Definition getAssetPathsSync (directory : str) (items : list dirent) : list str :=
  flat_map (walkItem directory) items.

(** A JS object used as a map from group name to a value, in insertion
    order. *)
Definition dict (V : Type) := list (str * V).

Fixpoint get {V} (d : dict V) (k : str) : option V :=
  match d with
  | [] => None
  | (k', v) :: d' => if str_eqb k' k then Some v else get d' k
  end.

(** [d[k] = v]: an existing key keeps its place. *)
Fixpoint set {V} (d : dict V) (k : str) (v : V) : dict V :=
  match d with
  | [] => [(k, v)]
  | (k', v') :: d' =>
      if str_eqb k' k then (k', v) :: d' else (k', v') :: set d' k v
  end.

Definition keys {V} (d : dict V) : list str := map fst d.

Definition assetGroupName (assetPath : str) : str :=
  let parsedPath := path.parse assetPath in
  let extname := path.ext parsedPath in
  if str_eqb extname (lit ".map")
  then path.join (path.dir parsedPath) (path.name parsedPath)
  else path.format parsedPath.

(** The names of the properties every object inherits from
    [Object.prototype]; the value of each is truthy, and none is an array. *)
Definition inheritedNames : list str :=
  [lit "constructor"; lit "__defineGetter__"; lit "__defineSetter__";
   lit "hasOwnProperty"; lit "__lookupGetter__"; lit "__lookupSetter__";
   lit "isPrototypeOf"; lit "propertyIsEnumerable"; lit "toString";
   lit "valueOf"; lit "__proto__"; lit "toLocaleString"].

Definition inherited (k : str) : bool := existsb (str_eqb k) inheritedNames.

(** One turn of the loop of [groupAssets], lines 85-89: [groups[name]] is
    the own property when there is one; otherwise it is [undefined], and the
    group is created, unless [name] is inherited: the inherited value is
    truthy and has no [push], and line 88 throws a [TypeError] ([None]). *)
Definition addAsset (groups : dict (list str)) (assetPath : str)
  : option (dict (list str)) :=
  let name := assetGroupName assetPath in
  match get groups name with
  | Some members => Some (set groups name (members ++ [assetPath]))
  | None =>
      if inherited name then None else Some (set groups name [assetPath])
  end.

Definition groupAssets (assetPaths : list str) : option (dict (list str)) :=
  fold_left
    (fun groups assetPath =>
       match groups with
       | Some g => addAsset g assetPath
       | None => None
       end)
    assetPaths (Some []).

(** ** The order of [Object.keys] and [Object.entries]

    The own string keys of an object are enumerated with the array indices
    first, in ascending order, and then the other keys in the order of their
    creation.  An array index is the decimal numeral, without superfluous
    zero, of a number up to [2^32 - 2]. *)

Definition digitValue (c : ascii) : option N :=
  let n := N_of_ascii c in
  if (48 <=? n)%N && (n <=? 57)%N then Some (n - 48)%N else None.

Fixpoint decimalValue (acc : N) (s : str) : option N :=
  match s with
  | [] => Some acc
  | c :: s' =>
      match digitValue c with
      | Some d => decimalValue (10 * acc + d)%N s'
      | None => None
      end
  end.

Definition arrayIndex (k : str) : option N :=
  match k with
  | [] => None
  | c :: rest =>
      if Ascii.eqb c "0" && truthy rest then None
      else
        match decimalValue 0%N k with
        | Some n => if (n <=? 4294967294)%N then Some n else None
        | None => None
        end
  end.

Definition isArrayIndex (k : str) : bool :=
  match arrayIndex k with
  | Some _ => true
  | None => false
  end.

(** An entry with the index [i], filed among entries in ascending order of
    their indices. *)
Fixpoint fileIndexed {V} (i : N) (e : str * V) (l : list (N * (str * V)))
  : list (N * (str * V)) :=
  match l with
  | [] => [(i, e)]
  | (j, e') :: l' =>
      if (i <? j)%N then (i, e) :: l else (j, e') :: fileIndexed i e l'
  end.

Fixpoint indexedEntries {V} (d : dict V) : list (N * (str * V)) :=
  match d with
  | [] => []
  | e :: d' =>
      match arrayIndex (fst e) with
      | Some i => fileIndexed i e (indexedEntries d')
      | None => indexedEntries d'
      end
  end.

(** [Object.entries(d)]. *)
Definition objectEntries {V} (d : dict V) : list (str * V) :=
  map snd (indexedEntries d)
  ++ filter (fun e => negb (isArrayIndex (fst e))) d.

(** [Object.keys(d)]. *)
Definition objectKeys {V} (d : dict V) : list str :=
  map fst (objectEntries d).

(** ** The process: environment, file system, effects *)

(** JSON values, for the output of [npx expo config --json]. *)
#[warnings="-register-all"]
Inductive json : Type :=
| JNull
| JBool (b : bool)
| JNum (n : Z)
| JStr (s : str)
| JArr (elems : list json)
| JObj (fields : list (str * json)).

(** One entry of [easMetadataJson.updates]. *)
Record update := mkUpdate {
  id : str;
  platform : str;
  runtimeVersion : str
}.

(** One call of [sentry-cli sourcemaps upload]: the interpolated
    [runtime] ([None] when the lookup gave [undefined]), whether
    [--debug-id-reference] is passed, and the files. *)
Record upload := mkUpload {
  release : option str;
  debugIdReference : bool;
  targets : list str
}.

Inductive event : Type :=
| ConsoleLog (msg : str)
| ConsoleError (msg : str)
| ExpoConfig                       (* execSync('npx expo config --json') *)
| RmSync (p : str)
| ExistsSync (p : str)
| MkdirSync (p : str)
| CpSync (src dst : str)
| Upload (u : upload) (project : option json).

(** What the script finds when it starts.  [entries] is the listing of the
    output directory, which is taken to exist; [rmDenied] says that the platform refuses to remove
    the scratch directory ([rmSync] throws); [manifest] is [None] when
    [eas-update-metadata.json] does not exist and [Some None] when it cannot
    be read as a manifest; [cliFails] says for which uploads [sentry-cli]
    exits non-zero; [cpFails] says, given what the script has done so far,
    whether [fs.cpSync(src, dst)] throws for a copy that the listing of the
    output directory does not decide. *)
Record world := mkWorld {
  envProject : option str;
  envToken : option str;
  expoConfig : option json;
  argv2 : option str;
  entries : list dirent;
  rmDenied : bool;
  manifest : option (option (list update));
  cliFails : upload -> bool;
  cpFails : list event -> str -> str -> bool
}.

(** The mutable part: the listing of the output directory and what the
    script has done so far, oldest first. *)
Record state := mkState {
  fs : list dirent;
  trace : list event
}.

Inductive halt : Type :=
| Exit (code : nat)      (* process.exit(code) *)
| Throw (msg : str).     (* an uncaught exception *)

Definition M (A : Type) : Type := state -> state * (halt + A).

Definition ret {A} (a : A) : M A := fun st => (st, inr a).

Definition bind {A B} (m : M A) (k : A -> M B) : M B :=
  fun st =>
    match m st with
    | (st', inl h) => (st', inl h)
    | (st', inr a) => k a st'
    end.

Notation "x <- m ;; k" := (bind m (fun x => k))
  (at level 61, m at next level, right associativity).
Notation "m ;;; k" := (bind m (fun _ => k))
  (at level 61, right associativity).

Definition emit (e : event) : M unit :=
  fun st => (mkState (fs st) (trace st ++ [e]), inr tt).

Definition stop {A} (h : halt) : M A := fun st => (st, inl h).

Definition getFs : M (list dirent) := fun st => (st, inr (fs st)).

Definition putFs (items : list dirent) : M unit :=
  fun st => (mkState items (trace st), inr tt).

(** [for (const x of xs) body(x)], threading a local accumulator. *)
Fixpoint forEach {A S} (xs : list A) (body : S -> A -> M S) (acc : S) : M S :=
  match xs with
  | [] => ret acc
  | x :: xs' => acc' <- body acc x ;; forEach xs' body acc'
  end.

(** ** The file system

    The listing of the output directory is a tree of entries, each listing
    in the order [readdirSync] gives it: the byte order of the names.  An
    entry that is neither a regular file nor a directory is a special file
    (a socket, a device); it leads nowhere.  Symbolic links and file
    contents play no part.  A path is located in the tree by its normalized
    segments below those of the path of the output directory. *)

Definition isNamed (n : str) (item : dirent) : bool :=
  str_eqb (dirent_name item) n.

(** [strcmp(a, b) < 0]. *)
Fixpoint str_ltb (a b : str) : bool :=
  match a, b with
  | _, [] => false
  | [], _ :: _ => true
  | x :: a', y :: b' =>
      (nat_of_ascii x <? nat_of_ascii y)
      || (Ascii.eqb x y && str_ltb a' b')
  end.

(** A new entry takes its place before the first entry with a greater
    name. *)
Fixpoint addEntry (new : dirent) (items : list dirent) : list dirent :=
  match items with
  | [] => [new]
  | item :: rest =>
      if str_ltb (dirent_name new) (dirent_name item) then new :: items
      else item :: addEntry new rest
  end.

(** The entry named [n], the first of that name, replaced by [new]. *)
Fixpoint replaceEntry (n : str) (new : dirent) (items : list dirent)
  : list dirent :=
  match items with
  | [] => []
  | item :: rest =>
      if isNamed n item then new :: rest
      else item :: replaceEntry n new rest
  end.

(** [fs.existsSync(tmpDirPath)]. *)
Definition tmpExists (items : list dirent) : bool :=
  existsb (isNamed TMP_DIR) items.

(** The listing [readdirSync] gives for the scratch directory; [None] when
    there is no such entry or it is not a directory. *)
Fixpoint tmpListing (items : list dirent) : option (list dirent) :=
  match items with
  | [] => None
  | item :: rest =>
      if isNamed TMP_DIR item then
        match item with
        | Directory _ sub => Some sub
        | _ => None
        end
      else tmpListing rest
  end.

(** Copying a regular file to the name [n] of a listing: a file or special
    file of that name is unlinked and replaced ([force] is on by default), a
    directory of that name refuses the copy ([None]), and a new file is filed
    in its place. *)
Definition writeFile (n : str) (items : list dirent) : option (list dirent) :=
  match find (isNamed n) items with
  | Some (Directory _ _) => None
  | Some _ => Some (replaceEntry n (File n) items)
  | None => Some (addEntry (File n) items)
  end.

(** The same at the end of the path [segs] below the listing.  Missing
    directories on the way are created ([fs.cpSync] makes the parent of its
    destination with [mkdirSync({ recursive: true })]); a file or special
    file on the way, and a destination that is the directory of the listing
    itself, refuse the copy. *)
Fixpoint writeAt (segs : list str) (items : list dirent)
  : option (list dirent) :=
  match segs with
  | [] => None
  | [n] => writeFile n items
  | d :: rest =>
      match find (isNamed d) items with
      | Some (Directory _ sub) =>
          option_map (fun sub' => replaceEntry d (Directory d sub') items)
            (writeAt rest sub)
      | Some _ => None
      | None =>
          option_map (fun sub' => addEntry (Directory d sub') items)
            (writeAt rest [])
      end
  end.

Inductive kind : Type := KFile | KDirectory | KOther.

(** What is at the path [segs] below the listing; [None] when nothing is. *)
Fixpoint kindAt (segs : list str) (items : list dirent) : option kind :=
  match segs with
  | [] => Some KDirectory
  | n :: rest =>
      match find (isNamed n) items with
      | Some (Directory _ sub) => kindAt rest sub
      | Some (File _) =>
          match rest with [] => Some KFile | _ => None end
      | Some (Other _) =>
          match rest with [] => Some KOther | _ => None end
      | None => None
      end
  end.

(** The segments [normalize] keeps of a path: for a relative path they may
    start with [".."]. *)
Definition segsOf (p : str) : list str :=
  path.normalizeSegs (negb (path.isAbsolute p)) (path.split p) [].

(** [ps] without the leading [rs]. *)
Fixpoint below (rs ps : list str) : option (list str) :=
  match rs, ps with
  | [], _ => Some ps
  | r :: rs', s :: ps' => if str_eqb r s then below rs' ps' else None
  | _ :: _, [] => None
  end.

(** Where the path [p] is below the directory with the path [root]: its
    segments after those of [root]; [None] when it is not below it. *)
Definition locate (root p : str) : option (list str) :=
  if Bool.eqb (path.isAbsolute root) (path.isAbsolute p) then
    match below (segsOf root) (segsOf p) with
    | Some (s :: rest) =>
        if str_eqb s (lit "..") then None else Some (s :: rest)
    | other => other
    end
  else None.

Fixpoint sameSegs (a b : list str) : bool :=
  match a, b with
  | [], [] => true
  | x :: a', y :: b' => str_eqb x y && sameSegs a' b'
  | _, _ => false
  end.

(** [fs.rmSync(tmpPath, { recursive: true, force: true })] when it is
    allowed: the entry is gone, and a missing entry is no error. *)
Definition removeTmp (items : list dirent) : list dirent :=
  filter (fun item => negb (isNamed TMP_DIR item)) items.

Section Script.

Variable w : world.

Definition deleteTmpDirectory (parentFilePathForTmpDir : str) : M unit :=
  let tmpPath := path.join parentFilePathForTmpDir TMP_DIR in
  if rmDenied w then
    emit (ConsoleError (lit "Failed to delete .tmp directory:"))
  else
    items <- getFs ;;
    putFs (removeTmp items) ;;;
    emit (RmSync tmpPath).

(** [fs.cpSync(src, dst)], with [root] the path of the output directory.
    When both paths are below the output directory the listing decides: the
    source has to be a regular file (a missing source and a directory throw),
    other than the destination, and the copy is filed at the destination.  A
    copy from a special file or from outside is up to the world, and so is a
    copy to the outside, which leaves the listing as it is.  A copy that
    throws leaves the listing as it was. *)
Definition cpSync (root src dst : str) : M unit :=
  fun st =>
    let items := fs st in
    let copied := (mkState (fs st) (trace st ++ [CpSync src dst]), inr tt) in
    let filed (items' : option (list dirent)) :=
      match items' with
      | Some items' => (mkState items' (trace st ++ [CpSync src dst]), inr tt)
      | None => (st, inl (Throw (lit "cpSync: cannot copy to the destination")))
      end in
    let undecided (dest : option (list str)) :=
      if cpFails w (trace st) src dst
      then (st, inl (Throw (lit "cpSync")))
      else match dest with
           | Some to => filed (writeAt to items)
           | None => copied
           end in
    match locate root src with
    | Some from =>
        match kindAt from items with
        | Some KFile =>
            match locate root dst with
            | Some to =>
                if sameSegs from to
                then (st, inl (Throw (lit "cpSync: src and dest cannot be the same")))
                else filed (writeAt to items)
            | None => undecided None
            end
        | Some KOther => undecided (locate root dst)
        | Some KDirectory =>
            (st, inl (Throw (lit "cpSync: cannot copy a directory")))
        | None =>
            (st, inl (Throw (lit "cpSync: no such file or directory")))
        end
    | None => undecided (locate root dst)
    end.

Definition copyFilesToTmpDirectory
  (parentFilePathForTmpDir : str) (filePaths : list str) (newFileName : str)
  : M unit :=
  let tmpDirPath := path.join parentFilePathForTmpDir TMP_DIR in
  emit (ExistsSync tmpDirPath) ;;;
  items <- getFs ;;
  (if tmpExists items then ret tt
   else putFs (addEntry (Directory TMP_DIR []) items) ;;;
        emit (MkdirSync tmpDirPath)) ;;;
  forEach filePaths
    (fun _ filePath =>
       let extname := path.extname filePath in
       let newFilePath :=
         if str_eqb extname (lit ".map")
         then path.join tmpDirPath (newFileName ++ extname)
         else path.join tmpDirPath newFileName in
       cpSync parentFilePathForTmpDir filePath newFilePath)
    tt.

Definition readAndPrintJSONFile : M (list update) :=
  match manifest w with
  | None => stop (Throw (lit "The file does not exist."))
  | Some None =>
      emit (ConsoleError (lit "Error reading or parsing JSON file:")) ;;;
      stop (Throw (lit "Error reading or parsing JSON file"))
  | Some (Some updates) => ret updates
  end.

(** JS truthiness of a JSON value. *)
Definition jsTruthy (j : json) : bool :=
  match j with
  | JNull => false
  | JBool b => b
  | JNum n => negb (n =? 0)%Z
  | JStr s => truthy s
  | JArr _ => true
  | JObj _ => true
  end.

(** [j.k]: [None] is [undefined]. *)
Definition getField (j : json) (k : str) : option json :=
  match j with
  | JObj fields => get fields k
  | _ => None
  end.

(** The predicate given to [plugins.find]. *)
Definition isSentryPlugin (plugin : json) : bool :=
  match plugin with
  | JArr (pluginName :: _ :: _) =>
      match pluginName with
      | JStr n => str_eqb n (lit "@sentry/react-native")
      | _ => false
      end
  | _ => false
  end.

(** [None] is the [null] the function returns. *)
Definition getSentryPluginPropertiesFromExpoConfig : M (option json) :=
  let failed :=
    emit (ConsoleError (lit "Error fetching expo config:")) ;;; ret None in
  emit ExpoConfig ;;;
  match expoConfig w with
  | None => failed
  | Some JNull => failed
  | Some config =>
      match getField config (lit "plugins") with
      | None => ret None
      | Some plugins =>
          if negb (jsTruthy plugins) then ret None
          else
            match plugins with
            | JArr elems =>
                match find isSentryPlugin elems with
                | Some (JArr (_ :: pluginConfig :: _)) => ret (Some pluginConfig)
                | _ => ret None
                end
            | _ => failed
            end
      end
  end.

(** Lines 124-136: [sentryProject] after the fallback to the expo
    config; [None] is [undefined]. *)
Definition resolveProject : M (option json) :=
  let fromEnv :=
    match envProject w with
    | Some s => if truthy s then Some s else None
    | None => None
    end in
  match fromEnv with
  | Some s => ret (Some (JStr s))
  | None =>
      emit (ConsoleLog (lit "Fetching SENTRY_PROJECT from expo config...")) ;;;
      pluginConfig <- getSentryPluginPropertiesFromExpoConfig ;;
      match pluginConfig with
      | Some pc =>
          if jsTruthy pc then
            let sentryProject := getField pc (lit "project") in
            (* the log line also shows the value *)
            emit (ConsoleLog (lit "SENTRY_PROJECT resolved from expo config.")) ;;;
            ret sentryProject
          else
            emit (ConsoleError
              (lit "Could not fetch '@sentry/react-native' plugin properties from expo config.")) ;;;
            stop (Exit 1)
      | None =>
          emit (ConsoleError
            (lit "Could not fetch '@sentry/react-native' plugin properties from expo config.")) ;;;
          stop (Exit 1)
      end
  end.

(** Lines 138-141. *)
Definition checkAuthToken : M unit :=
  match envToken w with
  | Some (_ :: _) => ret tt
  | _ =>
      emit (ConsoleError
        (lit "SENTRY_AUTH_TOKEN environment variable must be set.")) ;;;
      stop (Exit 1)
  end.

(** Lines 143-148. *)
Definition readOutputDir : M str :=
  match argv2 w with
  | Some (c :: d) => ret (c :: d)
  | _ =>
      emit (ConsoleError
        (lit "Provide the directory with your bundles and sourcemaps as the first argument.")) ;;;
      emit (ConsoleError
        (lit "Example: node node_modules/@sentry/react-native/scripts/expo-upload-sourcemaps dist")) ;;;
      stop (Exit 1)
  end.

(** Lines 160-168 for one update: the matched group name and the new one,
    or [None] when the script warns and continues. *)
Definition findAssetGroup (groupedAssets : dict (list str)) (platform : str)
  : option str :=
  match find (fun key => includes key platform) (objectKeys groupedAssets) with
  | Some assetGroupName =>
      if truthy assetGroupName then Some assetGroupName else None
  | None => None
  end.

Definition newAssetGroupName (u : update) (assetGroupName : str) : str :=
  let ext := path.ext (path.parse assetGroupName) in
  platform u ++ lit "-update-id-" ++ id u ++ ext.

(** The body of the loop over [updates]. *)
Definition correlate (outputDir : str) (groupedAssets : dict (list str))
  (runtimesByAssetGroup : dict str) (u : update) : M (dict str) :=
  match findAssetGroup groupedAssets (platform u) with
  | None =>
      emit (ConsoleError (lit "Could not find code assets for " ++ platform u)) ;;;
      ret runtimesByAssetGroup
  | Some assetGroupName =>
      let newName := newAssetGroupName u assetGroupName in
      let runtimes' := set runtimesByAssetGroup newName (runtimeVersion u) in
      match get groupedAssets assetGroupName with
      | None => stop (Throw (lit "filePaths is not iterable"))
      | Some filePaths =>
          copyFilesToTmpDirectory outputDir filePaths newName ;;;
          ret runtimes'
      end
  end.

Definition isHermes (assets : list str) : bool :=
  existsb (fun asset => endsWith asset (lit ".hbc")) assets.

(** The body of the loop over [Object.entries(groupedTmpAssets)].  The
    name of a group is an own key of the grouping, never the name of an
    inherited property, so [runtimesByAssetGroup[assetGroupName]] is an own
    property or [undefined]. *)
Definition uploadGroup (sentryProject : option json)
  (runtimesByAssetGroup : dict str) (_ : unit) (entry : str * list str)
  : M unit :=
  let (assetGroupName, assets) := entry in
  let runtime := get runtimesByAssetGroup assetGroupName in
  let u := mkUpload runtime (isHermes assets) assets in
  emit (Upload u sentryProject) ;;;
  if cliFails w u then stop (Throw (lit "Command failed")) else ret tt.

(** [readdirSync] of the scratch directory at line 173. *)
Definition readTmp : M (list dirent) :=
  items <- getFs ;;
  match tmpListing items with
  | None => stop (Throw (lit "ENOENT: no such file or directory, scandir"))
  | Some sub => ret sub
  end.

(** [groupAssets(assetPaths)] as a step of the script. *)
Definition grouped (assetPaths : list str) : M (dict (list str)) :=
  match groupAssets assetPaths with
  | Some groups => ret groups
  | None =>
      stop (Throw (lit "TypeError: groups[assetGroupName].push is not a function"))
  end.

(** Lines 150-193. *)
Definition pipeline (sentryProject : option json) (outputDir : str) : M unit :=
  deleteTmpDirectory outputDir ;;;
  items <- getFs ;;
  let files := getAssetPathsSync outputDir items in
  groupedAssets <- grouped files ;;
  updates <- readAndPrintJSONFile ;;
  runtimesByAssetGroup <-
    forEach updates (correlate outputDir groupedAssets) [] ;;
  tmpItems <- readTmp ;;
  let tmpFiles := getAssetPathsSync (path.join outputDir TMP_DIR) tmpItems in
  groupedTmpAssets <- grouped tmpFiles ;;
  forEach (objectEntries groupedTmpAssets)
    (uploadGroup sentryProject runtimesByAssetGroup) tt ;;;
  emit (ConsoleLog (lit "Uploaded sourcemaps to Sentry successfully.")).

(** The whole script. *)
Definition main : M unit :=
  sentryProject <- resolveProject ;;
  checkAuthToken ;;;
  outputDir <- readOutputDir ;;
  pipeline sentryProject outputDir.

End Script.

(** [assets.join(' ')]. *)
Fixpoint joinSpace (l : list str) : str :=
  match l with
  | [] => []
  | [a] => a
  | a :: l' => a ++ lit " " ++ joinSpace l'
  end.

(** The command line given to [execSync] for an upload; an [undefined]
    runtime is interpolated as the text [undefined]. *)
Definition commandLine (u : upload) : str :=
  SENTRY_CLI ++ lit " sourcemaps upload --release "
  ++ match release u with Some r => r | None => lit "undefined" end
  ++ lit " "
  ++ (if debugIdReference u then lit "--debug-id-reference" else [])
  ++ lit " "
  ++ joinSpace (targets u).

(** ** The scenario of the specification *)

Definition scenarioEntries : list dirent :=
  [File (lit "app.js"); File (lit "app.js.map");
   File (lit "index.android.bundle"); File (lit "index.android.bundle.map")].

Definition scenarioWorld : world :=
  mkWorld (Some (lit "demo")) (Some (lit "token")) None (Some (lit "dist"))
    scenarioEntries false
    (Some (Some [mkUpdate (lit "u1") (lit "android") (lit "1.2.0")]))
    (fun _ => false) (fun _ _ _ => false).

Definition start (w : world) : state := mkState (entries w) [].

(** The uploads of a trace, in order. *)
Definition uploads (tr : list event) : list upload :=
  flat_map (fun e => match e with Upload u _ => [u] | _ => [] end) tr.

(** The first grouping pass and the table built by the loop over the
    updates, when the loop runs to its end. *)
Definition correlated (w : world) (outputDir : str) (st : state)
  : option (dict str) :=
  match groupAssets (getAssetPathsSync outputDir (fs st)) with
  | Some groupedAssets =>
      match forEach (match manifest w with Some (Some us) => us | _ => [] end)
              (correlate w outputDir groupedAssets) [] st with
      | (_, inr runtimes) => Some runtimes
      | _ => None
      end
  | None => None
  end.


(** ** Predicates used in the statements *)

(** Every event a computation leaves in the trace satisfies [P], when those
    already there do. *)
Definition keeps (P : event -> Prop) {A} (m : M A) : Prop :=
  forall st, Forall P (trace st) -> Forall P (trace (fst (m st))).

(** The upload flag agrees with the presence of a bytecode file among the
    uploaded files. *)
Definition flagMatchesBytecode (e : event) : Prop :=
  match e with
  | Upload u _ => debugIdReference u = isHermes (targets u)
  | _ => True
  end.

(** The events that change the file system. *)
Definition mutation (e : event) : bool :=
  match e with
  | RmSync _ => true
  | MkdirSync _ => true
  | CpSync _ _ => true
  | _ => false
  end.

(** A computation that changes no file and can only end the run with exit
    code 1. *)
Definition readsOnly {A} (m : M A) : Prop :=
  forall st,
    fs (fst (m st)) = fs st
    /\ existsb mutation (trace (fst (m st))) = existsb mutation (trace st)
    /\ (forall h, snd (m st) = inl h -> h = Exit 1).

(** An expo config whose Sentry plugin entry carries no [project]. *)
Definition configWithoutProject : json :=
  JObj [(lit "plugins",
         JArr [JArr [JStr (lit "@sentry/react-native");
                     JObj [(lit "organization", JStr (lit "acme"))]]])].

Definition noProjectWorld : world :=
  mkWorld None (Some (lit "token")) (Some configWithoutProject)
    (Some (lit "dist")) scenarioEntries false
    (Some (Some [mkUpdate (lit "u1") (lit "android") (lit "1.2.0")]))
    (fun _ => false) (fun _ _ _ => false).

(** A Hermes build: bytecode with its sourcemap. *)
Definition hermesWorld : world :=
  mkWorld (Some (lit "demo")) (Some (lit "token")) None (Some (lit "dist"))
    [Directory (lit "_expo")
       [File (lit "index.ios.hbc"); File (lit "index.ios.hbc.map")]]
    false
    (Some (Some [mkUpdate (lit "u2") (lit "ios") (lit "1.2.0")]))
    (fun _ => false) (fun _ _ _ => false).

(** A previous run left [stale.js] in the scratch directory, and the
    platform refuses to remove it. *)
Definition staleWorld : world :=
  mkWorld (Some (lit "demo")) (Some (lit "token")) None (Some (lit "dist"))
    [Directory (lit ".tmp") [File (lit "stale.js")]; File (lit "app.js")]
    true (Some (Some [])) (fun _ => false) (fun _ _ _ => false).

(** The groups as they grow when no group name is inherited: one turn of
    the loop, and the whole loop. *)
Definition pushAsset (groups : dict (list str)) (assetPath : str)
  : dict (list str) :=
  let name := assetGroupName assetPath in
  match get groups name with
  | None => set groups name [assetPath]
  | Some members => set groups name (members ++ [assetPath])
  end.

Definition ownGroups (assetPaths : list str) : dict (list str) :=
  fold_left pushAsset assetPaths [].

(** No path has a group name that every object inherits. *)
Definition groupable (assetPaths : list str) : bool :=
  forallb (fun p => negb (inherited (assetGroupName p))) assetPaths.

(** The files of the group [k]; none when there is no such group. *)
Definition members (d : dict (list str)) (k : str) : list str :=
  match get d k with
  | Some m => m
  | None => []
  end.

(** The files of [assetPaths] whose group name is [k], in order. *)
Definition filesOfGroup (assetPaths : list str) (k : str) : list str :=
  filter (fun p => str_eqb (assetGroupName p) k) assetPaths.

(** Some group key contains the platform of [u]. *)
Definition hasMatch (groupedAssets : dict (list str)) (u : update) : bool :=
  existsb (fun key => includes key (platform u)) (keys groupedAssets).

(** The texts written with [console.error], in order. *)
Definition warnings (tr : list event) : list str :=
  flat_map (fun e => match e with ConsoleError m => [m] | _ => [] end) tr.


Definition copies (tr : list event) : list (str * str) :=
  flat_map (fun e => match e with CpSync src dst => [(src, dst)] | _ => [] end) tr.







Definition warningFor (u : update) : str :=
  lit "Could not find code assets for " ++ platform u.


(** The entry name a file of a group is staged under: the new group name,
    with [.map] appended for a sourcemap. *)
Definition stagedName (newFileName filePath : str) : str :=
  if str_eqb (path.extname filePath) (lit ".map")
  then newFileName ++ path.extname filePath
  else newFileName.

(** The path a file of a group is copied to, line 110. *)
Definition stagedPath (outputDir newFileName filePath : str) : str :=
  path.join (path.join outputDir TMP_DIR) (stagedName newFileName filePath).

(** Whether a file is staged as a sourcemap, line 110. *)
Definition stagedAsMap (filePath : str) : bool :=
  str_eqb (path.extname filePath) (lit ".map").

Definition dashFree (s : str) : bool := negb (existsb (Ascii.eqb "-") s).

(** What the loop over the updates does with one record: the runtime it
    records, the copies it makes, and the names it stages files under. *)
Definition recordRuntime (groupedAssets : dict (list str))
  (runtimes : dict str) (u : update) : dict str :=
  match findAssetGroup groupedAssets (platform u) with
  | Some k => set runtimes (newAssetGroupName u k) (runtimeVersion u)
  | None => runtimes
  end.



(** ** The shape of walked paths *)

Definition slashFree (s : str) : bool := negb (existsb (Ascii.eqb slash) s).

(** A name a directory entry can have: not empty, without separator, and
    neither ["."] nor [".."]. *)
Definition plain (n : str) : bool :=
  negb (str_eqb n []) && slashFree n
  && negb (str_eqb n (lit ".")) && negb (str_eqb n (lit "..")).

(** A name a file can be staged under: plain with and without [.map]. *)
Definition stageable (newFileName : str) : bool :=
  plain newFileName && plain (newFileName ++ lit ".map").

(** A normalized directory prefix: the root or nothing, then [ups] times
    ["../"], then plain names, each followed by a separator. *)
Definition prefix (abs : bool) (ups : nat) (names : list str) : str :=
  (if abs then [slash] else [])
  ++ concat (map (fun s => s ++ [slash]) (repeat (lit "..") ups ++ names)).

(** No regular file below [items] has a separator in its name. *)
Fixpoint wellNamed (item : dirent) : bool :=
  match item with
  | File n => slashFree n
  | Directory _ sub => forallb wellNamed sub
  | Other _ => true
  end.

(** The path with its last four characters removed. *)
Definition stripMap (p : str) : str := firstn (length p - 4) p.


(** A sourcemap, as the grouper sees it. *)
Definition isSourcemap (p : str) : bool :=
  str_eqb (path.ext (path.parse p)) (lit ".map").

(** The file names [..map] and [...map], whose names without extension
    are ["."] and [".."]. *)
Definition dotStem (p : str) : bool :=
  let b := path.base (path.parse p) in
  str_eqb b (lit "..map") || str_eqb b (lit "...map").

(** What [normalizeString] keeps, last segment first: plain names above
    a run of [".."], which is empty for an absolute path. *)
Definition stackInv (allowAboveRoot : bool) (res : list str) : Prop :=
  exists rn k,
    res = rn ++ repeat (lit "..") k
    /\ Forall (fun s => plain s = true) rn
    /\ (allowAboveRoot = false -> k = 0).

(** The [dir] of a path with the prefix [prefix abs ups names]. *)
Definition dirOf (abs : bool) (ups : nat) (names : list str) : str :=
  match repeat (lit "..") ups ++ names with
  | [] => if abs then [slash] else []
  | segs => (if abs then [slash] else []) ++ path.unsplit segs
  end.

(** The record [path.parse] builds from name and extension. *)
Definition mkParsedOf (rt d b : str) (ne : str * str) : path.parsed :=
  path.mkParsed rt d b (snd ne) (fst ne).

(** The shape of the paths the walk returns: a normalized prefix and the
    name of an asset. *)
Definition walked (p : str) : Prop :=
  exists abs k names n,
    (abs = true -> k = 0)
    /\ Forall (fun s => plain s = true) names
    /\ plain n = true
    /\ p = prefix abs k names ++ n.

(** A sourcemap named [..map]: its name without extension is ["."]. *)
Definition dotStemEntries : list dirent :=
  [File (lit "a.map"); Directory (lit "a") [File (lit "..map")]].

(** A bundle and a bytecode file side by side, each with its sourcemap. *)
Definition pairEntries : list dirent :=
  [File (lit "app.js"); File (lit "app.js.map");
   File (lit "app.hbc"); File (lit "app.hbc.map")].

Definition warn (u : update) : event := ConsoleError (warningFor u).

Definition successLog : event :=
  ConsoleLog (lit "Uploaded sourcemaps to Sentry successfully.").

(** ** Further definitions used in statements *)

From Stdlib Require Import Permutation.

(** All the files of all the groups, group after group. *)
Definition allMembers (groups : dict (list str)) : list str :=
  concat (map snd groups).

(** A listing with three files at two depths, one of them no asset. *)
Definition nestedEntries : list dirent :=
  [File (lit "index.js");
   Directory (lit "_expo") [File (lit "ios.hbc"); File (lit "ios.hbc.map")];
   File (lit "metadata.json");
   Other (lit "socket")].

(** The number of regular files, at any depth, whose name the classifier
    accepts. *)
Fixpoint countAssets (item : dirent) : nat :=
  match item with
  | File n => if isAsset n then 1 else 0
  | Directory _ sub => list_sum (map countAssets sub)
  | Other _ => 0
  end.

Fixpoint nodupb (l : list str) : bool :=
  match l with
  | [] => true
  | x :: r => negb (existsb (str_eqb x) r) && nodupb r
  end.

(** A listing as a file system gives it: files and directories have plain
    names, and no two entries of a directory share a name. *)
Fixpoint wellFormed (item : dirent) : bool :=
  match item with
  | File n => plain n
  | Directory n sub =>
      plain n && forallb wellFormed sub && nodupb (map dirent_name sub)
  | Other _ => true
  end.

(** The assets below an entry, each as the names from the entry down,
    separated by [/]. *)
Fixpoint relPaths (item : dirent) : list str :=
  match item with
  | File n => if isAsset n then [n] else []
  | Directory n sub => map (fun r => n ++ slash :: r) (flat_map relPaths sub)
  | Other _ => []
  end.

(** A computation that leaves every entry of the output directory other
    than the scratch directory as it was. *)
Definition keepsOthers {A} (m : M A) : Prop :=
  forall st, removeTmp (fs (fst (m st))) = removeTmp (fs st).

(** A computation that keeps the property [Q] of the listing of the output
    directory. *)
Definition keepsFs (Q : list dirent -> Prop) {A} (m : M A) : Prop :=
  forall st, Q (fs st) -> Q (fs (fst (m st))).


(** A computation that never ends the process with [process.exit]. *)
Definition neverExits {A} (m : M A) : Prop :=
  forall st code, snd (m st) <> inl (Exit code).

(** A computation whose every [process.exit] has code 1 and comes before
    any change to the file system. *)
Definition exitsClean {A} (m : M A) : Prop :=
  forall st st' code,
    m st = (st', inl (Exit code)) ->
    code = 1
    /\ fs st' = fs st
    /\ existsb mutation (trace st') = existsb mutation (trace st).

(** The manifest names a platform of which the build holds nothing. *)
Definition iosOnlyWorld : world :=
  mkWorld (Some (lit "demo")) (Some (lit "token")) None (Some (lit "dist"))
    scenarioEntries false
    (Some (Some [mkUpdate (lit "u9") (lit "ios") (lit "1.2.0")]))
    (fun _ => false) (fun _ _ _ => false).



(** The upload made for a group of the second pass. *)
Definition uploadOf (runtimes : dict str) (entry : str * list str) : upload :=
  mkUpload (get runtimes (fst entry)) (isHermes (snd entry)) (snd entry).

(** The uploads up to and with the first that fails. *)
Fixpoint attempted (fails : upload -> bool) (ups : list upload) : list upload :=
  match ups with
  | [] => []
  | u :: rest => u :: (if fails u then [] else attempted fails rest)
  end.

(** A computation that writes the success message last, and only when it
    ends normally. *)
Definition reportsSuccess {A} (m : M A) : Prop :=
  forall st,
    ~ In successLog (trace st) ->
    match m st with
    | (st', inr _) =>
        exists tr, trace st' = tr ++ [successLog] /\ ~ In successLog tr
    | (st', inl _) => ~ In successLog (trace st')
    end.

(** How often [npx expo config --json] was run. *)
Definition expoRuns (tr : list event) : nat :=
  length (filter (fun e => match e with ExpoConfig => true | _ => false end) tr).

(** A computation that does not run [npx expo config --json]. *)
Definition runsNoExpo {A} (m : M A) : Prop :=
  forall st, expoRuns (trace (fst (m st))) = expoRuns (trace st).

(** [SENTRY_PROJECT] is set to a non-empty text. *)
Definition projectInEnv (w : world) : bool :=
  match envProject w with
  | Some (_ :: _) => true
  | _ => false
  end.

(** A computation that always comes back with a value. *)
Definition returns {A} (m : M A) : Prop :=
  forall st, exists r, snd (m st) = inr r.

(** The Sentry plugin is listed by its name only, without properties. *)
Definition bareStringPluginWorld : world :=
  mkWorld None (Some (lit "token"))
    (Some (JObj [(lit "name", JStr (lit "app"));
                 (lit "plugins",
                  JArr [JStr (lit "expo-router");
                        JStr (lit "@sentry/react-native")])]))
    (Some (lit "dist")) scenarioEntries false
    (Some (Some [mkUpdate (lit "u1") (lit "android") (lit "1.2.0")]))
    (fun _ => false) (fun _ _ _ => false).

(** The records of the manifest, none when it cannot be read. *)
Definition manifestUpdates (w : world) : list update :=
  match manifest w with
  | Some (Some updates) => updates
  | _ => []
  end.

(** The names files are staged under when platform and update identifier
    hold no separator: a text without separator, at least as long as
    [-update-id-], possibly followed by [.map]. *)
Definition stagedShape (n : str) : Prop :=
  exists N, (n = N \/ n = N ++ lit ".map")
            /\ slashFree N = true /\ 11 <= length N.

(** The scratch directory, if it is there, holds staged files only. *)
Definition scratchShaped (items : list dirent) : Prop :=
  forall sub, tmpListing items = Some sub ->
    Forall (fun item => exists n, item = File n /\ stagedShape n) sub.


(** An event that is no upload, or an upload whose release is undefined. *)
Definition releaseUndefined (e : event) : Prop :=
  match e with
  | Upload u _ => release u = None
  | _ => True
  end.

(** * [integrations/spotlight.ts]

    Strings are lists of code units below 256, as in the rest of the
    development; of these, the line terminators that [.] does not match are
    line feed and carriage return. *)

Module spotlight.

(** ** The regular expression of [getHostnameFromString]

    Anchored at both ends: an optional scheme [\w+:], two slashes, the host
    [[^/:]+] (capture 1), an optional port [:\d+] (capture 2) and any rest
    of the line (capture 3).

    A backtracking matcher in continuation-passing style: each piece is given
    the text that is left and the continuation for the rest of the pattern,
    and a greedy piece tries its longest match first. *)

Definition inRange (lo hi c : ascii) : bool :=
  (nat_of_ascii lo <=? nat_of_ascii c) && (nat_of_ascii c <=? nat_of_ascii hi).

(** [\w]. *)
Definition isWord (c : ascii) : bool :=
  inRange "a" "z" c || inRange "A" "Z" c || inRange "0" "9" c
  || Ascii.eqb c "_".

(** [\d]. *)
Definition isDigit (c : ascii) : bool := inRange "0" "9" c.

(** [[^/:]]. *)
Definition isHostChar (c : ascii) : bool :=
  negb (Ascii.eqb c "/") && negb (Ascii.eqb c ":").

(** [.], without the [s] flag. *)
Definition isAny (c : ascii) : bool :=
  negb (Ascii.eqb c "010") && negb (Ascii.eqb c "013").

(** [cls*], greedy: [taken] is what the repetition has consumed so far. *)
Fixpoint star {A} (cls : ascii -> bool) (s taken : str)
  (k : str -> str -> option A) : option A :=
  match s with
  | c :: s' =>
      if cls c then
        match star cls s' (taken ++ [c]) k with
        | Some r => Some r
        | None => k taken s
        end
      else k taken s
  | [] => k taken s
  end.

(** [cls+], greedy. *)
Definition plus {A} (cls : ascii -> bool) (s : str)
  (k : str -> str -> option A) : option A :=
  match s with
  | c :: s' => if cls c then star cls s' [c] k else None
  | [] => None
  end.

(** A literal character. *)
Definition char {A} (c : ascii) (s : str) (k : str -> option A) : option A :=
  match s with
  | x :: s' => if Ascii.eqb x c then k s' else None
  | [] => None
  end.

(** [(?:\w+:)?]: with the scheme first, without it when that fails. *)
Definition optScheme {A} (s : str) (k : str -> option A) : option A :=
  match plus isWord s (fun _ s1 => char ":" s1 k) with
  | Some r => Some r
  | None => k s
  end.

(** [(:\d+)?]: the capture is [None] when the group does not take part. *)
Definition optPort {A} (s : str) (k : option str -> str -> option A)
  : option A :=
  match char ":" s (fun s1 =>
          plus isDigit s1 (fun digits s2 => k (Some (":"%char :: digits)) s2))
  with
  | Some r => Some r
  | None => k None s
  end.

(** The pattern from the right: the end of the text, which gives the
    captures 1, 2 and 3; the rest of the line up to it; the optional port
    before that; the host; the two slashes. *)
Definition atEnd (host : str) (port : option str) (rest s : str)
  : option (str * option str * str) :=
  match s with
  | [] => Some (host, port, rest)
  | _ => None
  end.

Definition restPart (host : str) (port : option str) (s : str)
  : option (str * option str * str) :=
  star isAny s [] (atEnd host port).

Definition portPart (host s : str) : option (str * option str * str) :=
  optPort s (restPart host).

Definition hostPart (s : str) : option (str * option str * str) :=
  plus isHostChar s portPart.

Definition slashesPart (s : str) : option (str * option str * str) :=
  char "/" s (fun s' => char "/" s' hostPart).

(** A match can only start at the beginning of the text. *)
Definition matchUrl (urlString : str) : option (str * option str * str) :=
  optScheme urlString slashesPart.

(** [None] is [null]. *)
Definition getHostnameFromString (urlString : str) : option str :=
  match matchUrl urlString with
  | Some (host, _, _) => if truthy host then Some host else None
  | None => None
  end.

(** What [ReactNativeLibraries.Devtools?.getDevServer()] gives: no
    [Devtools] at all, a call that throws, or an object whose [url] may be
    missing. *)
Inductive devtools : Type :=
| DevtoolsMissing
| GetDevServerThrows
| DevServer (url : option str).

Definition getDefaultSidecarUrl (d : devtools) : str :=
  match d with
  | DevServer (Some url) =>
      lit "http://"
      ++ match getHostnameFromString url with
         | Some hostname => hostname
         | None => lit "null"
         end
      ++ lit ":8969/stream"
  | _ => lit "http://localhost:8969/stream"
  end.

(** The text [rest] does not go on with a character of the class. *)
Definition endsRun (cls : ascii -> bool) (rest : str) : bool :=
  match rest with
  | [] => true
  | c :: _ => negb (cls c)
  end.

(** Nothing, or a run of word characters and a colon. *)
Definition isScheme (pre : str) : Prop :=
  pre = [] \/
  exists name, name <> [] /\ forallb isWord name = true /\ pre = name ++ lit ":".

(** The host that the default sidecar address is built around. *)
Definition sidecarHost (d : devtools) : str :=
  match d with
  | DevServer (Some url) =>
      match getHostnameFromString url with
      | Some hostname => hostname
      | None => lit "null"
      end
  | _ => lit "localhost"
  end.

End spotlight.

(** * [utils/environment.ts] *)

From Stdlib Require Import DecimalString DecimalN Eqdep_dec.

Module environment.

(** The JS values the probes can meet.  A function is one of no argument,
    given by what a call of it returns, [None] when the call throws. *)
#[warnings="-register-all"]
Inductive value : Type :=
| VUndefined
| VNull
| VBool (b : bool)
| VNum (n : Z)
| VStr (s : str)
| VObject (fields : list (str * value))
| VFunction (returns : option value).

Definition truthyValue (v : value) : bool :=
  match v with
  | VUndefined | VNull => false
  | VBool b => b
  | VNum n => negb (n =? 0)%Z
  | VStr s => truthy s
  | VObject _ | VFunction _ => true
  end.

(** [v != null]. *)
Definition notNullish (v : value) : bool :=
  match v with
  | VUndefined | VNull => false
  | _ => true
  end.

(** [v === s] for a string [s]. *)
Definition isString (v : value) (s : str) : bool :=
  match v with
  | VStr t => str_eqb t s
  | _ => false
  end.

(** [v.k] and [v[k]], for the property names of this file, none of which a
    primitive or a function has of its own: [None] is the [TypeError] of
    reading a property of [undefined] or [null]. *)
Definition prop (v : value) (k : str) : option value :=
  match v with
  | VUndefined | VNull => None
  | VObject fields =>
      match get fields k with
      | Some x => Some x
      | None => Some VUndefined
      end
  | _ => Some VUndefined
  end.

(** [f()]: [None] is the [TypeError] of calling what is no function, or what
    the call throws. *)
Definition call (f : value) : option value :=
  match f with
  | VFunction returns => returns
  | _ => None
  end.

(** [a && b]: [b] is evaluated only when [a] is truthy. *)
Definition andAlso (a : value) (b : value -> option value) : option value :=
  if truthyValue a then b a else Some a.

Definition andThen {A B} (m : option A) (k : A -> option B) : option B :=
  match m with
  | Some a => k a
  | None => None
  end.

(** [RN_GLOBAL_OBJ], an object. *)
Definition globalObj := list (str * value).

Definition field (g : globalObj) (k : str) : value :=
  match get g k with
  | Some x => x
  | None => VUndefined
  end.

Definition isHermesEnabled (g : globalObj) : bool :=
  negb (negb (truthyValue (field g (lit "HermesInternal")))).

Definition isExpo (g : globalObj) : bool :=
  notNullish (field g (lit "expo")).

(** [None] would be a thrown [TypeError]. *)
Definition isExpoGo (g : globalObj) : option value :=
  andThen
    (andAlso (field g (lit "expo")) (fun expo =>
       andThen (prop expo (lit "modules")) (fun modules =>
         andAlso modules (fun modules =>
           andThen (prop modules (lit "ExponentConstants")) (fun constants =>
             andAlso constants (fun constants =>
               andThen (prop constants (lit "appOwnership")) (fun owner =>
                 Some (VBool (isString owner (lit "expo"))))))))))
    (fun r => Some (if truthyValue r then r else VBool false)).

Definition getHermesVersion (g : globalObj) : option value :=
  andAlso (field g (lit "HermesInternal")) (fun hermes =>
    andThen (prop hermes (lit "getRuntimeProperties")) (fun getter =>
      andAlso getter (fun getter =>
        andThen (call getter) (fun properties =>
          prop properties (lit "OSS Release Version"))))).

(** The numbers of a version: non-negative integers below [2^53], which
    are exact as JS numbers and which a template literal writes with all
    their decimal digits.  Fractions, negative numbers, [NaN] and the
    integers from [1e21] on, which are written with an exponent, are no
    values of this type. *)
Record safeInteger : Type := mkSafe {
  val : N;
  safe : (val <? 2 ^ 53)%N = true
}.

(** [ReactNativeLibraries.ReactNativeVersion.version]; [prerelease] is a
    string, or [None] for [null] and [undefined]. *)
Record version : Type := mkVersion {
  major : safeInteger;
  minor : safeInteger;
  patch : safeInteger;
  prerelease : option str
}.

(** [`${n}`] for a safe integer. *)
Definition decimal (n : safeInteger) : str :=
  list_ascii_of_string (NilEmpty.string_of_uint (N.to_uint (val n))).

(** React Native 0.73.2-rc.1. *)
Definition rn_0_73_2_rc1 : version :=
  mkVersion (mkSafe 0 eq_refl) (mkSafe 73 eq_refl) (mkSafe 2 eq_refl)
    (Some (lit "rc.1")).

(** [ReactNativeVersion] is [None] when the library is not there. *)
Definition getReactNativeVersion (ReactNativeVersion : option version)
  : option str :=
  match ReactNativeVersion with
  | None => None
  | Some RNV =>
      Some (decimal (major RNV) ++ lit "." ++ decimal (minor RNV) ++ lit "."
            ++ decimal (patch RNV)
            ++ match prerelease RNV with
               | Some pre => lit "-" ++ pre
               | None => []
               end)
  end.

End environment.

(** * Properties *)

(** ** Strings *)

Lemma str_eqb_refl (a : str) : str_eqb a a = true.
Proof.
  induction a as [|x a IH]; simpl; [reflexivity|].
  now rewrite Ascii.eqb_refl.
Qed.

Lemma str_eqb_eq (a b : str) : str_eqb a b = true <-> a = b.
Proof.
  split; [|intros ->; apply str_eqb_refl].
  revert b; induction a as [|x a IH]; intros [|y b]; simpl; try discriminate.
  - reflexivity.
  - intros H. apply andb_true_iff in H as [Hx Hab].
    apply Ascii.eqb_eq in Hx. f_equal; auto.
Qed.

Lemma str_eqb_neq (a b : str) : str_eqb a b = false <-> a <> b.
Proof.
  rewrite <- str_eqb_eq. destruct (str_eqb a b); split; congruence.
Qed.

Lemma isPrefix_spec (p s : str) :
  isPrefix p s = true <-> exists t, s = p ++ t.
Proof.
  revert s; induction p as [|x p IH]; intros s; simpl.
  - split; [exists s; reflexivity | reflexivity].
  - destruct s as [|y s].
    + split; [discriminate | intros [t Ht]; discriminate].
    + rewrite andb_true_iff, Ascii.eqb_eq, IH. split.
      * intros [-> [t ->]]. now exists t.
      * intros [t Ht]. injection Ht as -> ->. split; [reflexivity | now exists t].
Qed.

Lemma endsWith_spec (s suffix : str) :
  endsWith s suffix = true <-> exists pre, s = pre ++ suffix.
Proof.
  unfold endsWith. rewrite isPrefix_spec. split.
  - intros [t Ht]. exists (rev t).
    rewrite <- (rev_involutive s), Ht, rev_app_distr, rev_involutive.
    reflexivity.
  - intros [pre ->]. exists (rev pre). apply rev_app_distr.
Qed.

Lemma endsWith_app (pre suffix : str) : endsWith (pre ++ suffix) suffix = true.
Proof. apply endsWith_spec. now exists pre. Qed.

(** ** The effect monad: what a computation adds to the trace *)

Lemma bind_value {A B} (m : M A) (k : A -> M B) (st st' : state) (a : A) :
  m st = (st', inr a) -> bind m k st = k a st'.
Proof. intros H. unfold bind. rewrite H. reflexivity. Qed.

Lemma bind_halt {A B} (m : M A) (k : A -> M B) (st st' : state) (h : halt) :
  m st = (st', inl h) -> bind m k st = (st', inl h).
Proof. intros H. unfold bind. rewrite H. reflexivity. Qed.

Section Keeps.

Variable P : event -> Prop.

Lemma keeps_ret {A} (a : A) : keeps P (ret a).
Proof. intros st H. exact H. Qed.

Lemma keeps_stop {A} (h : halt) : keeps P (@stop A h).
Proof. intros st H. exact H. Qed.

Lemma keeps_getFs : keeps P getFs.
Proof. intros st H. exact H. Qed.

Lemma keeps_putFs (items : list dirent) : keeps P (putFs items).
Proof. intros st H. exact H. Qed.

Lemma keeps_emit (e : event) : P e -> keeps P (emit e).
Proof.
  intros He st H. simpl. apply Forall_app. split; [exact H|].
  constructor; [exact He | constructor].
Qed.

Lemma keeps_bind {A B} (m : M A) (k : A -> M B) :
  keeps P m -> (forall a, keeps P (k a)) -> keeps P (bind m k).
Proof.
  intros Hm Hk st H. unfold bind.
  specialize (Hm st H). destruct (m st) as [st' [h|a]]; simpl in *.
  - exact Hm.
  - apply Hk. exact Hm.
Qed.

Lemma keeps_forEach {A S} (xs : list A) (body : S -> A -> M S) (acc : S) :
  (forall s x, keeps P (body s x)) -> keeps P (forEach xs body acc).
Proof.
  intros Hb. revert acc. induction xs as [|x xs IH]; intros acc; simpl.
  - apply keeps_ret.
  - apply keeps_bind; [apply Hb | intros a; apply IH].
Qed.

End Keeps.

(** ** What a copy can do *)

(** A copy either throws and leaves the state as it was, or is recorded in
    the trace; it then leaves the listing as it is when the destination is
    outside the output directory, and files the copy at the destination
    otherwise. *)
Lemma cpSync_cases (w : world) (root src dst : str) (st : state) :
  (exists msg, cpSync w root src dst st = (st, inl (Throw msg)))
  \/ (locate root dst = None
      /\ cpSync w root src dst st
         = (mkState (fs st) (trace st ++ [CpSync src dst]), inr tt))
  \/ (exists to items',
        locate root dst = Some to
        /\ writeAt to (fs st) = Some items'
        /\ cpSync w root src dst st
           = (mkState items' (trace st ++ [CpSync src dst]), inr tt)).
Proof.
  unfold cpSync.
  destruct (locate root src) as [from|];
    [destruct (kindAt from (fs st)) as [[| |]|]|];
    try (left; eexists; reflexivity);
    destruct (locate root dst) as [to|] eqn:Ed;
    try destruct (sameSegs from to);
    try destruct (cpFails w (trace st) src dst);
    try (left; eexists; reflexivity);
    try (right; left; split; reflexivity);
    (destruct (writeAt to (fs st)) as [items'|] eqn:Ew;
     [right; right; exists to, items'; auto | left; eexists; reflexivity]).
Qed.

Lemma keeps_cpSync (P : event -> Prop) (w : world) (root src dst : str) :
  P (CpSync src dst) -> keeps P (cpSync w root src dst).
Proof.
  intros Hp st H.
  destruct (cpSync_cases w root src dst st)
    as [[msg ->]|[[_ ->]|(to & items' & _ & _ & ->)]]; simpl; auto;
    apply Forall_app; split; auto.
Qed.

Ltac keeps_step :=
  first
    [ apply keeps_ret | apply keeps_stop | apply keeps_getFs
    | apply keeps_putFs
    | apply keeps_bind; [|intros ?]
    | apply keeps_forEach; intros ? ?
    | apply keeps_emit ].

(** ** Directory listings *)

Section DirentInduction.

Variable P : dirent -> Prop.
Hypothesis P_file : forall n, P (File n).
Hypothesis P_other : forall n, P (Other n).
Hypothesis P_directory : forall n sub, Forall P sub -> P (Directory n sub).

Lemma dirent_nested_ind : forall item, P item.
Proof.
  fix IH 1. intros [n|n sub|n].
  - apply P_file.
  - apply P_directory. induction sub as [|item sub IHsub].
    + constructor.
    + constructor; [apply IH | exact IHsub].
  - apply P_other.
Qed.

End DirentInduction.



(** ** Dictionaries *)

Lemma get_set_same {V} (d : dict V) (k : str) (v : V) :
  get (set d k v) k = Some v.
Proof.
  induction d as [|[k' v'] d IH]; simpl.
  - now rewrite str_eqb_refl.
  - destruct (str_eqb k' k) eqn:E; simpl; rewrite E; [reflexivity | exact IH].
Qed.

Lemma get_set_other {V} (d : dict V) (k k' : str) (v : V) :
  k <> k' -> get (set d k v) k' = get d k'.
Proof.
  intros Hne. induction d as [|[k0 v0] d IH]; simpl.
  - apply str_eqb_neq in Hne. now rewrite Hne.
  - destruct (str_eqb k0 k) eqn:E; simpl.
    + apply str_eqb_eq in E. subst k0.
      apply str_eqb_neq in Hne. now rewrite Hne.
    + now rewrite IH.
Qed.

Lemma keys_set {V} (d : dict V) (k : str) (v : V) :
  keys (set d k v) =
  match get d k with Some _ => keys d | None => keys d ++ [k] end.
Proof.
  unfold keys. induction d as [|[k0 v0] d IH]; simpl; [reflexivity|].
  destruct (str_eqb k0 k) eqn:E; simpl; [reflexivity|].
  rewrite IH. destruct (get d k); reflexivity.
Qed.

Lemma get_in_keys {V} (d : dict V) (k : str) :
  In k (keys d) <-> exists v, get d k = Some v.
Proof.
  induction d as [|[k0 v0] d IH]; simpl.
  - split; [contradiction | intros [v Hv]; discriminate].
  - destruct (str_eqb k0 k) eqn:E.
    + apply str_eqb_eq in E. split; [now exists v0 | now left].
    + apply str_eqb_neq in E. rewrite <- IH. split; [|now right].
      intros [H|H]; [contradiction | exact H].
Qed.

Lemma get_In {V} (d : dict V) (k : str) (v : V) :
  get d k = Some v -> In (k, v) d.
Proof.
  induction d as [|[k0 v0] d IH]; simpl; [discriminate|].
  destruct (str_eqb k0 k) eqn:E.
  - apply str_eqb_eq in E. intros H. injection H as ->. subst. now left.
  - intros H. right. exact (IH H).
Qed.

Lemma In_get {V} (d : dict V) (k : str) (v : V) :
  NoDup (keys d) -> In (k, v) d -> get d k = Some v.
Proof.
  induction d as [|[k0 v0] d IH]; simpl; [contradiction|].
  intros Hnd Hin. inversion Hnd as [|? ? Hnot Hnd']; subst.
  destruct Hin as [H|H].
  - injection H as -> ->. now rewrite str_eqb_refl.
  - destruct (str_eqb k0 k) eqn:E.
    + apply str_eqb_eq in E. subst k0. exfalso. apply Hnot.
      apply (in_map fst) in H. exact H.
    + exact (IH Hnd' H).
Qed.

(** ** Grouping *)

Lemma members_pushAsset (d : dict (list str)) (p k : str) :
  members (pushAsset d p) k
  = members d k ++ (if str_eqb (assetGroupName p) k then [p] else []).
Proof.
  unfold pushAsset, members.
  destruct (str_eqb (assetGroupName p) k) eqn:E.
  - apply str_eqb_eq in E. subst k.
    destruct (get d (assetGroupName p)); rewrite get_set_same; reflexivity.
  - apply str_eqb_neq in E.
    destruct (get d (assetGroupName p));
      rewrite get_set_other by exact E; rewrite app_nil_r; reflexivity.
Qed.

Lemma keys_pushAsset (d : dict (list str)) (p : str) :
  keys (pushAsset d p) =
  match get d (assetGroupName p) with
  | Some _ => keys d
  | None => keys d ++ [assetGroupName p]
  end.
Proof.
  unfold pushAsset.
  destruct (get d (assetGroupName p)) eqn:E; rewrite keys_set, E; reflexivity.
Qed.

Lemma In_keys_pushAsset (d : dict (list str)) (p k : str) :
  In k (keys (pushAsset d p)) <-> In k (keys d) \/ k = assetGroupName p.
Proof.
  rewrite keys_pushAsset.
  destruct (get d (assetGroupName p)) eqn:E.
  - split; [now left|]. intros [H| ->]; [exact H|].
    apply get_in_keys. eauto.
  - rewrite in_app_iff. simpl. split.
    + intros [H|[H|[]]]; auto.
    + intros [H|H]; auto.
Qed.

Lemma NoDup_keys_pushAsset (d : dict (list str)) (p : str) :
  NoDup (keys d) -> NoDup (keys (pushAsset d p)).
Proof.
  intros Hnd. rewrite keys_pushAsset.
  destruct (get d (assetGroupName p)) eqn:E; [exact Hnd|].
  apply NoDup_app; [exact Hnd | repeat constructor; auto |].
  intros k Hk [<-|[]]. apply get_in_keys in Hk as [v Hv]. congruence.
Qed.

Lemma members_fold (l : list str) (d : dict (list str)) (k : str) :
  members (fold_left pushAsset l d) k = members d k ++ filesOfGroup l k.
Proof.
  revert d. induction l as [|p l IH]; intros d; simpl.
  - now rewrite app_nil_r.
  - rewrite IH, members_pushAsset, <- app_assoc. f_equal.
    unfold filesOfGroup. simpl.
    destruct (str_eqb (assetGroupName p) k); reflexivity.
Qed.

Lemma In_keys_fold (l : list str) (d : dict (list str)) (k : str) :
  In k (keys (fold_left pushAsset l d)) <->
  In k (keys d) \/ exists p, In p l /\ assetGroupName p = k.
Proof.
  revert d. induction l as [|p l IH]; intros d; simpl.
  - split; [now left | intros [H|[p [[] _]]]; exact H].
  - rewrite IH, In_keys_pushAsset. split.
    + intros [[H|H]|[q [Hq E]]]; eauto.
    + intros [H|[q [[<-|Hq] E]]]; eauto.
Qed.

Lemma NoDup_keys_fold (l : list str) (d : dict (list str)) :
  NoDup (keys d) -> NoDup (keys (fold_left pushAsset l d)).
Proof.
  revert d. induction l as [|p l IH]; intros d H; simpl; [exact H|].
  apply IH. apply NoDup_keys_pushAsset. exact H.
Qed.

(** The group of a name holds, in input order, the paths with that name. *)
Lemma ownGroups_members (l : list str) (k : str) :
  members (ownGroups l) k = filesOfGroup l k.
Proof. unfold ownGroups. now rewrite members_fold. Qed.

Lemma ownGroups_keys (l : list str) (k : str) :
  In k (keys (ownGroups l)) <-> exists p, In p l /\ assetGroupName p = k.
Proof.
  unfold ownGroups. rewrite In_keys_fold. simpl. split.
  - intros [[]|H]; exact H.
  - intros H; right; exact H.
Qed.

Lemma ownGroups_NoDup (l : list str) : NoDup (keys (ownGroups l)).
Proof. apply NoDup_keys_fold. constructor. Qed.

Lemma ownGroups_get (l : list str) (k : str) (m : list str) :
  get (ownGroups l) k = Some m -> m = filesOfGroup l k.
Proof.
  intros H. rewrite <- ownGroups_members. unfold members. now rewrite H.
Qed.

Lemma ownGroups_In (l : list str) (k : str) (m : list str) :
  In (k, m) (ownGroups l) <->
  m = filesOfGroup l k /\ exists p, In p l /\ assetGroupName p = k.
Proof.
  split.
  - intros Hin. pose proof (In_get _ _ _ (ownGroups_NoDup l) Hin) as Hget.
    split; [exact (ownGroups_get _ _ _ Hget)|].
    apply ownGroups_keys. apply get_in_keys. eauto.
  - intros [-> Hk]. apply ownGroups_keys in Hk.
    apply get_in_keys in Hk as [m Hm].
    rewrite <- (ownGroups_get _ _ _ Hm). apply get_In. exact Hm.
Qed.

(** ** The grouping of the script and the groups it grows *)

Lemma inherited_get_none (g : dict (list str)) (k : str) :
  (forall k', In k' (keys g) -> inherited k' = false) ->
  inherited k = true -> get g k = None.
Proof.
  intros Hg Hk. destruct (get g k) as [m|] eqn:E; [|reflexivity].
  assert (Hin : In k (keys g)) by (apply get_in_keys; eauto).
  rewrite (Hg k Hin) in Hk. discriminate.
Qed.

Lemma addAsset_push (g : dict (list str)) (p : str) :
  (forall k, In k (keys g) -> inherited k = false) ->
  addAsset g p
  = if inherited (assetGroupName p) then None else Some (pushAsset g p).
Proof.
  intros Hg. unfold addAsset, pushAsset. cbv zeta.
  destruct (inherited (assetGroupName p)) eqn:Ei.
  - now rewrite (inherited_get_none g _ Hg Ei).
  - now destruct (get g (assetGroupName p)).
Qed.

Lemma groupAssets_fold_none (l : list str) :
  fold_left
    (fun groups assetPath =>
       match groups with
       | Some g => addAsset g assetPath
       | None => None
       end) l None = None.
Proof. induction l as [|p l IH]; simpl; auto. Qed.

Lemma groupAssets_fold (l : list str) (g : dict (list str)) :
  (forall k, In k (keys g) -> inherited k = false) ->
  fold_left
    (fun groups assetPath =>
       match groups with
       | Some g => addAsset g assetPath
       | None => None
       end) l (Some g)
  = if groupable l then Some (fold_left pushAsset l g) else None.
Proof.
  revert g. induction l as [|p l IH]; intros g Hg; [reflexivity|].
  cbn [fold_left groupable forallb]. rewrite (addAsset_push g p Hg).
  destruct (inherited (assetGroupName p)) eqn:Ei; cbn [negb andb].
  - apply groupAssets_fold_none.
  - apply IH. intros k Hk. apply In_keys_pushAsset in Hk as [Hk| ->]; auto.
Qed.

(** Grouping throws exactly when some path has an inherited group name, and
    otherwise gives the groups grown path by path. *)
Lemma groupAssets_own (l : list str) :
  groupAssets l = if groupable l then Some (ownGroups l) else None.
Proof. apply groupAssets_fold. intros k []. Qed.

Lemma groupAssets_some (l : list str) (g : dict (list str)) :
  groupAssets l = Some g -> groupable l = true /\ g = ownGroups l.
Proof.
  rewrite groupAssets_own. destruct (groupable l); [|discriminate].
  intros H. injection H as <-. auto.
Qed.

Lemma groupable_spec (l : list str) :
  groupable l = true <->
  forall p, In p l -> inherited (assetGroupName p) = false.
Proof.
  unfold groupable. rewrite forallb_forall. split; intros H p Hp.
  - specialize (H p Hp). now apply negb_true_iff in H.
  - apply negb_true_iff. auto.
Qed.

(** No group has the name of an inherited property. *)
Lemma groupAssets_keys_own (l : list str) (g : dict (list str)) (k : str) :
  groupAssets l = Some g -> In k (keys g) -> inherited k = false.
Proof.
  intros H Hk. apply groupAssets_some in H as [Hg ->].
  apply ownGroups_keys in Hk as (p & Hp & <-).
  rewrite groupable_spec in Hg. auto.
Qed.

(** ** The order of enumeration *)

Lemma fileIndexed_perm {V} (i : N) (e : str * V) (l : list (N * (str * V))) :
  Permutation (fileIndexed i e l) ((i, e) :: l).
Proof.
  induction l as [|[j e'] l IH]; simpl; [reflexivity|].
  destruct (i <? j)%N; [reflexivity|].
  rewrite IH. apply perm_swap.
Qed.

Lemma indexedEntries_perm {V} (d : dict V) :
  Permutation (map snd (indexedEntries d))
    (filter (fun e => isArrayIndex (fst e)) d).
Proof.
  induction d as [|e d IH]; simpl; [reflexivity|].
  unfold isArrayIndex. destruct (arrayIndex (fst e)) as [i|]; [|exact IH].
  rewrite (Permutation_map snd (fileIndexed_perm i e (indexedEntries d))).
  simpl. now constructor.
Qed.

Lemma filter_split_perm {A} (f : A -> bool) (l : list A) :
  Permutation (filter f l ++ filter (fun x => negb (f x)) l) l.
Proof.
  induction l as [|x l IH]; simpl; [reflexivity|].
  destruct (f x); simpl.
  - now constructor.
  - rewrite <- Permutation_middle. now constructor.
Qed.

Lemma objectEntries_perm {V} (d : dict V) : Permutation (objectEntries d) d.
Proof.
  unfold objectEntries. rewrite indexedEntries_perm.
  apply (filter_split_perm (fun e => isArrayIndex (fst e))).
Qed.

Lemma objectKeys_perm {V} (d : dict V) : Permutation (objectKeys d) (keys d).
Proof. unfold objectKeys, keys. apply Permutation_map, objectEntries_perm. Qed.

Lemma objectKeys_In {V} (d : dict V) (k : str) :
  In k (objectKeys d) <-> In k (keys d).
Proof.
  split; apply Permutation_in;
    [apply objectKeys_perm | symmetry; apply objectKeys_perm].
Qed.

(** Without array indices among the keys the order is that of creation. *)
Lemma objectEntries_plain {V} (d : dict V) :
  (forall k, In k (keys d) -> isArrayIndex k = false) ->
  objectEntries d = d.
Proof.
  intros H. unfold objectEntries.
  assert (Hi : indexedEntries d = []).
  { induction d as [|e d IH]; [reflexivity|]. simpl.
    assert (He : isArrayIndex (fst e) = false) by (apply H; now left).
    unfold isArrayIndex in He. destruct (arrayIndex (fst e)); [discriminate|].
    apply IH. intros k Hk. apply H. now right. }
  rewrite Hi. simpl.
  induction d as [|e d IH]; [reflexivity|]. simpl.
  rewrite (H (fst e)) by now left. simpl. f_equal.
  apply IH.
  - intros k Hk. apply H. now right.
  - clear -Hi. simpl in Hi.
    destruct (arrayIndex (fst e)); [|exact Hi].
    destruct (indexedEntries d) as [|[j e'] l]; simpl in Hi;
      [discriminate|]. destruct (_ <? _)%N; discriminate.
Qed.

Lemma objectKeys_plain {V} (d : dict V) :
  (forall k, In k (keys d) -> isArrayIndex k = false) ->
  objectKeys d = keys d.
Proof. intros H. unfold objectKeys. now rewrite objectEntries_plain. Qed.

(** ** Paths *)

Lemma span_absent (c : ascii) (l : str) :
  (forall x, In x l -> x <> c) -> path.span c l = (l, None).
Proof.
  induction l as [|x l IH]; intros H; simpl; [reflexivity|].
  destruct (Ascii.eqb x c) eqn:E.
  - apply Ascii.eqb_eq in E. exfalso. apply (H x); [left; reflexivity | exact E].
  - rewrite IH; [reflexivity|]. intros y Hy. apply H. right. exact Hy.
Qed.

Lemma span_before_incl (c : ascii) (l : str) :
  incl (fst (path.span c l)) l.
Proof.
  induction l as [|x l IH]; simpl; [apply incl_refl|].
  destruct (Ascii.eqb x c); simpl; [apply incl_nil_l|].
  destruct (path.span c l) as [before after]. simpl in *.
  apply incl_cons; [left; reflexivity | apply incl_tl; exact IH].
Qed.

Lemma dropSlashes_incl (l : str) : incl (path.dropSlashes l) l.
Proof.
  induction l as [|x l IH]; simpl; [apply incl_refl|].
  destruct (Ascii.eqb x slash); [apply incl_tl; exact IH | apply incl_refl].
Qed.

Lemma lastComponent_incl (p b : str) (before : option str) :
  path.lastComponent p = Some (b, before) -> incl b p.
Proof.
  unfold path.lastComponent.
  pose proof (dropSlashes_incl (rev p)) as Hd.
  destruct (path.dropSlashes (rev p)) as [|x r]; [discriminate|].
  pose proof (span_before_incl slash (x :: r)) as Hs.
  destruct (path.span slash (x :: r)) as [base_rev before_rev].
  intros H. injection H as <- _. simpl in Hs.
  intros y Hy. apply in_rev in Hy. apply in_rev. apply Hd. apply Hs. exact Hy.
Qed.

Lemma splitExt_no_dot (dotdot : bool) (b : str) :
  (forall x, In x b -> x <> dot) -> path.splitExt dotdot b = (b, []).
Proof.
  intros H. unfold path.splitExt. rewrite span_absent; [reflexivity|].
  intros x Hx. apply H. apply in_rev. exact Hx.
Qed.

(** A key without a dot has no extension. *)
Lemma ext_no_dot (k : str) :
  (forall x, In x k -> x <> dot) -> path.ext (path.parse k) = [].
Proof.
  intros H. unfold path.parse. destruct k as [|c k]; [reflexivity|].
  destruct (path.lastComponent (c :: k)) as [[b before]|] eqn:E;
    [|reflexivity].
  rewrite splitExt_no_dot; [reflexivity|].
  intros x Hx. apply H. eapply lastComponent_incl; eassumption.
Qed.









(** ** Splitting and joining at separators *)

Lemma split_nonempty (p : str) : path.split p <> [].
Proof.
  destruct p as [|c p]; simpl; [discriminate|].
  destruct (Ascii.eqb c slash); [discriminate|].
  destruct (path.split p); discriminate.
Qed.

Lemma split_app_slash (d r : str) :
  path.split (d ++ slash :: r) = path.split d ++ path.split r.
Proof.
  induction d as [|c d IH]; simpl.
  - reflexivity.
  - destruct (Ascii.eqb c slash); rewrite IH; [reflexivity|].
    pose proof (split_nonempty d) as Hne.
    destruct (path.split d) as [|s ss]; [congruence | reflexivity].
Qed.

Lemma slashFree_cons (c : ascii) (s : str) :
  slashFree (c :: s) = negb (Ascii.eqb slash c) && slashFree s.
Proof. unfold slashFree. simpl. now rewrite negb_orb. Qed.

Lemma slashFree_app (a b : str) :
  slashFree (a ++ b) = slashFree a && slashFree b.
Proof. unfold slashFree. now rewrite existsb_app, negb_orb. Qed.

Lemma split_slashFree (s : str) : slashFree s = true -> path.split s = [s].
Proof.
  induction s as [|c s IH]; [reflexivity|].
  rewrite slashFree_cons. intros H. apply andb_true_iff in H as [Hc Hs].
  simpl. rewrite Ascii.eqb_sym. apply negb_true_iff in Hc. rewrite Hc.
  now rewrite (IH Hs).
Qed.

Lemma unsplit_snoc (segs : list str) (n : str) :
  path.unsplit (segs ++ [n]) = concat (map (fun s => s ++ [slash]) segs) ++ n.
Proof.
  induction segs as [|s segs IH]; [reflexivity|].
  change (path.unsplit ((s :: segs) ++ [n]))
    with (match segs ++ [n] with
          | [] => s
          | _ :: _ => s ++ slash :: path.unsplit (segs ++ [n])
          end).
  destruct (segs ++ [n]) eqn:E.
  - destruct segs; discriminate.
  - rewrite IH. simpl. rewrite <- !app_assoc. reflexivity.
Qed.

Lemma plain_spec (n : str) :
  plain n = true <->
  n <> [] /\ slashFree n = true /\ n <> lit "." /\ n <> lit "..".
Proof.
  unfold plain. rewrite !andb_true_iff, !negb_true_iff, !str_eqb_neq. tauto.
Qed.

Lemma Forall_slashFree_split (segs : list str) (r : str) :
  Forall (fun s => slashFree s = true) segs ->
  path.split (concat (map (fun s => s ++ [slash]) segs) ++ r)
  = segs ++ path.split r.
Proof.
  induction 1 as [|s segs Hs _ IH]; [reflexivity|].
  simpl. rewrite <- !app_assoc. simpl.
  rewrite split_app_slash, (split_slashFree s Hs), IH. reflexivity.
Qed.

(** ** Normalization *)

Lemma normalizeSegs_plain (a : bool) (s : str) (segs res : list str) :
  plain s = true ->
  path.normalizeSegs a (s :: segs) res = path.normalizeSegs a segs (s :: res).
Proof.
  intros H. apply plain_spec in H as [H1 [_ [H2 H3]]].
  apply str_eqb_neq in H1, H2, H3. simpl. now rewrite H1, H2, H3.
Qed.

Lemma normalizeSegs_names (a : bool) (names rest res : list str) :
  Forall (fun s => plain s = true) names ->
  path.normalizeSegs a (names ++ rest) res
  = path.normalizeSegs a rest (rev names ++ res).
Proof.
  intros H. revert res. induction H as [|s names Hs _ IH]; intros res.
  - reflexivity.
  - cbn [app]. rewrite (normalizeSegs_plain a s _ _ Hs), IH.
    simpl. now rewrite <- app_assoc.
Qed.

Lemma repeat_snoc {A} (x : A) (k : nat) : repeat x k ++ [x] = x :: repeat x k.
Proof. induction k as [|k IH]; simpl; [reflexivity | now rewrite IH]. Qed.

Lemma rev_repeat {A} (x : A) (k : nat) : rev (repeat x k) = repeat x k.
Proof.
  induction k as [|k IH]; simpl; [reflexivity|]. now rewrite IH, repeat_snoc.
Qed.

Lemma normalizeSegs_ups (k j : nat) (rest : list str) :
  path.normalizeSegs true (repeat (lit "..") k ++ rest) (repeat (lit "..") j)
  = path.normalizeSegs true rest (repeat (lit "..") (k + j)).
Proof.
  revert j. induction k as [|k IH]; intros j; [reflexivity|].
  cbn [repeat app].
  change (path.normalizeSegs true (lit ".." :: repeat (lit "..") k ++ rest)
            (repeat (lit "..") j))
    with (match repeat (lit "..") j with
          | top :: res' =>
              if str_eqb top (lit "..") then
                path.normalizeSegs true (repeat (lit "..") k ++ rest)
                  (lit ".." :: repeat (lit "..") j)
              else path.normalizeSegs true (repeat (lit "..") k ++ rest) res'
          | [] => path.normalizeSegs true (repeat (lit "..") k ++ rest) [lit ".."]
          end).
  destruct j as [|j].
  - pose proof (IH 1) as H1. cbn [repeat] in H1. rewrite H1.
    replace (S k + 0) with (k + 1) by lia. reflexivity.
  - cbn [repeat]. rewrite str_eqb_refl.
    pose proof (IH (S (S j))) as H2. cbn [repeat] in H2. rewrite H2.
    replace (S k + S j) with (k + S (S j)) by lia. reflexivity.
Qed.

(** One segment more keeps the shape of the stack. *)
Lemma normalizeSegs_step (a : bool) (s : str) (res : list str) :
  slashFree s = true ->
  stackInv a res ->
  exists res',
    stackInv a res'
    /\ forall rest,
         path.normalizeSegs a (s :: rest) res = path.normalizeSegs a rest res'.
Proof.
  intros Hs [rn [k [-> [Hrn Hk]]]].
  destruct (str_eqb s [] || str_eqb s (lit ".")) eqn:E1.
  { exists (rn ++ repeat (lit "..") k). split; [exists rn, k; auto|].
    intros rest. simpl. now rewrite E1. }
  destruct (str_eqb s (lit "..")) eqn:E2.
  - apply str_eqb_eq in E2. subst s.
    destruct rn as [|top rn].
    + destruct k as [|k].
      * exists (if a then [lit ".."] else []). split.
        { destruct a; [exists [], 1 | exists [], 0]; repeat split; auto.
          discriminate. }
        intros rest. reflexivity.
      * exists (if a then lit ".." :: lit ".." :: repeat (lit "..") k
                else lit ".." :: repeat (lit "..") k).
        split.
        { destruct a; [exists [], (S (S k)) | exists [], (S k)];
            repeat split; auto. discriminate. }
        intros rest. reflexivity.
    + inversion Hrn as [|? ? Htop Hrn']; subst.
      exists (rn ++ repeat (lit "..") k). split; [exists rn, k; auto|].
      intros rest. apply plain_spec in Htop as [_ [_ [_ Htop]]].
      apply str_eqb_neq in Htop. simpl. now rewrite Htop.
  - exists ((s :: rn) ++ repeat (lit "..") k). split.
    + exists (s :: rn), k. repeat split; auto. constructor; [|exact Hrn].
      apply orb_false_iff in E1 as [E0 E1].
      unfold plain. rewrite E0, E1, E2, Hs. reflexivity.
    + intros rest. simpl. now rewrite E1, E2.
Qed.

Lemma split_slashFree_all (p : str) :
  Forall (fun s => slashFree s = true) (path.split p).
Proof.
  induction p as [|c p IH]; simpl.
  - repeat constructor.
  - destruct (Ascii.eqb c slash) eqn:E.
    + constructor; [reflexivity | exact IH].
    + destruct (path.split p) as [|s ss]; [repeat constructor|].
      * rewrite slashFree_cons, Ascii.eqb_sym, E. reflexivity.
      * inversion IH as [|? ? Hs Hss]; subst. constructor; [|exact Hss].
        rewrite slashFree_cons, Ascii.eqb_sym, E. exact Hs.
Qed.

Lemma normalizeSegs_inv (a : bool) (segs res : list str) :
  Forall (fun s => slashFree s = true) segs ->
  stackInv a res ->
  exists res',
    stackInv a res'
    /\ forall rest,
         path.normalizeSegs a (segs ++ rest) res
         = path.normalizeSegs a rest res'.
Proof.
  intros H. revert res. induction H as [|s segs Hs _ IH]; intros res Hinv.
  - exists res. split; [exact Hinv | reflexivity].
  - destruct (normalizeSegs_step a s res Hs Hinv) as [res1 [Hinv1 Hstep]].
    destruct (IH res1 Hinv1) as [res2 [Hinv2 Hrest]].
    exists res2. split; [exact Hinv2|].
    intros rest. cbn [app]. rewrite Hstep. apply Hrest.
Qed.

Lemma slashFree_In (s : str) : slashFree s = true -> ~ In slash s.
Proof.
  unfold slashFree. intros H Hin. apply negb_true_iff in H.
  assert (existsb (Ascii.eqb slash) s = true).
  { apply existsb_exists. exists slash. split; [exact Hin | apply Ascii.eqb_refl]. }
  congruence.
Qed.

Lemma endsWith_slash_plain (x n : str) :
  n <> [] -> slashFree n = true -> endsWith (x ++ n) [slash] = false.
Proof.
  intros Hne Hs. destruct (endsWith (x ++ n) [slash]) eqn:E; [|reflexivity].
  apply endsWith_spec in E as [pre E].
  exfalso. apply (slashFree_In n Hs).
  destruct (exists_last Hne) as [n' [c ->]].
  rewrite app_assoc in E. apply app_inj_tail in E as [_ ->].
  apply in_or_app. right. left. reflexivity.
Qed.

Lemma isAbsolute_plain (n : str) :
  n <> [] -> slashFree n = true -> path.isAbsolute n = false.
Proof.
  destruct n as [|c n]; [congruence|]. intros _.
  rewrite slashFree_cons. intros H. apply andb_true_iff in H as [H _].
  simpl. rewrite Ascii.eqb_sym. now apply negb_true_iff.
Qed.

(** From the kept segments to the normalized text. *)
Lemma normalize_shape (p n : str) (abs : bool) (rn : list str) (k : nat) :
  plain n = true ->
  path.isAbsolute (p ++ n) = abs ->
  path.normalizeSegs (negb abs) (path.split (p ++ n)) []
    = rev (n :: rn ++ repeat (lit "..") k) ->
  path.normalize (p ++ n) = prefix abs k (rev rn) ++ n.
Proof.
  intros Hp Habs Hsegs. apply plain_spec in Hp as [Hne [Hs _]].
  unfold path.normalize. destruct (p ++ n) as [|c q] eqn:Epn.
  { apply app_eq_nil in Epn as [_ ?]. congruence. }
  rewrite Habs, Hsegs. rewrite <- Epn, (endsWith_slash_plain p n Hne Hs).
  cbn [rev]. rewrite unsplit_snoc, rev_app_distr, rev_repeat.
  unfold prefix.
  destruct (concat _ ++ n) eqn:Eb.
  { apply app_eq_nil in Eb as [_ ?]. congruence. }
  rewrite <- Eb. destruct abs; simpl; rewrite <- ?app_assoc; reflexivity.
Qed.

(** A plain name after a separator, after any text. *)
Lemma normalize_under (d n : str) :
  plain n = true ->
  exists abs k names,
    (abs = true -> k = 0)
    /\ Forall (fun s => plain s = true) names
    /\ path.normalize (d ++ slash :: n) = prefix abs k names ++ n.
Proof.
  intros Hp. pose proof Hp as Hp'.
  apply plain_spec in Hp' as [Hne [Hs _]].
  set (abs := path.isAbsolute (d ++ slash :: n)).
  assert (Hinv0 : stackInv (negb abs) [])
    by (exists [], 0; repeat split; auto).
  destruct (normalizeSegs_inv (negb abs) (path.split d) []
              (split_slashFree_all _) Hinv0)
    as [res' [[rn [k [-> [Hrn Hk]]]] Hrun]].
  exists abs, k, (rev rn).
  split.
  { intros E. apply Hk. rewrite E. reflexivity. }
  split; [apply Forall_rev; exact Hrn|].
  replace (d ++ slash :: n) with ((d ++ [slash]) ++ n)
    by (rewrite <- app_assoc; reflexivity).
  apply (normalize_shape _ _ _ _ _ Hp).
  - unfold abs. rewrite <- app_assoc. reflexivity.
  - rewrite <- app_assoc.
    change ([slash] ++ n) with (slash :: n).
    rewrite split_app_slash, (split_slashFree _ Hs), Hrun.
    rewrite (normalizeSegs_plain _ _ _ _ Hp). reflexivity.
Qed.

(** The path of an entry with a plain name, under any directory path: a
    normalized prefix followed by the name. *)
Lemma join_plain (d n : str) :
  plain n = true ->
  exists abs k names,
    (abs = true -> k = 0)
    /\ Forall (fun s => plain s = true) names
    /\ path.join d n = prefix abs k names ++ n.
Proof.
  intros Hp. pose proof Hp as Hp'.
  apply plain_spec in Hp' as [Hne [Hs _]].
  unfold path.join. destruct d as [|c d].
  - destruct n as [|x n]; [congruence|].
    exists false, 0, []. split; [reflexivity|]. split; [constructor|].
    apply (normalize_shape [] (x :: n) false [] 0 Hp).
    + exact (isAbsolute_plain (x :: n) Hne Hs).
    + cbn [app]. rewrite (split_slashFree _ Hs).
      rewrite (normalizeSegs_plain _ _ _ _ Hp). reflexivity.
  - destruct n as [|x n]; [congruence|].
    exact (normalize_under (c :: d) (x :: n) Hp).
Qed.




Lemma plain_slashFree (s : str) : plain s = true -> slashFree s = true.
Proof. intros H. now apply plain_spec in H. Qed.

Lemma segments_slashFree (k : nat) (names : list str) :
  Forall (fun s => plain s = true) names ->
  Forall (fun s => slashFree s = true) (repeat (lit "..") k ++ names).
Proof.
  intros H. apply Forall_app. split.
  - apply Forall_forall. intros s Hs. apply repeat_spec in Hs. now subst.
  - eapply Forall_impl; [|exact H]. apply plain_slashFree.
Qed.

Lemma split_prefix (abs : bool) (k : nat) (names : list str) (n : str) :
  Forall (fun s => plain s = true) names -> plain n = true ->
  path.split (prefix abs k names ++ n)
  = (if abs then [[]] else []) ++ repeat (lit "..") k ++ names ++ [n].
Proof.
  intros Hnames Hn. unfold prefix. rewrite <- app_assoc.
  rewrite <- (split_slashFree n (plain_slashFree n Hn)).
  rewrite (app_assoc (repeat _ k)).
  rewrite <- (Forall_slashFree_split _ n (segments_slashFree k names Hnames)).
  destruct abs; reflexivity.
Qed.

Lemma isAbsolute_prefix (abs : bool) (k : nat) (names : list str) (n : str) :
  Forall (fun s => plain s = true) names -> plain n = true ->
  path.isAbsolute (prefix abs k names ++ n) = abs.
Proof.
  intros Hnames Hn. unfold prefix. destruct abs; [reflexivity|].
  cbn [app].
  assert (Hfirst : forall s rest,
    s <> [] -> slashFree s = true -> path.isAbsolute (s ++ rest) = false).
  { intros [|c s] rest Hne Hs; [congruence|].
    rewrite slashFree_cons in Hs. apply andb_true_iff in Hs as [Hc _].
    simpl. rewrite Ascii.eqb_sym. now apply negb_true_iff. }
  destruct k as [|k].
  - destruct names as [|s names]; simpl.
    + apply plain_spec in Hn as [Hne [Hs _]].
      now apply isAbsolute_plain.
    + inversion Hnames as [|? ? Hs _]; subst.
      apply plain_spec in Hs as [Hne [Hs _]].
      rewrite <- !app_assoc. now apply Hfirst.
  - reflexivity.
Qed.

(** A walked path is its own normal form. *)
Lemma normalize_prefix (abs : bool) (k : nat) (names : list str) (n : str) :
  (abs = true -> k = 0) ->
  Forall (fun s => plain s = true) names -> plain n = true ->
  path.normalize (prefix abs k names ++ n) = prefix abs k names ++ n.
Proof.
  intros Hk Hnames Hn.
  rewrite <- (rev_involutive names) at 2.
  apply (normalize_shape _ _ _ _ _ Hn).
  - now apply isAbsolute_prefix.
  - rewrite (split_prefix abs k names n Hnames Hn). destruct abs.
    + rewrite (Hk eq_refl). cbn [repeat app negb].
      change (path.normalizeSegs false ([] :: names ++ [n]) [])
        with (path.normalizeSegs false (names ++ [n]) []).
      rewrite (normalizeSegs_names false names [n] [] Hnames).
      rewrite (normalizeSegs_plain _ _ _ _ Hn). reflexivity.
    + cbn [app negb].
      pose proof (normalizeSegs_ups k 0 (names ++ [n])) as Hu.
      cbn [repeat] in Hu. rewrite Hu.
      rewrite (normalizeSegs_names true names [n] _ Hnames).
      rewrite (normalizeSegs_plain _ _ _ _ Hn), Nat.add_0_r. reflexivity.
Qed.

(** ** Parsing a walked path *)

Lemma span_app_absent (c : ascii) (a t : str) :
  ~ In c a ->
  path.span c (a ++ t)
  = (a ++ fst (path.span c t), snd (path.span c t)).
Proof.
  induction a as [|x a IH]; intros H; simpl.
  - now destruct (path.span c t).
  - destruct (Ascii.eqb x c) eqn:E.
    + apply Ascii.eqb_eq in E. exfalso. apply H. now left.
    + rewrite IH; [reflexivity|]. intros Hin. apply H. now right.
Qed.

Lemma span_found (c : ascii) (l before after : str) :
  path.span c l = (before, Some after) -> l = before ++ c :: after.
Proof.
  revert before. induction l as [|x l IH]; intros before; simpl.
  - discriminate.
  - destruct (Ascii.eqb x c) eqn:E.
    + apply Ascii.eqb_eq in E. intros H. injection H as <- <-. now subst.
    + destruct (path.span c l) as [b a]. intros H. injection H as <- ->.
      simpl. f_equal. now apply IH.
Qed.

Lemma dropSlashes_plain_rev (n t : str) :
  n <> [] -> slashFree n = true ->
  path.dropSlashes (rev n ++ t) = rev n ++ t.
Proof.
  intros Hne Hs. destruct (rev n) as [|c r] eqn:E.
  - exfalso. apply Hne. rewrite <- (rev_involutive n), E. reflexivity.
  - simpl. destruct (Ascii.eqb c slash) eqn:Ec; [|reflexivity].
    apply Ascii.eqb_eq in Ec. subst c. exfalso.
    apply (slashFree_In n Hs). apply in_rev. rewrite E. now left.
Qed.

Lemma rev_nonempty {A} (l : list A) : l <> [] -> rev l <> [].
Proof.
  intros H E. apply H. rewrite <- (rev_involutive l), E. reflexivity.
Qed.

Lemma lastComponent_bare (n : str) :
  plain n = true -> path.lastComponent n = Some (n, None).
Proof.
  intros Hp. apply plain_spec in Hp as [Hne [Hs _]].
  unfold path.lastComponent.
  pose proof (dropSlashes_plain_rev n [] Hne Hs) as Hd.
  rewrite app_nil_r in Hd. rewrite Hd.
  destruct (rev n) as [|x r] eqn:E; [now apply rev_nonempty in E|].
  rewrite <- E, span_absent.
  - now rewrite rev_involutive.
  - intros c Hc ->. apply (slashFree_In n Hs). now apply in_rev.
Qed.

Lemma lastComponent_under (d n : str) :
  plain n = true -> path.lastComponent (d ++ slash :: n) = Some (n, Some d).
Proof.
  intros Hp. apply plain_spec in Hp as [Hne [Hs _]].
  unfold path.lastComponent.
  rewrite rev_app_distr. cbn [rev]. rewrite <- app_assoc. cbn [app].
  rewrite (dropSlashes_plain_rev n (slash :: rev d) Hne Hs).
  destruct (rev n ++ slash :: rev d) as [|x r] eqn:E.
  { apply app_eq_nil in E as [_ E]. discriminate. }
  rewrite <- E, span_app_absent.
  - cbn [path.span]. rewrite Ascii.eqb_refl. cbn [fst snd option_map].
    now rewrite app_nil_r, !rev_involutive.
  - intros Hin. apply (slashFree_In n Hs). now apply in_rev.
Qed.

Lemma concat_slash_unsplit (segs : list str) :
  segs <> [] ->
  concat (map (fun s => s ++ [slash]) segs) = path.unsplit segs ++ [slash].
Proof.
  induction segs as [|s segs IH]; [congruence|]. intros _.
  destruct segs as [|s2 segs].
  - simpl. now rewrite app_nil_r.
  - change (concat (map (fun s => s ++ [slash]) (s :: s2 :: segs)))
      with ((s ++ [slash]) ++ concat (map (fun s => s ++ [slash]) (s2 :: segs))).
    rewrite IH by discriminate.
    change (path.unsplit (s :: s2 :: segs))
      with (s ++ slash :: path.unsplit (s2 :: segs)).
    rewrite <- !app_assoc. reflexivity.
Qed.

Lemma unsplit_nonempty (s : str) (segs : list str) :
  s <> [] -> path.unsplit (s :: segs) <> [].
Proof.
  intros Hs. destruct segs; simpl.
  - exact Hs.
  - intros E. apply app_eq_nil in E as [E _]. contradiction.
Qed.

Lemma segments_head_nonempty (k : nat) (names : list str) (s : str)
  (segs : list str) :
  Forall (fun s => plain s = true) names ->
  repeat (lit "..") k ++ names = s :: segs -> s <> [].
Proof.
  intros Hnames E. destruct k as [|k].
  - simpl in E. subst names. inversion Hnames as [|? ? Hs _]; subst.
    now apply plain_spec in Hs.
  - simpl in E. injection E as <- _. discriminate.
Qed.

(** A walked path is its prefix, without the last separator, the
    separator, and the name; only directly under the root, or with no prefix
    at all, there is no such separator to remove. *)
Lemma prefix_dirOf (abs : bool) (k : nat) (names : list str) (s : str)
  (segs : list str) :
  repeat (lit "..") k ++ names = s :: segs ->
  prefix abs k names = dirOf abs k names ++ [slash].
Proof.
  intros E. unfold prefix, dirOf. rewrite E.
  rewrite concat_slash_unsplit by discriminate.
  now rewrite app_assoc.
Qed.

Lemma parse_walked (abs : bool) (k : nat) (names : list str) (n : str) :
  (abs = true -> k = 0) ->
  Forall (fun s => plain s = true) names -> plain n = true ->
  path.parse (prefix abs k names ++ n)
  = let underRoot :=
      abs && match repeat (lit "..") k ++ names with
             | [] => true
             | _ => false
             end in
    mkParsedOf (if abs then [slash] else []) (dirOf abs k names) n
      (path.splitExt (negb underRoot) n).
Proof.
  intros Hk Hnames Hn. unfold path.parse.
  pose proof (isAbsolute_prefix abs k names n Hnames Hn) as Habs.
  destruct (prefix abs k names ++ n) as [|c q] eqn:Ep.
  { apply app_eq_nil in Ep as [_ ->]. discriminate. }
  rewrite <- Ep in *. rewrite Habs. clear c q Ep.
  destruct (repeat (lit "..") k ++ names) as [|s segs] eqn:E.
  - assert (Hpre : prefix abs k names = if abs then [slash] else [])
      by (unfold prefix; rewrite E; simpl; now rewrite app_nil_r).
    rewrite Hpre. unfold dirOf. rewrite E. destruct abs.
    + change ([slash] ++ n) with ([] ++ slash :: n).
      rewrite (lastComponent_under [] n Hn). cbn [andb negb].
      unfold mkParsedOf. now destruct (path.splitExt false n).
    + cbn [app]. rewrite (lastComponent_bare n Hn). cbn [andb negb].
      unfold mkParsedOf. now destruct (path.splitExt true n).
  - rewrite (prefix_dirOf abs k names s segs E), <- app_assoc.
    change ([slash] ++ n) with (slash :: n).
    rewrite (lastComponent_under _ n Hn).
    assert (Hd : dirOf abs k names <> []).
    { unfold dirOf. rewrite E. intros H. apply app_eq_nil in H as [_ H].
      revert H. apply unsplit_nonempty.
      exact (segments_head_nonempty k names s segs Hnames E). }
    destruct (dirOf abs k names) as [|x d]; [congruence|].
    rewrite andb_false_r. cbn [negb].
    unfold mkParsedOf. now destruct (path.splitExt true n).
Qed.

(** ** Name and extension *)


Lemma splitExt_inv (dotdot : bool) (b nm ex : str) :
  path.splitExt dotdot b = (nm, ex) -> ex <> [] ->
  b = nm ++ ex /\ nm <> [].
Proof.
  unfold path.splitExt.
  destruct (path.span dot (rev b)) as [post_rev [pre_rev|]] eqn:E.
  2: { intros H. injection H as _ <-. congruence. }
  destruct pre_rev as [|x pre_rev].
  { intros H. injection H as _ <-. congruence. }
  destruct (dotdot && str_eqb b (lit "..")).
  { intros H. injection H as _ <-. congruence. }
  intros H _. injection H as <- <-.
  apply span_found in E. split.
  - rewrite <- (rev_involutive b), E, rev_app_distr. cbn [rev].
    rewrite <- !app_assoc. reflexivity.
  - intros H. apply app_eq_nil in H as [_ H]. discriminate.
Qed.

(** ** The group name of a walked path *)

Lemma format_walked (abs : bool) (k : nat) (names : list str) (n : str)
  (ne : str * str) :
  Forall (fun s => plain s = true) names -> n <> [] ->
  path.format
    (mkParsedOf (if abs then [slash] else []) (dirOf abs k names) n ne)
  = prefix abs k names ++ n.
Proof.
  intros Hnames Hn. unfold path.format, mkParsedOf.
  cbn [path.dir path.root path.base path.name path.ext].
  destruct n as [|c n]; [congruence|]. cbn [truthy].
  destruct (repeat (lit "..") k ++ names) as [|s segs] eqn:E.
  - unfold dirOf, prefix. rewrite E. destruct abs; reflexivity.
  - rewrite (prefix_dirOf abs k names s segs E).
    assert (Hu : path.unsplit (s :: segs) <> [])
      by (apply unsplit_nonempty;
          exact (segments_head_nonempty k names s segs Hnames E)).
    unfold dirOf. rewrite E.
    destruct (path.unsplit (s :: segs)) as [|x u]; [congruence|].
    destruct abs; cbn [app truthy str_eqb].
    + rewrite Ascii.eqb_refl. cbn [andb].
      rewrite <- app_assoc. reflexivity.
    + rewrite <- app_assoc. reflexivity.
Qed.

Lemma join_dirOf (abs : bool) (k : nat) (names : list str) (nm : str) :
  (abs = true -> k = 0) ->
  Forall (fun s => plain s = true) names -> plain nm = true ->
  path.join (dirOf abs k names) nm = prefix abs k names ++ nm.
Proof.
  intros Hk Hnames Hnm. pose proof Hnm as Hnm'.
  apply plain_spec in Hnm' as [Hne [Hs _]].
  destruct (repeat (lit "..") k ++ names) as [|s segs] eqn:E.
  - assert (Hpre : prefix abs k names = if abs then [slash] else [])
      by (unfold prefix; rewrite E; simpl; now rewrite app_nil_r).
    apply app_eq_nil in E as [Ek En]. subst names.
    assert (k = 0) by (destruct k; [reflexivity | discriminate]). subst k.
    unfold dirOf. cbn [repeat app]. destruct nm as [|y nm]; [congruence|].
    destruct abs.
    + cbn [path.join].
      change ([slash] ++ slash :: y :: nm) with ([slash; slash] ++ y :: nm).
      rewrite (normalize_shape [slash; slash] (y :: nm) true [] 0 Hnm).
      * reflexivity.
      * reflexivity.
      * change (path.split ([slash; slash] ++ y :: nm))
          with ([] :: [] :: path.split (y :: nm)).
        rewrite (split_slashFree _ Hs).
        change (path.normalizeSegs (negb true) [[]; []; y :: nm] [])
          with (path.normalizeSegs false [y :: nm] []).
        rewrite (normalizeSegs_plain _ _ _ _ Hnm). reflexivity.
    + cbn [path.join].
      exact (normalize_prefix false 0 [] (y :: nm) Hk Hnames Hnm).
  - rewrite (prefix_dirOf abs k names s segs E).
    assert (Hd : dirOf abs k names <> []).
    { unfold dirOf. rewrite E. intros H. apply app_eq_nil in H as [_ H].
      revert H. apply unsplit_nonempty.
      exact (segments_head_nonempty k names s segs Hnames E). }
    pose proof (normalize_prefix abs k names nm Hk Hnames Hnm) as Hnorm.
    rewrite (prefix_dirOf abs k names s segs E), <- app_assoc in Hnorm.
    destruct (dirOf abs k names) as [|x d]; [congruence|].
    destruct nm as [|y nm]; [congruence|].
    cbn [path.join]. rewrite <- app_assoc. exact Hnorm.
Qed.

(** ** Walked paths *)

Lemma isAsset_long (n : str) : isAsset n = true -> 3 <= length n.
Proof.
  unfold isAsset. rewrite !orb_true_iff, !endsWith_spec.
  intros [[[pre ->]|[pre ->]]|[pre ->]]; rewrite length_app;
    [change (length (lit ".map")) with 4
    |change (length (lit ".js")) with 3
    |change (length (lit ".hbc")) with 4]; lia.
Qed.

Lemma isAsset_plain (n : str) :
  slashFree n = true -> isAsset n = true -> plain n = true.
Proof.
  intros Hs Ha. apply isAsset_long in Ha. apply plain_spec.
  split; [intros ->; simpl in Ha; lia|].
  split; [exact Hs|].
  split; intros ->; cbv in Ha; lia.
Qed.

Lemma walkItem_walked (item : dirent) :
  wellNamed item = true ->
  forall directory p, In p (walkItem directory item) -> walked p.
Proof.
  induction item as [n|n|n sub IH] using dirent_nested_ind;
    intros Hwf directory p Hin; simpl in Hin.
  - destruct (isAsset n) eqn:E; [|contradiction].
    destruct Hin as [<-|[]]. simpl in Hwf.
    pose proof (isAsset_plain n Hwf E) as Hp.
    destruct (join_plain directory n Hp) as [abs [k [names [Hk [Hn Hj]]]]].
    exists abs, k, names, n. auto.
  - contradiction.
  - apply in_flat_map in Hin as [item [Hitem Hp]].
    rewrite Forall_forall in IH. simpl in Hwf.
    rewrite forallb_forall in Hwf.
    exact (IH item Hitem (Hwf item Hitem) _ _ Hp).
Qed.

(** Every path of a walk over well-named entries is a walked path. *)
Lemma getAssetPathsSync_walked (directory : str) (items : list dirent) (p : str) :
  forallb wellNamed items = true ->
  In p (getAssetPathsSync directory items) -> walked p.
Proof.
  unfold getAssetPathsSync. intros Hwf Hin.
  apply in_flat_map in Hin as [item [Hitem Hp]].
  rewrite forallb_forall in Hwf.
  exact (walkItem_walked item (Hwf item Hitem) _ _ Hp).
Qed.

(** A walked path that is no sourcemap is its own group name. *)
Lemma walked_key_self (p : str) :
  walked p -> isSourcemap p = false -> assetGroupName p = p.
Proof.
  intros [abs [k [names [n [Hk [Hnames [Hn ->]]]]]]] Hsm.
  unfold isSourcemap in Hsm. unfold assetGroupName. rewrite Hsm.
  rewrite (parse_walked abs k names n Hk Hnames Hn). cbv zeta.
  apply format_walked; [exact Hnames|]. now apply plain_spec in Hn.
Qed.

(** A walked sourcemap other than [..map] and [...map]: its group name is
    the path without [.map]. *)
Lemma walked_key_map (p : str) :
  walked p -> isSourcemap p = true -> dotStem p = false ->
  p = stripMap p ++ lit ".map" /\ assetGroupName p = stripMap p.
Proof.
  intros [abs [k [names [n [Hk [Hnames [Hn ->]]]]]]] Hsm Hdot.
  unfold isSourcemap in Hsm. unfold dotStem in Hdot.
  unfold assetGroupName. rewrite Hsm.
  rewrite (parse_walked abs k names n Hk Hnames Hn) in *. cbv zeta in *.
  unfold mkParsedOf in *.
  cbn [path.ext path.base path.dir path.name] in *.
  match type of Hsm with
  | str_eqb (snd (path.splitExt ?dd n)) _ = true =>
      destruct (path.splitExt dd n) as [nm ex] eqn:Es
  end.
  cbn [fst snd] in *. apply str_eqb_eq in Hsm. subst ex.
  apply splitExt_inv in Es as [-> Hnm]; [|discriminate].
  apply orb_false_iff in Hdot as [Hd1 Hd2].
  apply str_eqb_neq in Hd1, Hd2.
  assert (Hplain : plain nm = true).
  { apply plain_spec. split; [exact Hnm|].
    apply plain_slashFree in Hn. rewrite slashFree_app in Hn.
    apply andb_true_iff in Hn as [Hn _]. split; [exact Hn|].
    split; intros ->; [apply Hd1 | apply Hd2]; reflexivity. }
  assert (Hstrip : stripMap (prefix abs k names ++ nm ++ lit ".map")
                   = prefix abs k names ++ nm).
  { unfold stripMap. rewrite app_assoc, length_app.
    change (length (lit ".map")) with 4.
    replace (length (prefix abs k names ++ nm) + 4 - 4)
      with (length (prefix abs k names ++ nm) + 0) by lia.
    rewrite firstn_app_2. simpl. now rewrite app_nil_r. }
  rewrite Hstrip. split; [now rewrite <- app_assoc|].
  exact (join_dirOf abs k names nm Hk Hnames Hplain).
Qed.





Lemma filesOfGroup_In (files : list str) (k p : str) :
  In p (filesOfGroup files k) <-> In p files /\ assetGroupName p = k.
Proof.
  unfold filesOfGroup. rewrite filter_In, str_eqb_eq. reflexivity.
Qed.


(** ** Paths below the output directory *)

(** The paths of entries with plain names under one directory path share
    one normalized prefix. *)
Lemma join_uniform (d : str) :
  exists abs k names,
    (abs = true -> k = 0)
    /\ Forall (fun s => plain s = true) names
    /\ forall n, plain n = true -> path.join d n = prefix abs k names ++ n.
Proof.
  destruct d as [|c d].
  - exists false, 0, []. split; [reflexivity|]. split; [constructor|].
    intros n Hp. pose proof Hp as Hp'.
    apply plain_spec in Hp' as [Hne [Hs _]].
    destruct n as [|x n]; [congruence|]. cbn [path.join].
    apply (normalize_shape [] (x :: n) false [] 0 Hp).
    + exact (isAbsolute_plain (x :: n) Hne Hs).
    + cbn [app]. rewrite (split_slashFree _ Hs).
      rewrite (normalizeSegs_plain _ _ _ _ Hp). reflexivity.
  - assert (Hinv0 : stackInv (negb (path.isAbsolute (c :: d))) [])
      by (exists [], 0; repeat split; auto).
    destruct (normalizeSegs_inv (negb (path.isAbsolute (c :: d)))
                (path.split (c :: d)) [] (split_slashFree_all _) Hinv0)
      as [res' [[rn [k [-> [Hrn Hk]]]] Hrun]].
    exists (path.isAbsolute (c :: d)), k, (rev rn).
    split.
    { intros E. apply Hk. rewrite E. reflexivity. }
    split; [apply Forall_rev; exact Hrn|].
    intros n Hp. pose proof Hp as Hp'.
    apply plain_spec in Hp' as [Hne [Hs _]].
    destruct n as [|x n]; [congruence|]. cbn [path.join].
    replace ((c :: d) ++ slash :: x :: n)
      with (((c :: d) ++ [slash]) ++ x :: n)
      by (rewrite <- app_assoc; reflexivity).
    apply (normalize_shape _ _ _ _ _ Hp); [reflexivity|].
    rewrite <- app_assoc.
    change ([slash] ++ x :: n) with (slash :: x :: n).
    rewrite split_app_slash, (split_slashFree _ Hs), Hrun.
    rewrite (normalizeSegs_plain _ _ _ _ Hp). reflexivity.
Qed.

Lemma prefix_snoc (abs : bool) (k : nat) (names : list str) (n : str) :
  prefix abs k (names ++ [n]) = prefix abs k names ++ n ++ [slash].
Proof.
  unfold prefix. rewrite app_assoc, map_app, concat_app. simpl.
  rewrite app_nil_r, <- !app_assoc. reflexivity.
Qed.

Lemma dirOf_snoc (abs : bool) (k : nat) (names : list str) (n : str) :
  dirOf abs k (names ++ [n]) = prefix abs k names ++ n.
Proof.
  unfold dirOf, prefix. rewrite app_assoc.
  destruct ((repeat (lit "..") k ++ names) ++ [n]) as [|s segs] eqn:E.
  { apply app_eq_nil in E as [_ E]. discriminate. }
  rewrite <- E, unsplit_snoc, <- app_assoc. reflexivity.
Qed.

(** The path of an entry inside a walked directory. *)
Lemma join_walked_dir (abs : bool) (k : nat) (names : list str) (n m : str) :
  (abs = true -> k = 0) ->
  Forall (fun s => plain s = true) names ->
  plain n = true -> plain m = true ->
  path.join (prefix abs k names ++ n) m = prefix abs k (names ++ [n]) ++ m.
Proof.
  intros Hk Hnames Hn Hm. rewrite <- dirOf_snoc.
  apply join_dirOf; [exact Hk | | exact Hm].
  apply Forall_app. split; [exact Hnames | constructor; [exact Hn | constructor]].
Qed.

Lemma segsOf_prefix (abs : bool) (k : nat) (names : list str) (n : str) :
  (abs = true -> k = 0) ->
  Forall (fun s => plain s = true) names -> plain n = true ->
  segsOf (prefix abs k names ++ n) = repeat (lit "..") k ++ names ++ [n].
Proof.
  intros Hk Hnames Hn. unfold segsOf.
  rewrite (isAbsolute_prefix abs k names n Hnames Hn).
  rewrite (split_prefix abs k names n Hnames Hn). destruct abs.
  - rewrite (Hk eq_refl). cbn [repeat app negb].
    change (path.normalizeSegs false ([] :: names ++ [n]) [])
      with (path.normalizeSegs false (names ++ [n]) []).
    rewrite (normalizeSegs_names false names [n] [] Hnames).
    rewrite (normalizeSegs_plain _ _ _ _ Hn). cbn [path.normalizeSegs].
    rewrite app_nil_r. cbn [rev]. now rewrite rev_involutive.
  - cbn [app negb].
    pose proof (normalizeSegs_ups k 0 (names ++ [n])) as Hu.
    cbn [repeat] in Hu. rewrite Hu.
    rewrite (normalizeSegs_names true names [n] _ Hnames).
    rewrite (normalizeSegs_plain _ _ _ _ Hn), Nat.add_0_r.
    cbn [path.normalizeSegs rev].
    rewrite rev_app_distr, rev_involutive, rev_repeat, <- app_assoc.
    reflexivity.
Qed.

(** The normal form of a directory path: whether it is absolute, the
    segments it keeps, and the prefix it gives to the entries below it. *)
Lemma root_form (d : str) :
  exists abs k names,
    (abs = true -> k = 0)
    /\ Forall (fun s => plain s = true) names
    /\ path.isAbsolute d = abs
    /\ segsOf d = repeat (lit "..") k ++ names
    /\ forall n, plain n = true -> path.join d n = prefix abs k names ++ n.
Proof.
  destruct d as [|c d].
  - exists false, 0, []. split; [reflexivity|]. split; [constructor|].
    split; [reflexivity|]. split; [reflexivity|].
    intros n Hp. pose proof Hp as Hp'.
    apply plain_spec in Hp' as [Hne [Hs _]].
    destruct n as [|x n]; [congruence|]. cbn [path.join].
    apply (normalize_shape [] (x :: n) false [] 0 Hp).
    + exact (isAbsolute_plain (x :: n) Hne Hs).
    + cbn [app]. rewrite (split_slashFree _ Hs).
      rewrite (normalizeSegs_plain _ _ _ _ Hp). reflexivity.
  - assert (Hinv0 : stackInv (negb (path.isAbsolute (c :: d))) [])
      by (exists [], 0; repeat split; auto).
    destruct (normalizeSegs_inv (negb (path.isAbsolute (c :: d)))
                (path.split (c :: d)) [] (split_slashFree_all _) Hinv0)
      as [res' [[rn [k [-> [Hrn Hk]]]] Hrun]].
    exists (path.isAbsolute (c :: d)), k, (rev rn).
    split.
    { intros E. apply Hk. rewrite E. reflexivity. }
    split; [apply Forall_rev; exact Hrn|].
    split; [reflexivity|].
    split.
    { unfold segsOf. specialize (Hrun []). rewrite app_nil_r in Hrun.
      rewrite Hrun. cbn [path.normalizeSegs].
      now rewrite rev_app_distr, rev_repeat. }
    intros n Hp. pose proof Hp as Hp'.
    apply plain_spec in Hp' as [Hne [Hs _]].
    destruct n as [|x n]; [congruence|]. cbn [path.join].
    replace ((c :: d) ++ slash :: x :: n)
      with (((c :: d) ++ [slash]) ++ x :: n)
      by (rewrite <- app_assoc; reflexivity).
    apply (normalize_shape _ _ _ _ _ Hp); [reflexivity|].
    rewrite <- app_assoc.
    change ([slash] ++ x :: n) with (slash :: x :: n).
    rewrite split_app_slash, (split_slashFree _ Hs), Hrun.
    rewrite (normalizeSegs_plain _ _ _ _ Hp). reflexivity.
Qed.

Lemma below_app (rs rest : list str) : below rs (rs ++ rest) = Some rest.
Proof.
  induction rs as [|r rs IH]; simpl; [now destruct rest|].
  now rewrite str_eqb_refl.
Qed.

Lemma plain_not_dotdot (n : str) : plain n = true -> str_eqb n (lit "..") = false.
Proof. intros H. apply plain_spec in H as (_ & _ & _ & H). now apply str_eqb_neq. Qed.

(** A path made of the prefix of the directory, plain names and a plain
    last name lies below the directory, at those names. *)
Lemma locate_under (d : str) (abs : bool) (k : nat) (names dirs : list str)
  (n : str) :
  (abs = true -> k = 0) ->
  Forall (fun s => plain s = true) names ->
  path.isAbsolute d = abs ->
  segsOf d = repeat (lit "..") k ++ names ->
  Forall (fun s => plain s = true) dirs -> plain n = true ->
  locate d (prefix abs k (names ++ dirs) ++ n) = Some (dirs ++ [n]).
Proof.
  intros Hk Hnames Habs Hsegs Hdirs Hn. unfold locate.
  assert (Hall : Forall (fun s => plain s = true) (names ++ dirs))
    by (apply Forall_app; auto).
  rewrite (isAbsolute_prefix abs k _ n Hall Hn), Habs, Bool.eqb_reflx.
  rewrite (segsOf_prefix abs k _ n Hk Hall Hn), Hsegs.
  rewrite <- !app_assoc, (app_assoc (repeat _ k)), below_app.
  destruct dirs as [|s dirs]; cbn [app].
  - now rewrite (plain_not_dotdot n Hn).
  - inversion Hdirs; subst. now rewrite (plain_not_dotdot s).
Qed.

(** The destination of a copy under a plain name is that name in the
    scratch directory. *)
Lemma locate_tmp (d n : str) :
  plain n = true ->
  locate d (path.join (path.join d TMP_DIR) n) = Some [TMP_DIR; n].
Proof.
  intros Hn.
  destruct (root_form d) as (abs & k & names & Hk & Hnames & Habs & Hsegs & Hj).
  rewrite (Hj TMP_DIR eq_refl).
  rewrite (join_walked_dir abs k names TMP_DIR n Hk Hnames eq_refl Hn).
  apply (locate_under d abs k names [TMP_DIR] n); auto.
Qed.

Lemma join_tmp_inj (d n1 n2 : str) :
  plain n1 = true -> plain n2 = true ->
  path.join (path.join d TMP_DIR) n1 = path.join (path.join d TMP_DIR) n2 ->
  n1 = n2.
Proof.
  intros H1 H2.
  destruct (root_form d) as (abs & k & names & Hk & Hnames & _ & _ & Hj).
  rewrite (Hj TMP_DIR eq_refl).
  rewrite !(join_walked_dir abs k names TMP_DIR _ Hk Hnames eq_refl) by auto.
  apply app_inv_head.
Qed.

(** ** Entries of a listing by name *)



Lemma tmpExists_find (items : list dirent) :
  tmpExists items
  = match find (isNamed TMP_DIR) items with Some _ => true | None => false end.
Proof.
  unfold tmpExists. induction items as [|item items IH]; simpl; auto.
  destruct (isNamed TMP_DIR item); auto.
Qed.

Lemma tmpListing_find (items : list dirent) :
  tmpListing items
  = match find (isNamed TMP_DIR) items with
    | Some (Directory _ sub) => Some sub
    | _ => None
    end.
Proof.
  induction items as [|item items IH]; simpl; auto.
  destruct (isNamed TMP_DIR item); auto.
Qed.


Lemma find_replaceEntry_other (n m : str) (new : dirent)
  (items : list dirent) :
  dirent_name new = m -> n <> m ->
  find (isNamed n) (replaceEntry m new items) = find (isNamed n) items.
Proof.
  intros Hnew Hne.
  induction items as [|item items IH]; simpl; [reflexivity|].
  destruct (isNamed m item) eqn:Em; simpl.
  - apply str_eqb_eq in Em.
    assert (H1 : isNamed n new = false)
      by (apply str_eqb_neq; congruence).
    assert (H2 : isNamed n item = false)
      by (apply str_eqb_neq; congruence).
    now rewrite H1, H2.
  - destruct (isNamed n item); [reflexivity | exact IH].
Qed.

Lemma find_replaceEntry_same (m : str) (new : dirent) (items : list dirent) :
  dirent_name new = m ->
  find (isNamed m) (replaceEntry m new items)
  = match find (isNamed m) items with Some _ => Some new | None => None end.
Proof.
  intros Hnew.
  induction items as [|item items IH]; simpl; [reflexivity|].
  destruct (isNamed m item) eqn:Em; simpl.
  - assert (H1 : isNamed m new = true) by (now apply str_eqb_eq).
    now rewrite H1.
  - now rewrite Em.
Qed.


Lemma replaceEntry_found (n : str) (item : dirent) (items : list dirent) :
  find (isNamed n) items = Some item -> replaceEntry n item items = items.
Proof.
  induction items as [|x items IH]; simpl; [discriminate|].
  destruct (isNamed n x).
  - intros H. injection H as ->. reflexivity.
  - intros H. now rewrite IH.
Qed.

Lemma find_addEntry_other (n : str) (new : dirent) (items : list dirent) :
  n <> dirent_name new ->
  find (isNamed n) (addEntry new items) = find (isNamed n) items.
Proof.
  intros Hne.
  assert (H1 : isNamed n new = false)
    by (apply str_eqb_neq; congruence).
  induction items as [|item items IH]; simpl; [now rewrite H1|].
  destruct (str_ltb _ _); simpl; [now rewrite H1|].
  destruct (isNamed n item); [reflexivity | exact IH].
Qed.

Lemma find_addEntry_same (new : dirent) (items : list dirent) :
  find (isNamed (dirent_name new)) items = None ->
  find (isNamed (dirent_name new)) (addEntry new items) = Some new.
Proof.
  assert (H1 : isNamed (dirent_name new) new = true)
    by (apply str_eqb_refl).
  induction items as [|item items IH]; simpl; [now rewrite H1|].
  destruct (isNamed (dirent_name new) item) eqn:E; [discriminate|].
  intros H. destruct (str_ltb _ _); simpl; [now rewrite H1|].
  rewrite E. exact (IH H).
Qed.

Lemma addEntry_perm (new : dirent) (items : list dirent) :
  Permutation (addEntry new items) (new :: items).
Proof.
  induction items as [|item items IH]; simpl; [reflexivity|].
  destruct (str_ltb _ _); [reflexivity|].
  rewrite IH. apply perm_swap.
Qed.

Lemma In_addEntry (new x : dirent) (items : list dirent) :
  In x (addEntry new items) <-> x = new \/ In x items.
Proof.
  split; intros H.
  - apply (Permutation_in _ (addEntry_perm new items)) in H as [H|H]; auto.
  - apply (Permutation_in _ (Permutation_sym (addEntry_perm new items))).
    destruct H as [->|H]; [now left | now right].
Qed.

Lemma removeTmp_addEntry (new : dirent) (items : list dirent) :
  isNamed TMP_DIR new = true ->
  removeTmp (addEntry new items) = removeTmp items.
Proof.
  intros Hn. unfold removeTmp.
  induction items as [|item items IH]; simpl; [now rewrite Hn|].
  destruct (str_ltb _ _); simpl; [now rewrite Hn|].
  now rewrite IH.
Qed.

Lemma removeTmp_replaceEntry (new : dirent) (items : list dirent) :
  isNamed TMP_DIR new = true ->
  removeTmp (replaceEntry TMP_DIR new items) = removeTmp items.
Proof.
  intros Hn. unfold removeTmp.
  induction items as [|item items IH]; simpl; [reflexivity|].
  destruct (isNamed TMP_DIR item) eqn:E; simpl.
  - now rewrite Hn.
  - now rewrite E, IH.
Qed.

Lemma replaceEntry_In (n : str) (new x : dirent) (items : list dirent) :
  In x (replaceEntry n new items) -> x = new \/ In x items.
Proof.
  induction items as [|item items IH]; simpl; [tauto|].
  destruct (isNamed n item); simpl; intuition.
Qed.



(** ** Copies into a listing *)


Lemma writeFile_In (n : str) (sub sub' : list dirent) (x : dirent) :
  writeFile n sub = Some sub' -> In x sub' -> x = File n \/ In x sub.
Proof.
  unfold writeFile. destruct (find (isNamed n) sub) as [item|] eqn:E.
  - destruct item; [|discriminate|]; intros H; injection H as <-;
      apply replaceEntry_In.
  - intros H. injection H as <-. apply In_addEntry.
Qed.


(** Writing over a regular file leaves the listing as it is. *)
Lemma writeFile_again (n : str) (sub : list dirent) :
  find (isNamed n) sub = Some (File n) -> writeFile n sub = Some sub.
Proof.
  intros H. unfold writeFile. rewrite H. f_equal.
  now apply replaceEntry_found.
Qed.



Lemma tmpListing_replaceEntry (items sub sub' : list dirent) :
  tmpListing items = Some sub ->
  tmpListing (replaceEntry TMP_DIR (Directory TMP_DIR sub') items) = Some sub'.
Proof.
  rewrite !tmpListing_find, (find_replaceEntry_same TMP_DIR) by reflexivity.
  destruct (find (isNamed TMP_DIR) items); [reflexivity | discriminate].
Qed.

Lemma tmpListing_addEntry (items sub : list dirent) :
  tmpExists items = false ->
  tmpListing (addEntry (Directory TMP_DIR sub) items) = Some sub.
Proof.
  rewrite tmpExists_find, tmpListing_find. intros H.
  rewrite (find_addEntry_same (Directory TMP_DIR sub)); [reflexivity|].
  cbn [dirent_name]. destruct (find _ items); [discriminate | reflexivity].
Qed.

Lemma kindAt_replaceEntry (segs : list str) (new : dirent)
  (items : list dirent) (s : str) (rest : list str) :
  segs = s :: rest -> s <> TMP_DIR -> dirent_name new = TMP_DIR ->
  kindAt segs (replaceEntry TMP_DIR new items) = kindAt segs items.
Proof.
  intros -> Hs Hn. cbn [kindAt].
  now rewrite (find_replaceEntry_other s TMP_DIR new items Hn Hs).
Qed.

Lemma kindAt_addEntry (new : dirent) (items : list dirent) (s : str)
  (rest : list str) :
  s <> dirent_name new ->
  kindAt (s :: rest) (addEntry new items) = kindAt (s :: rest) items.
Proof.
  intros Hs. cbn [kindAt]. now rewrite (find_addEntry_other s new items Hs).
Qed.



(** ** Where the walked files are *)







(** ** The shape of the names files are staged under *)

Lemma span_before_absent (c : ascii) (l : str) : ~ In c (fst (path.span c l)).
Proof.
  induction l as [|x l IH]; simpl; [tauto|].
  destruct (Ascii.eqb x c) eqn:E; simpl; [tauto|].
  destruct (path.span c l) as [before after]. simpl in *.
  intros [H|H]; [|exact (IH H)].
  apply Ascii.eqb_neq in E. contradiction.
Qed.

Lemma not_In_slashFree (s : str) : ~ In slash s -> slashFree s = true.
Proof.
  intros H. unfold slashFree. apply negb_true_iff.
  destruct (existsb (Ascii.eqb slash) s) eqn:E; [|reflexivity].
  apply existsb_exists in E as [x [Hx Ex]]. apply Ascii.eqb_eq in Ex.
  subst x. contradiction.
Qed.

Lemma lastComponent_slashFree (p b : str) (before : option str) :
  path.lastComponent p = Some (b, before) -> slashFree b = true.
Proof.
  unfold path.lastComponent.
  destruct (path.dropSlashes (rev p)) as [|x r]; [discriminate|].
  pose proof (span_before_absent slash (x :: r)) as Hs.
  destruct (path.span slash (x :: r)) as [base_rev before_rev].
  intros H. injection H as <- _. simpl in Hs.
  apply not_In_slashFree. intros Hin. apply Hs. now apply in_rev.
Qed.

Lemma splitExt_ext_incl (dotdot : bool) (b : str) :
  incl (snd (path.splitExt dotdot b)) b.
Proof.
  unfold path.splitExt.
  destruct (path.span dot (rev b)) as [post_rev [pre_rev|]] eqn:E;
    [|apply incl_nil_l].
  destruct pre_rev as [|x pre_rev]; [apply incl_nil_l|].
  destruct (dotdot && str_eqb b (lit "..")); [apply incl_nil_l|].
  simpl. apply span_found in E.
  intros c [<-|Hc]; apply in_rev; rewrite E; apply in_or_app.
  - right. now left.
  - left. now apply in_rev.
Qed.

(** The extension of any path holds no separator. *)
Lemma ext_slashFree (k : str) : slashFree (path.ext (path.parse k)) = true.
Proof.
  unfold path.parse. destruct k as [|c k]; [reflexivity|].
  destruct (path.lastComponent (c :: k)) as [[b before]|] eqn:E;
    [|reflexivity].
  pose proof (lastComponent_slashFree _ _ _ E) as Hb.
  match goal with
  | |- context [path.splitExt ?dd b] =>
      pose proof (splitExt_ext_incl dd b) as Hi;
      destruct (path.splitExt dd b) as [nm ex]
  end.
  simpl in *. apply not_In_slashFree. intros Hin.
  apply (slashFree_In b Hb). apply Hi. exact Hin.
Qed.

Lemma newAssetGroupName_shape (u : update) (k : str) :
  slashFree (platform u) = true -> slashFree (id u) = true ->
  slashFree (newAssetGroupName u k) = true
  /\ 11 <= length (newAssetGroupName u k).
Proof.
  intros Hp Hi. unfold newAssetGroupName. split.
  - rewrite !slashFree_app, Hp, Hi, ext_slashFree. reflexivity.
  - rewrite !length_app. change (length (lit "-update-id-")) with 11. lia.
Qed.

Lemma stagedName_shape (u : update) (k p : str) :
  slashFree (platform u) = true -> slashFree (id u) = true ->
  stagedShape (stagedName (newAssetGroupName u k) p).
Proof.
  intros Hp Hi. destruct (newAssetGroupName_shape u k Hp Hi) as [Hs Hl].
  exists (newAssetGroupName u k). split; [|auto].
  unfold stagedName. destruct (str_eqb (path.extname p) (lit ".map")) eqn:E.
  - apply str_eqb_eq in E. rewrite E. now right.
  - now left.
Qed.

Lemma stagedShape_plain (n : str) :
  stagedShape n ->
  plain n = true /\ n <> lit "..map" /\ n <> lit "...map".
Proof.
  intros [N [Hn [Hs Hl]]].
  assert (Hlen : 11 <= length n).
  { destruct Hn as [-> | ->]; [exact Hl|]. rewrite length_app. lia. }
  assert (Hsf : slashFree n = true).
  { destruct Hn as [-> | ->]; [exact Hs|]. rewrite slashFree_app, Hs.
    reflexivity. }
  split.
  - apply plain_spec. split; [intros ->; simpl in Hlen; lia|].
    split; [exact Hsf|].
    split; intros ->; cbv in Hlen; lia.
  - split; intros ->; cbv in Hlen; lia.
Qed.

Lemma TMP_DIR_plain : plain TMP_DIR = true.
Proof. reflexivity. Qed.


(** C1 (the code departs from the claim).  On the scenario of the
    specification the loop over the updates records the runtime under the
    bare name [android-update-id-u1.bundle], the second grouping pass keys the
    staged group by its path under the scratch directory, the lookup gives
    [undefined], and the one upload is made with no runtime version as its
    release. *)
Theorem scenario_release_is_undefined :
  correlated scenarioWorld (lit "dist")
    (mkState (removeTmp scenarioEntries) [])
    = Some [(lit "android-update-id-u1.bundle", lit "1.2.0")]
  /\ (exists st,
        main scenarioWorld (start scenarioWorld) = (st, inr tt)
        /\ option_map objectKeys
             (groupAssets
                (getAssetPathsSync (lit "dist/.tmp")
                   (match tmpListing (fs st) with Some l => l | None => [] end)))
           = Some [lit "dist/.tmp/android-update-id-u1.bundle"]
        /\ uploads (trace st)
           = [mkUpload None false
                [lit "dist/.tmp/android-update-id-u1.bundle.map"]])
  /\ commandLine
       (mkUpload None false [lit "dist/.tmp/android-update-id-u1.bundle.map"])
     = lit "node_modules/@sentry/cli/bin/sentry-cli sourcemaps upload --release undefined  dist/.tmp/android-update-id-u1.bundle.map".
Proof.
  split; [vm_compute; reflexivity|].
  split; [|vm_compute; reflexivity].
  eexists. split; [vm_compute; reflexivity|].
  split; vm_compute; reflexivity.
Qed.

(** ** The upload driver *)

Lemma isHermes_spec (assets : list str) :
  isHermes assets = true <->
  exists a pre, In a assets /\ a = pre ++ lit ".hbc".
Proof.
  unfold isHermes. rewrite existsb_exists. split.
  - intros [a [Ha He]]. apply endsWith_spec in He as [pre ->].
    exists (pre ++ lit ".hbc"), pre. auto.
  - intros [a [pre [Ha ->]]]. exists (pre ++ lit ".hbc").
    split; [exact Ha | apply endsWith_app].
Qed.

Lemma uploadGroup_eq (w : world) project runtimes name assets st :
  uploadGroup w project runtimes tt (name, assets) st =
  let u := mkUpload (get runtimes name) (isHermes assets) assets in
  (mkState (fs st) (trace st ++ [Upload u project]),
   if cliFails w u then inl (Throw (lit "Command failed")) else inr tt).
Proof.
  unfold uploadGroup, bind, emit. simpl.
  destruct (cliFails w _); reflexivity.
Qed.

Lemma keeps_copyFiles P (w : world) parent filePaths newFileName :
  (forall e, mutation e = true -> P e) -> (forall p, P (ExistsSync p)) ->
  keeps P (copyFilesToTmpDirectory w parent filePaths newFileName).
Proof.
  intros Hm He. unfold copyFilesToTmpDirectory.
  repeat keeps_step; auto.
  - destruct (tmpExists _); repeat keeps_step; auto.
  - apply keeps_cpSync. auto.
Qed.

Lemma keeps_main_flag (w : world) : keeps flagMatchesBytecode (main w).
Proof.
  assert (Hq : forall e, mutation e = true -> flagMatchesBytecode e)
    by (intros [] ?; simpl; auto; discriminate).
  unfold main, resolveProject, getSentryPluginPropertiesFromExpoConfig,
    checkAuthToken, readOutputDir, pipeline, deleteTmpDirectory,
    readAndPrintJSONFile, readTmp, correlate, grouped.
  repeat first
    [ keeps_step
    | exact I
    | apply keeps_copyFiles; [exact Hq | intros; exact I]
    | match goal with
      | |- keeps _ (match ?x with _ => _ end) => destruct x
      | |- keeps _ (if ?x then _ else _) => destruct x
      | |- keeps _ (uploadGroup _ _ _ _ ?e) => destruct e
      end ].
  all: try (intros st H; rewrite uploadGroup_eq; simpl;
            apply Forall_app; split; [exact H | repeat constructor]).
  all: try (cbv zeta; apply keeps_cpSync; exact I).
  all: try reflexivity.
Qed.

(** C4.  Whatever the script finds, every upload it makes passes
    [--debug-id-reference] exactly when one of the uploaded files of the
    group ends in [.hbc]; a group without bytecode is uploaded without the
    flag. *)
Theorem debug_id_flag_iff_bytecode (w : world) (u : upload) (project : option json) :
  In (Upload u project) (trace (fst (main w (start w)))) ->
  (debugIdReference u = true <->
   exists a pre, In a (targets u) /\ a = pre ++ lit ".hbc")
  /\ ((forall a, In a (targets u) -> endsWith a (lit ".hbc") = false) ->
      debugIdReference u = false).
Proof.
  intros Hin.
  assert (H : flagMatchesBytecode (Upload u project)).
  { pose proof (keeps_main_flag w (start w) (Forall_nil _)) as HF.
    rewrite Forall_forall in HF. apply HF. exact Hin. }
  simpl in H. rewrite H. split; [apply isHermes_spec|].
  intros Hno. unfold isHermes.
  destruct (existsb _ (targets u)) eqn:E; [|reflexivity].
  apply existsb_exists in E as [a [Ha He]]. rewrite (Hno a Ha) in He.
  discriminate.
Qed.

Lemma debug_id_flag_iff_bytecode_witness :
  let u := mkUpload None true
             [lit "dist/.tmp/ios-update-id-u2.hbc";
              lit "dist/.tmp/ios-update-id-u2.hbc.map"] in
  In (Upload u (Some (JStr (lit "demo"))))
     (trace (fst (main hermesWorld (start hermesWorld))))
  /\ (debugIdReference u = true <->
      exists a pre, In a (targets u) /\ a = pre ++ lit ".hbc").
Proof.
  assert (Hin : In (Upload
                     (mkUpload None true
                        [lit "dist/.tmp/ios-update-id-u2.hbc";
                         lit "dist/.tmp/ios-update-id-u2.hbc.map"])
                     (Some (JStr (lit "demo"))))
                  (trace (fst (main hermesWorld (start hermesWorld))))).
  { vm_compute. do 5 right. left. reflexivity. }
  split; [exact Hin|].
  exact (proj1 (debug_id_flag_iff_bytecode hermesWorld _ _ Hin)).
Defined.


(** C3 (counterexample).  On the scenario of the specification the staged
    group has no entry in the table of runtimes, and the driver neither
    fails nor skips the upload: the run ends normally after uploading the
    group with an undefined release. *)
Lemma scenario_upload_without_runtime_entry :
  let runtimes := [(lit "android-update-id-u1.bundle", lit "1.2.0")] in
  let name := lit "dist/.tmp/android-update-id-u1.bundle" in
  let assets := [lit "dist/.tmp/android-update-id-u1.bundle.map"] in
  correlated scenarioWorld (lit "dist") (mkState (removeTmp scenarioEntries) [])
    = Some runtimes
  /\ get runtimes name = None
  /\ exists st,
       main scenarioWorld (start scenarioWorld) = (st, inr tt)
       /\ uploads (trace st) = [mkUpload None false assets].
Proof.
  split; [vm_compute; reflexivity|].
  split; [vm_compute; reflexivity|].
  eexists. split; vm_compute; reflexivity.
Qed.

(** C3 (amended).  For a group whose name has no entry in the table of
    runtimes the driver still invokes the upload tool, once, with the release
    left undefined; the only failure it can end with is that of the tool. *)
Theorem upload_without_runtime_entry
  (w : world) (project : option json) (runtimes : dict str)
  (name : str) (assets : list str) (st : state) :
  get runtimes name = None ->
  let u := mkUpload None (isHermes assets) assets in
  uploadGroup w project runtimes tt (name, assets) st
  = (mkState (fs st) (trace st ++ [Upload u project]),
     if cliFails w u then inl (Throw (lit "Command failed")) else inr tt)
  /\ commandLine u
     = SENTRY_CLI ++ lit " sourcemaps upload --release undefined "
       ++ (if isHermes assets then lit "--debug-id-reference" else [])
       ++ lit " " ++ joinSpace assets.
Proof.
  intros Hget u. rewrite uploadGroup_eq, Hget. split; reflexivity.
Qed.

Lemma upload_without_runtime_entry_witness :
  get [(lit "android-update-id-u1.bundle", lit "1.2.0")]
      (lit "dist/.tmp/android-update-id-u1.bundle") = None
  /\ uploadGroup scenarioWorld None
       [(lit "android-update-id-u1.bundle", lit "1.2.0")] tt
       (lit "dist/.tmp/android-update-id-u1.bundle",
        [lit "dist/.tmp/android-update-id-u1.bundle.map"])
       (mkState [] [])
     = (mkState []
          [Upload (mkUpload None false
                     [lit "dist/.tmp/android-update-id-u1.bundle.map"]) None],
        inr tt).
Proof.
  split; [reflexivity|].
  exact (proj1 (upload_without_runtime_entry scenarioWorld None
                  [(lit "android-update-id-u1.bundle", lit "1.2.0")]
                  (lit "dist/.tmp/android-update-id-u1.bundle")
                  [lit "dist/.tmp/android-update-id-u1.bundle.map"]
                  (mkState [] []) eq_refl)).
Defined.

(** ** Configuration checks *)

Lemma readsOnly_ret {A} (a : A) : readsOnly (ret a).
Proof. intros st. simpl. repeat split; intros; discriminate. Qed.

Lemma readsOnly_exit {A} : readsOnly (@stop A (Exit 1)).
Proof. intros st. simpl. repeat split; intros; congruence. Qed.

Lemma readsOnly_emit (e : event) : mutation e = false -> readsOnly (emit e).
Proof.
  intros He st. simpl. rewrite existsb_app. simpl. rewrite He, !orb_false_r.
  repeat split; intros; discriminate.
Qed.

Lemma readsOnly_bind {A B} (m : M A) (k : A -> M B) :
  readsOnly m -> (forall a, readsOnly (k a)) -> readsOnly (bind m k).
Proof.
  intros Hm Hk st. unfold bind. destruct (Hm st) as [H1 [H2 H3]].
  destruct (m st) as [st' [h|a]]; simpl in *.
  - split; [exact H1 | split; [exact H2 |]].
    intros h0 E. apply H3. congruence.
  - destruct (Hk a st') as [K1 [K2 K3]]. rewrite K1, K2.
    split; [exact H1 | split; [exact H2 | exact K3]].
Qed.

Ltac readsOnly_step :=
  first
    [ apply readsOnly_ret | apply readsOnly_exit
    | apply readsOnly_emit; reflexivity
    | apply readsOnly_bind; [|intros ?]
    | match goal with
      | |- readsOnly (match ?x with _ => _ end) => destruct x
      | |- readsOnly (if ?x then _ else _) => destruct x
      end ].

(** Resolving the project, checking the token and reading the argument
    change no file and can only end the run with exit code 1. *)
Lemma resolveProject_readsOnly (w : world) : readsOnly (resolveProject w).
Proof.
  unfold resolveProject, getSentryPluginPropertiesFromExpoConfig.
  repeat readsOnly_step.
Qed.

Lemma resolveProject_pure (w : world) (st : state) :
  fs (fst (resolveProject w st)) = fs st
  /\ existsb mutation (trace (fst (resolveProject w st)))
     = existsb mutation (trace st)
  /\ (forall h, snd (resolveProject w st) = inl h -> h = Exit 1).
Proof. apply resolveProject_readsOnly. Qed.

(** The part of C8 that holds: without an auth token, or without a root
    directory argument, the script exits with code 1 and has changed no
    file. *)
Lemma missing_token_or_root_exits (w : world) :
  envToken w = None \/ envToken w = Some [] \/
  argv2 w = None \/ argv2 w = Some [] ->
  exists st,
    main w (start w) = (st, inl (Exit 1))
    /\ fs st = entries w
    /\ existsb mutation (trace st) = false.
Proof.
  intros H. unfold main, bind.
  destruct (resolveProject_pure w (start w)) as [Hfs [Htr Hh]].
  destruct (resolveProject w (start w)) as [st [h|project]] eqn:E;
    simpl in *.
  - exists st. rewrite (Hh h eq_refl).
    split; [reflexivity | split; [exact Hfs | exact Htr]].
  - unfold checkAuthToken, readOutputDir, bind, emit, stop, ret.
    destruct (envToken w) as [[|c tok]|]; simpl.
    1, 3: eexists; split; [reflexivity|]; simpl; split; [exact Hfs|];
      rewrite existsb_app, Htr; reflexivity.
    destruct (argv2 w) as [[|c' d]|]; simpl.
    1, 3: eexists; split; [reflexivity|]; simpl; split; [exact Hfs|];
      rewrite !existsb_app, Htr; reflexivity.
    destruct H as [H|[H|[H|H]]]; discriminate.
Qed.

(** C8 (the code departs from the claim).  With no [SENTRY_PROJECT] in the
    environment and a Sentry plugin entry that carries no [project], no
    project identifier is resolved, yet the script does not exit: it removes
    the scratch directory, stages, and uploads with an undefined project. *)
Theorem unresolved_project_does_not_exit :
  snd (resolveProject noProjectWorld (start noProjectWorld)) = inr None
  /\ exists st,
       main noProjectWorld (start noProjectWorld) = (st, inr tt)
       /\ In (RmSync (lit "dist/.tmp")) (trace st)
       /\ existsb mutation (trace st) = true
       /\ fs st <> entries noProjectWorld
       /\ In (Upload (mkUpload None false
                        [lit "dist/.tmp/android-update-id-u1.bundle.map"]) None)
             (trace st).
Proof.
  split; [vm_compute; reflexivity|].
  eexists. split; [vm_compute; reflexivity|].
  split; [vm_compute; tauto|].
  split; [vm_compute; reflexivity|].
  split; [vm_compute; discriminate|].
  vm_compute. tauto.
Qed.
(** ** New group names *)

(** C6 (counterexample).  Two records with distinct update identifiers
    whose platforms both occur in the name of the one bundle are given the
    same new group name, hence the same staged file name; and two records
    of one platform whose identifiers differ by a doubled separator are given
    different new group names that [path.join] turns into the same path. *)
Lemma distinct_ids_same_new_name :
  let files := getAssetPathsSync (lit "dist") [File (lit "a-update-id-b.js")] in
  let u1 := mkUpdate (lit "b-update-id-c") (lit "a") (lit "1.0.0") in
  let u2 := mkUpdate (lit "c") (lit "a-update-id-b") (lit "1.0.0") in
  let u3 := mkUpdate (lit "u/1") (lit "a") (lit "1.0.0") in
  let u4 := mkUpdate (lit "u//1") (lit "a") (lit "1.0.0") in
  let k := lit "dist/a-update-id-b.js" in
  exists groupedAssets,
    groupAssets files = Some groupedAssets
    /\ id u1 <> id u2
    /\ findAssetGroup groupedAssets (platform u1) = Some k
    /\ findAssetGroup groupedAssets (platform u2) = Some k
    /\ newAssetGroupName u1 k = lit "a-update-id-b-update-id-c.js"
    /\ newAssetGroupName u2 k = lit "a-update-id-b-update-id-c.js"
    /\ id u3 <> id u4
    /\ findAssetGroup groupedAssets (platform u3) = Some k
    /\ findAssetGroup groupedAssets (platform u4) = Some k
    /\ newAssetGroupName u3 k <> newAssetGroupName u4 k
    /\ stagedPath (lit "dist") (newAssetGroupName u3 k) k
       = lit "dist/.tmp/a-update-id-u/1.js"
    /\ stagedPath (lit "dist") (newAssetGroupName u4 k) k
       = lit "dist/.tmp/a-update-id-u/1.js".
Proof.
  eexists. split; [vm_compute; reflexivity|].
  repeat split; try (vm_compute; reflexivity); vm_compute; discriminate.
Qed.

Lemma split_at_first (c : ascii) (a b a' b' : str) :
  ~ In c a -> ~ In c a' -> a ++ c :: b = a' ++ c :: b' -> a = a' /\ b = b'.
Proof.
  revert a'. induction a as [|x a IH]; intros [|y a'] Ha Ha' E; simpl in E.
  - injection E as ->. auto.
  - injection E as <- _. elim Ha'. now left.
  - injection E as -> _. elim Ha. now left.
  - injection E as -> E.
    destruct (IH a') as [-> ->]; auto; intros H; [apply Ha | apply Ha'];
      now right.
Qed.

Lemma dashFree_In (s : str) : dashFree s = true -> ~ In "-"%char s.
Proof.
  unfold dashFree. intros H Hin. apply negb_true_iff in H.
  assert (existsb (Ascii.eqb "-") s = true)
    by (apply existsb_exists; exists "-"%char; split;
        [exact Hin | apply Ascii.eqb_refl]).
  congruence.
Qed.

Lemma stagedName_cases (N p : str) :
  stagedName N p = if stagedAsMap p then N ++ lit ".map" else N.
Proof.
  unfold stagedName, stagedAsMap.
  destruct (str_eqb (path.extname p) (lit ".map")) eqn:E; [|reflexivity].
  apply str_eqb_eq in E. now rewrite E.
Qed.

(** The destination computed at line 110 is [stagedPath]. *)
Lemma stagedPath_line110 (outputDir newFileName filePath : str) :
  (if str_eqb (path.extname filePath) (lit ".map")
   then path.join (path.join outputDir TMP_DIR)
          (newFileName ++ path.extname filePath)
   else path.join (path.join outputDir TMP_DIR) newFileName)
  = stagedPath outputDir newFileName filePath.
Proof.
  unfold stagedPath, stagedName.
  now destruct (str_eqb (path.extname filePath) (lit ".map")).
Qed.

(** C6 (amended).  The new group name of a matched record is
    [<platform>-update-id-<id><ext>] with [<ext>] the extension of the matched
    key, empty when the key has no dot.  Take two matched records with
    distinct update identifiers, whose platforms and identifiers hold no
    separator, and whose platforms are the same or hold no [-].  Their new
    group names differ; the paths their sourcemaps are copied to differ, and
    so do the paths their other files are copied to; and when neither new
    name ends in [.map], no file of the one is copied to the path of a file
    of the other. *)
Theorem staged_paths_distinct_for_distinct_ids
  (groupedAssets : dict (list str)) (outputDir : str) (u1 u2 : update)
  (k1 k2 : str) :
  findAssetGroup groupedAssets (platform u1) = Some k1 ->
  findAssetGroup groupedAssets (platform u2) = Some k2 ->
  slashFree (platform u1) = true -> slashFree (id u1) = true ->
  slashFree (platform u2) = true -> slashFree (id u2) = true ->
  platform u1 = platform u2
  \/ (dashFree (platform u1) = true /\ dashFree (platform u2) = true) ->
  id u1 <> id u2 ->
  let N1 := newAssetGroupName u1 k1 in
  let N2 := newAssetGroupName u2 k2 in
  N1 = platform u1 ++ lit "-update-id-" ++ id u1 ++ path.ext (path.parse k1)
  /\ ((forall x, In x k1 -> x <> dot) ->
      N1 = platform u1 ++ lit "-update-id-" ++ id u1)
  /\ N1 <> N2
  /\ (forall p1 p2, stagedAsMap p1 = stagedAsMap p2 ->
        stagedPath outputDir N1 p1 <> stagedPath outputDir N2 p2)
  /\ (endsWith N1 (lit ".map") = false -> endsWith N2 (lit ".map") = false ->
      forall p1 p2,
        stagedPath outputDir N1 p1 <> stagedPath outputDir N2 p2).
Proof.
  intros H1 H2 Hp1 Hi1 Hp2 Hi2 Hsep Hid N1 N2.
  assert (Hsame : platform u1 = platform u2 -> N1 <> N2).
  { intros Hp. assert (Hk : k1 = k2) by (rewrite Hp in H1; congruence).
    subst k2. unfold N1, N2, newAssetGroupName. rewrite Hp. intros E.
    apply app_inv_head in E. apply app_inv_head in E.
    apply app_inv_tail in E. contradiction. }
  assert (Hne : N1 <> N2).
  { destruct Hsep as [Hp|[Hd1 Hd2]]; [auto|].
    intros E. apply Hsame; [|exact E].
    unfold N1, N2, newAssetGroupName in E. cbv zeta in E.
    change (lit "-update-id-") with ("-"%char :: lit "update-id-") in E.
    cbn [app] in E.
    now apply split_at_first in E as [E _]; try apply dashFree_In. }
  assert (Hplain : forall p1 p2,
            stagedPath outputDir N1 p1 = stagedPath outputDir N2 p2 ->
            stagedName N1 p1 = stagedName N2 p2).
  { intros p1 p2. apply join_tmp_inj;
      apply stagedShape_plain; now apply stagedName_shape. }
  split; [reflexivity|].
  split.
  { intros Hdot. unfold N1, newAssetGroupName.
    rewrite (ext_no_dot k1 Hdot), app_nil_r. reflexivity. }
  split; [exact Hne|].
  split.
  - intros p1 p2 Hkind E. apply Hplain in E.
    rewrite !stagedName_cases, Hkind in E.
    destruct (stagedAsMap p2); [apply app_inv_tail in E|]; contradiction.
  - intros He1 He2 p1 p2 E. apply Hplain in E.
    rewrite !stagedName_cases in E.
    destruct (stagedAsMap p1), (stagedAsMap p2).
    + apply app_inv_tail in E. contradiction.
    + rewrite <- E, endsWith_app in He2. discriminate.
    + rewrite E, endsWith_app in He1. discriminate.
    + contradiction.
Qed.

Lemma staged_paths_distinct_for_distinct_ids_witness :
  newAssetGroupName (mkUpdate (lit "u1") (lit "android") (lit "1.2.0"))
    (lit "dist/index.android.bundle")
  <> newAssetGroupName (mkUpdate (lit "u2") (lit "ios") (lit "1.2.0"))
       (lit "dist/index.ios.js")
  /\ stagedPath (lit "dist")
       (newAssetGroupName (mkUpdate (lit "u1") (lit "android") (lit "1.2.0"))
          (lit "dist/index.android.bundle"))
       (lit "dist/index.android.bundle.map")
     <> stagedPath (lit "dist")
          (newAssetGroupName (mkUpdate (lit "u2") (lit "ios") (lit "1.2.0"))
             (lit "dist/index.ios.js"))
          (lit "dist/index.ios.js.map").
Proof.
  pose proof (staged_paths_distinct_for_distinct_ids
    [(lit "dist/index.android.bundle", [lit "dist/index.android.bundle.map"]);
     (lit "dist/index.ios.js",
      [lit "dist/index.ios.js"; lit "dist/index.ios.js.map"])]
    (lit "dist")
    (mkUpdate (lit "u1") (lit "android") (lit "1.2.0"))
    (mkUpdate (lit "u2") (lit "ios") (lit "1.2.0"))
    (lit "dist/index.android.bundle") (lit "dist/index.ios.js")
    eq_refl eq_refl eq_refl eq_refl eq_refl eq_refl
    (or_intror (conj eq_refl eq_refl))) as H.
  destruct H as (_ & _ & Hn & Hm & _).
  - vm_compute. discriminate.
  - split; [exact Hn|]. apply Hm. reflexivity.
Defined.

(** Why the last part asks that no new name ends in [.map]: with the files
    [.js] and [.js.map] in one group, the identifiers [a.map] and [a] of one
    platform send the bundle of the first record and the sourcemap of the
    second to the same path. *)
Lemma bundle_and_sourcemap_share_a_path :
  let files :=
    getAssetPathsSync (lit "dist") [File (lit ".js"); File (lit ".js.map")] in
  let u1 := mkUpdate (lit "a.map") (lit "js") (lit "1.0.0") in
  let u2 := mkUpdate (lit "a") (lit "js") (lit "1.0.0") in
  let k := lit "dist/.js" in
  groupAssets files = Some [(k, [lit "dist/.js"; lit "dist/.js.map"])]
  /\ stagedPath (lit "dist") (newAssetGroupName u1 k) (lit "dist/.js")
     = lit "dist/.tmp/js-update-id-a.map"
  /\ stagedPath (lit "dist") (newAssetGroupName u2 k) (lit "dist/.js.map")
     = lit "dist/.tmp/js-update-id-a.map".
Proof. vm_compute. auto. Qed.

(** ** The scratch directory *)

Lemma removeTmp_idem (items : list dirent) :
  removeTmp (removeTmp items) = removeTmp items.
Proof.
  unfold removeTmp. induction items as [|item items IH]; simpl; [reflexivity|].
  destruct (negb (isNamed TMP_DIR item)) eqn:E; simpl.
  - rewrite E, IH. reflexivity.
  - exact IH.
Qed.

Lemma tmpExists_removeTmp (items : list dirent) :
  tmpExists (removeTmp items) = false.
Proof.
  unfold tmpExists, removeTmp.
  induction items as [|item items IH]; simpl; [reflexivity|].
  destruct (isNamed TMP_DIR item) eqn:E; simpl.
  - exact IH.
  - rewrite E. exact IH.
Qed.

Lemma tmpListing_removeTmp (items : list dirent) :
  tmpListing (removeTmp items) = None.
Proof.
  unfold removeTmp.
  induction items as [|item items IH]; simpl; [reflexivity|].
  destruct (isNamed TMP_DIR item) eqn:E; simpl.
  - exact IH.
  - rewrite E. exact IH.
Qed.

Lemma deleteTmpDirectory_allowed (w : world) (outputDir : str)
  (items : list dirent) (tr : list event) :
  rmDenied w = false ->
  deleteTmpDirectory w outputDir (mkState items tr)
  = (mkState (removeTmp items) (tr ++ [RmSync (path.join outputDir TMP_DIR)]),
     inr tt).
Proof. intros Hrm. unfold deleteTmpDirectory. rewrite Hrm. reflexivity. Qed.

(** C7 (counterexample).  When the removal of the scratch directory is
    refused the failure is logged and the run goes on: the stale file is
    among the files of the first walk, and it is uploaded as a group of the
    second. *)
Lemma stale_file_survives_refused_removal :
  let st0 := start staleWorld in
  let st1 := fst (deleteTmpDirectory staleWorld (lit "dist") st0) in
  st1 = mkState (entries staleWorld)
          [ConsoleError (lit "Failed to delete .tmp directory:")]
  /\ (exists groups,
        groupAssets (getAssetPathsSync (lit "dist") (fs st1)) = Some groups
        /\ In (lit "dist/.tmp/stale.js", [lit "dist/.tmp/stale.js"]) groups)
  /\ exists st,
       main staleWorld st0 = (st, inr tt)
       /\ uploads (trace st) = [mkUpload None false [lit "dist/.tmp/stale.js"]].
Proof.
  split; [vm_compute; reflexivity|].
  split; [eexists; split; [vm_compute; reflexivity | vm_compute; tauto]|].
  eexists. split; vm_compute; reflexivity.
Qed.

(** C7 (amended).  The removal is attempted first, whatever the state.
    When it is not refused, the scratch directory is gone before the output
    directory is walked, and the run is the one a directory without scratch
    area would give: nothing left there by an earlier run reaches a group. *)
Theorem stale_scratch_is_ignored
  (w : world) (project : option json) (outputDir : str)
  (items : list dirent) (tr : list event) :
  rmDenied w = false ->
  deleteTmpDirectory w outputDir (mkState items tr)
    = (mkState (removeTmp items) (tr ++ [RmSync (path.join outputDir TMP_DIR)]),
       inr tt)
  /\ tmpExists (removeTmp items) = false
  /\ tmpListing (removeTmp items) = None
  /\ pipeline w project outputDir (mkState items tr)
     = pipeline w project outputDir (mkState (removeTmp items) tr).
Proof.
  intros Hrm.
  pose proof (fun l => deleteTmpDirectory_allowed w outputDir l tr Hrm) as Hd.
  split; [apply Hd|].
  split; [apply tmpExists_removeTmp|].
  split; [apply tmpListing_removeTmp|].
  unfold pipeline.
  rewrite (bind_value _ _ _ _ _ (Hd items)).
  rewrite (bind_value _ _ _ _ _ (Hd (removeTmp items))).
  rewrite removeTmp_idem. reflexivity.
Qed.

Lemma stale_scratch_is_ignored_witness :
  let items := [Directory (lit ".tmp") [File (lit "stale.js")];
                File (lit "app.js")] in
  pipeline scenarioWorld None (lit "dist") (mkState items [])
  = pipeline scenarioWorld None (lit "dist") (mkState [File (lit "app.js")] []).
Proof.
  exact (proj2 (proj2 (proj2
    (stale_scratch_is_ignored scenarioWorld None (lit "dist")
       [Directory (lit ".tmp") [File (lit "stale.js")]; File (lit "app.js")]
       [] eq_refl)))).
Defined.

(** ** Staging a group *)






(** *** The scratch directory of a listing *)


Lemma tmpExists_addEntry (sub items : list dirent) :
  tmpExists (addEntry (Directory TMP_DIR sub) items) = true.
Proof.
  unfold tmpExists. apply existsb_exists. exists (Directory TMP_DIR sub).
  split; [apply In_addEntry; now left | reflexivity].
Qed.






Lemma stageable_stagedName (N p : str) :
  stageable N = true -> plain (stagedName N p) = true.
Proof.
  unfold stageable. intros H. apply andb_true_iff in H as [H1 H2].
  rewrite stagedName_cases. now destruct (stagedAsMap p).
Qed.

Lemma stagedShape_stageable (u : update) (k : str) :
  slashFree (platform u) = true -> slashFree (id u) = true ->
  stageable (newAssetGroupName u k) = true.
Proof.
  intros Hp Hi. destruct (newAssetGroupName_shape u k Hp Hi) as [Hs Hl].
  unfold stageable. apply andb_true_iff. split.
  - apply stagedShape_plain. exists (newAssetGroupName u k). auto.
  - apply stagedShape_plain. exists (newAssetGroupName u k). auto.
Qed.


Section CopyLoop.

Variable w : world.
Variables root N : str.
Hypothesis HN : stageable N = true.

(** The body of the loop of [copyFilesToTmpDirectory]. *)
Let body : unit -> str -> M unit :=
  fun _ filePath =>
    let extname := path.extname filePath in
    let newFilePath :=
      if str_eqb extname (lit ".map")
      then path.join (path.join root TMP_DIR) (N ++ extname)
      else path.join (path.join root TMP_DIR) N in
    cpSync w root filePath newFilePath.


End CopyLoop.

(** ** The loop over the updates *)



Lemma copies_app (a b : list event) :
  copies (a ++ b) = copies a ++ copies b.
Proof. unfold copies. apply flat_map_app. Qed.





(** The key a record finds is an own key of the grouping. *)
Lemma findAssetGroup_own (g : dict (list str)) (platform k : str) :
  findAssetGroup g platform = Some k ->
  exists files, get g k = Some files.
Proof.
  unfold findAssetGroup.
  destruct (find _ (objectKeys g)) as [k'|] eqn:E; [|discriminate].
  destruct (truthy k'); [|discriminate]. intros H. injection H as ->.
  apply find_some in E as [Hin _].
  apply (proj1 (objectKeys_In g k)) in Hin. now apply get_in_keys.
Qed.



Section Correlate.

Variable w : world.
Variable outputDir : str.
Variable g : dict (list str).
Hypothesis Hkeys : forall k, In k (keys g) -> truthy k = true.



End Correlate.









(** ** Grouping walked files *)





(** C9 (counterexample).  The sourcemaps [dist/a.map] and [dist/a/..map]
    are two different files of one walk, and both are put in the group
    [dist/a]. *)
Lemma two_sourcemaps_in_one_group :
  let files := getAssetPathsSync (lit "dist") dotStemEntries in
  files = [lit "dist/a.map"; lit "dist/a/..map"]
  /\ isSourcemap (lit "dist/a.map") = true
  /\ isSourcemap (lit "dist/a/..map") = true
  /\ lit "dist/a.map" <> lit "dist/a/..map"
  /\ groupAssets files
     = Some [(lit "dist/a", [lit "dist/a.map"; lit "dist/a/..map"])].
Proof.
  repeat split; try (vm_compute; reflexivity).
  vm_compute. discriminate.
Qed.

(** C9 (amended).  In a group of the files of a walk over entries whose
    names hold no separator, a file that is no sourcemap is the group name
    itself, so any two of them are the same path; and any two sourcemaps other
    than [..map] and [...map] are the same path, the group name followed by
    [.map]. *)
Theorem group_holds_one_file_and_one_sourcemap
  (directory : str) (items : list dirent) (k : str) (m : list str)
  (groups : dict (list str)) :
  forallb wellNamed items = true ->
  groupAssets (getAssetPathsSync directory items) = Some groups ->
  In (k, m) groups ->
  (forall p, In p m -> isSourcemap p = false -> p = k)
  /\ (forall p, In p m -> isSourcemap p = true -> dotStem p = false ->
        p = k ++ lit ".map")
  /\ (forall p q, In p m -> In q m ->
        isSourcemap p = false -> isSourcemap q = false -> p = q)
  /\ (forall p q, In p m -> In q m ->
        isSourcemap p = true -> isSourcemap q = true ->
        dotStem p = false -> dotStem q = false -> p = q).
Proof.
  intros Hwf Hg Hkm. apply groupAssets_some in Hg as [_ ->].
  apply ownGroups_In in Hkm as [-> _].
  assert (Hin : forall p,
    In p (filesOfGroup (getAssetPathsSync directory items) k) ->
    walked p /\ assetGroupName p = k).
  { intros p Hp. apply filesOfGroup_In in Hp as [Hp Hk].
    split; [exact (getAssetPathsSync_walked directory items p Hwf Hp) | exact Hk]. }
  assert (H1 : forall p,
    In p (filesOfGroup (getAssetPathsSync directory items) k) ->
    isSourcemap p = false -> p = k).
  { intros p Hp Hsm. destruct (Hin p Hp) as [Hw Hk].
    rewrite <- Hk. symmetry. exact (walked_key_self p Hw Hsm). }
  assert (H2 : forall p,
    In p (filesOfGroup (getAssetPathsSync directory items) k) ->
    isSourcemap p = true -> dotStem p = false -> p = k ++ lit ".map").
  { intros p Hp Hsm Hdot. destruct (Hin p Hp) as [Hw Hk].
    destruct (walked_key_map p Hw Hsm Hdot) as [Hp' Hkey].
    rewrite <- Hk, Hkey. exact Hp'. }
  split; [exact H1|]. split; [exact H2|]. split.
  - intros p q Hp Hq Hsp Hsq. rewrite (H1 p Hp Hsp), (H1 q Hq Hsq). reflexivity.
  - intros p q Hp Hq Hsp Hsq Hdp Hdq.
    rewrite (H2 p Hp Hsp Hdp), (H2 q Hq Hsq Hdq). reflexivity.
Qed.

Lemma group_holds_one_file_and_one_sourcemap_witness :
  exists groups,
    groupAssets (getAssetPathsSync (lit "dist") pairEntries) = Some groups
    /\ In (lit "dist/app.js", [lit "dist/app.js"; lit "dist/app.js.map"])
         groups
    /\ (forall p, In p [lit "dist/app.js"; lit "dist/app.js.map"] ->
          isSourcemap p = false -> p = lit "dist/app.js").
Proof.
  eexists.
  assert (Hg : groupAssets (getAssetPathsSync (lit "dist") pairEntries)
               = Some _) by (vm_compute; reflexivity).
  split; [exact Hg|].
  assert (Hin : In (lit "dist/app.js",
                    [lit "dist/app.js"; lit "dist/app.js.map"])
                  [(lit "dist/app.js", [lit "dist/app.js"; lit "dist/app.js.map"]);
                   (lit "dist/app.hbc", [lit "dist/app.hbc"; lit "dist/app.hbc.map"])])
    by (now left).
  split; [exact Hin|].
  exact (proj1 (group_holds_one_file_and_one_sourcemap (lit "dist") pairEntries
                  (lit "dist/app.js") [lit "dist/app.js"; lit "dist/app.js.map"]
                  _ eq_refl Hg Hin)).
Defined.

(** * Further properties of the script *)

(** ** Grouping: lookups, contents, order *)

Lemma ownGroups_lookup (assetPaths : list str) (k : str) :
  get (ownGroups assetPaths) k
  = match filesOfGroup assetPaths k with
    | [] => None
    | m => Some m
    end.
Proof.
  destruct (get (ownGroups assetPaths) k) as [m|] eqn:E.
  - pose proof (ownGroups_get _ _ _ E) as Hm.
    assert (Hk : In k (keys (ownGroups assetPaths)))
      by (apply get_in_keys; eauto).
    apply ownGroups_keys in Hk as [p [Hp Hkey]].
    assert (Hin : In p (filesOfGroup assetPaths k))
      by (apply filesOfGroup_In; auto).
    rewrite <- Hm in *. destruct m; [contradiction | reflexivity].
  - destruct (filesOfGroup assetPaths k) as [|p m] eqn:F; [reflexivity|].
    assert (Hin : In p (filesOfGroup assetPaths k)) by (rewrite F; now left).
    apply filesOfGroup_In in Hin as [Hp Hkey].
    assert (Hk : In k (keys (ownGroups assetPaths)))
      by (apply ownGroups_keys; eauto).
    apply get_in_keys in Hk as [m' Hm']. congruence.
Qed.

Lemma groupable_false (l : list str) :
  groupable l = false ->
  exists p, In p l /\ inherited (assetGroupName p) = true.
Proof.
  unfold groupable. induction l as [|p l IH]; simpl; [discriminate|].
  destruct (inherited (assetGroupName p)) eqn:E; simpl.
  - intros _. exists p. auto.
  - intros H. destruct (IH H) as (q & Hq & Hi). exists q. auto.
Qed.

(** X1.  [groupAssets] throws only when the group name of some input path is
    the name of a property every object inherits.  When it returns, the own
    property it holds under a name is the list of exactly the input paths
    with that group name, in input order; there is no such property
    precisely when no input path has that name, and no group is empty. *)
Theorem groupAssets_lookup (assetPaths : list str) (k : str) :
  match groupAssets assetPaths with
  | Some groups =>
      (forall p, In p assetPaths -> inherited (assetGroupName p) = false)
      /\ get groups k
         = match filesOfGroup assetPaths k with
           | [] => None
           | m => Some m
           end
  | None =>
      exists p, In p assetPaths /\ inherited (assetGroupName p) = true
  end.
Proof.
  rewrite groupAssets_own. destruct (groupable assetPaths) eqn:E.
  - split; [now apply groupable_spec | apply ownGroups_lookup].
  - now apply groupable_false.
Qed.

Lemma allMembers_set_new (d : dict (list str)) (k : str) (v : list str) :
  get d k = None -> allMembers (set d k v) = allMembers d ++ v.
Proof.
  unfold allMembers. induction d as [|[k0 v0] d IH]; simpl; intros H.
  - now rewrite app_nil_r.
  - destruct (str_eqb k0 k); [discriminate|].
    simpl. rewrite (IH H), app_assoc. reflexivity.
Qed.

Lemma allMembers_set_push (d : dict (list str)) (k : str) (m : list str)
  (p : str) :
  get d k = Some m ->
  Permutation (allMembers (set d k (m ++ [p]))) (allMembers d ++ [p]).
Proof.
  unfold allMembers. induction d as [|[k0 v0] d IH]; simpl; intros H.
  - discriminate.
  - destruct (str_eqb k0 k); simpl.
    + injection H as ->. rewrite <- !app_assoc.
      apply Permutation_app_head. apply Permutation_app_comm.
    + rewrite <- app_assoc. apply Permutation_app_head. exact (IH H).
Qed.

Lemma allMembers_pushAsset (d : dict (list str)) (p : str) :
  Permutation (allMembers (pushAsset d p)) (allMembers d ++ [p]).
Proof.
  unfold pushAsset. destruct (get d (assetGroupName p)) as [m|] eqn:E.
  - exact (allMembers_set_push d _ m p E).
  - rewrite (allMembers_set_new d _ [p] E). apply Permutation_refl.
Qed.

Lemma allMembers_fold (l : list str) (d : dict (list str)) :
  Permutation (allMembers (fold_left pushAsset l d)) (allMembers d ++ l).
Proof.
  revert d. induction l as [|p l IH]; intros d; simpl.
  - rewrite app_nil_r. apply Permutation_refl.
  - eapply Permutation_trans; [apply IH|].
    eapply Permutation_trans;
      [apply Permutation_app_tail; apply allMembers_pushAsset|].
    rewrite <- app_assoc. apply Permutation_refl.
Qed.

(** X2.  When [groupAssets] returns, it has neither lost nor duplicated a
    path: the files of all the groups together are the input paths, each as
    often as it was given, the group names are pairwise different, and none
    of them is the name of an inherited property.  It throws only when the
    group name of some input path is such a name. *)
Theorem groupAssets_partition (assetPaths : list str) :
  match groupAssets assetPaths with
  | Some groups =>
      Permutation (allMembers groups) assetPaths
      /\ NoDup (keys groups)
      /\ (forall k, In k (keys groups) -> inherited k = false)
  | None =>
      exists p, In p assetPaths /\ inherited (assetGroupName p) = true
  end.
Proof.
  destruct (groupAssets assetPaths) as [groups|] eqn:E.
  - pose proof (groupAssets_some _ _ E) as [_ ->].
    split; [exact (allMembers_fold assetPaths [])|].
    split; [apply ownGroups_NoDup|].
    intros k Hk. exact (groupAssets_keys_own _ _ k E Hk).
  - rewrite groupAssets_own in E.
    destruct (groupable assetPaths) eqn:G; [discriminate|].
    now apply groupable_false.
Qed.

Lemma find_app {A} (f : A -> bool) (a b : list A) :
  find f (a ++ b) = match find f a with Some x => Some x | None => find f b end.
Proof.
  induction a as [|x a IH]; simpl; [reflexivity|].
  destruct (f x); [reflexivity | exact IH].
Qed.

Lemma find_keys_fold (f : str -> bool) (l : list str) (d : dict (list str)) :
  find f (keys (fold_left pushAsset l d))
  = match find f (keys d) with
    | Some k => Some k
    | None => find f (map assetGroupName l)
    end.
Proof.
  revert d. induction l as [|p l IH]; intros d; simpl.
  - now destruct (find f (keys d)).
  - rewrite IH, keys_pushAsset.
    destruct (get d (assetGroupName p)) eqn:E.
    + destruct (find f (keys d)) eqn:F; [reflexivity|].
      destruct (f (assetGroupName p)) eqn:Fp; [|reflexivity].
      assert (Hin : In (assetGroupName p) (keys d))
        by (apply get_in_keys; eauto).
      pose proof (find_none _ _ F _ Hin). congruence.
    + rewrite find_app. destruct (find f (keys d)); [reflexivity|].
      simpl. now destruct (f (assetGroupName p)).
Qed.

Lemma ownGroups_first_path (assetPaths : list str) (f : str -> bool) :
  find f (keys (ownGroups assetPaths))
  = find f (map assetGroupName assetPaths).
Proof. unfold ownGroups. now rewrite find_keys_fold. Qed.

Lemma find_map_key (f : str -> bool) (l : list str) :
  match find f (map assetGroupName l) with
  | Some k => if truthy k then Some k else None
  | None => None
  end
  = match find (fun p => f (assetGroupName p)) l with
    | Some p =>
        if truthy (assetGroupName p) then Some (assetGroupName p) else None
    | None => None
    end.
Proof.
  induction l as [|p l IH]; simpl; [reflexivity|].
  destruct (f (assetGroupName p)); [reflexivity | exact IH].
Qed.

(** X3.  Which group an update gets when several group names contain its
    platform.  [Object.keys] lists the names that are array indices first,
    in ascending order, and the others in the order of their creation; so
    when no group name is an array index, the update gets the group of the
    first input path, in walk order, whose group name contains the platform
    (a match on the empty name counts as none). *)
Theorem findAssetGroup_first_path
  (assetPaths : list str) (groups : dict (list str)) (platform : str) :
  groupAssets assetPaths = Some groups ->
  (forall p, In p assetPaths -> isArrayIndex (assetGroupName p) = false) ->
  findAssetGroup groups platform
  = match find (fun p => includes (assetGroupName p) platform) assetPaths with
    | Some p =>
        if truthy (assetGroupName p) then Some (assetGroupName p) else None
    | None => None
    end.
Proof.
  intros Hg Hidx. apply groupAssets_some in Hg as [_ ->].
  unfold findAssetGroup. rewrite objectKeys_plain.
  - rewrite ownGroups_first_path.
    exact (find_map_key (fun key => includes key platform) assetPaths).
  - intros k Hk. apply ownGroups_keys in Hk as (p & Hp & <-). auto.
Qed.

Lemma findAssetGroup_first_path_witness :
  findAssetGroup
    [(lit "dist/app.js", [lit "dist/app.js"; lit "dist/app.js.map"]);
     (lit "dist/app.hbc", [lit "dist/app.hbc"; lit "dist/app.hbc.map"])]
    (lit "app")
  = Some (lit "dist/app.js").
Proof.
  refine (findAssetGroup_first_path
            (getAssetPathsSync (lit "dist") pairEntries) _ (lit "app") _ _).
  - vm_compute. reflexivity.
  - intros p Hp. vm_compute in Hp.
    destruct Hp as [<-|[<-|[<-|[<-|[]]]]]; reflexivity.
Defined.

(** With an array index among the group names the order of creation is not
    the order of the search: the walk gives [-1.js] before [1.map], and the
    platform [1] gets the group [1]. *)
Lemma findAssetGroup_index_first :
  let files := getAssetPathsSync [] [File (lit "-1.js"); File (lit "1.map")] in
  files = [lit "-1.js"; lit "1.map"]
  /\ option_map keys (groupAssets files) = Some [lit "-1.js"; lit "1"]
  /\ option_map (fun g => findAssetGroup g (lit "1")) (groupAssets files)
     = Some (Some (lit "1")).
Proof. vm_compute. auto. Qed.

(** ** The walk *)

Lemma isAsset_app (pre n : str) : isAsset n = true -> isAsset (pre ++ n) = true.
Proof.
  unfold isAsset. rewrite !orb_true_iff, !endsWith_spec.
  intros [[[x ->]|[x ->]]|[x ->]]; rewrite app_assoc; eauto.
Qed.

Lemma walkItem_asset (item : dirent) :
  wellNamed item = true ->
  forall directory p, In p (walkItem directory item) -> isAsset p = true.
Proof.
  induction item as [n|n|n sub IH] using dirent_nested_ind;
    intros Hwf directory p Hin; simpl in Hin.
  - destruct (isAsset n) eqn:E; [|contradiction].
    destruct Hin as [<-|[]]. simpl in Hwf.
    destruct (join_plain directory n (isAsset_plain n Hwf E))
      as [abs [k [names [_ [_ ->]]]]].
    now apply isAsset_app.
  - contradiction.
  - apply in_flat_map in Hin as [item [Hitem Hp]].
    rewrite Forall_forall in IH. simpl in Hwf.
    rewrite forallb_forall in Hwf.
    exact (IH item Hitem (Hwf item Hitem) _ _ Hp).
Qed.

(** X4.  Every path the walk returns, at whatever depth it was found and
    whatever the directory path the walk started from, ends in [.map], [.js]
    or [.hbc]: joining the directory path and the name keeps what the
    classifier looked at. *)
Theorem walked_paths_pass_classifier
  (directory : str) (items : list dirent) (p : str) :
  forallb wellNamed items = true ->
  In p (getAssetPathsSync directory items) ->
  isAsset p = true
  /\ exists pre, p = pre ++ lit ".map" \/ p = pre ++ lit ".js"
                 \/ p = pre ++ lit ".hbc".
Proof.
  unfold getAssetPathsSync. intros Hwf Hin.
  apply in_flat_map in Hin as [item [Hitem Hp]].
  rewrite forallb_forall in Hwf.
  pose proof (walkItem_asset item (Hwf item Hitem) _ _ Hp) as Ha.
  split; [exact Ha|].
  unfold isAsset in Ha. rewrite !orb_true_iff, !endsWith_spec in Ha.
  destruct Ha as [[[x ->]|[x ->]]|[x ->]]; exists x; auto.
Qed.

Lemma walked_paths_pass_classifier_witness :
  isAsset (lit "dist/_expo/ios.hbc.map") = true.
Proof.
  refine (proj1 (walked_paths_pass_classifier (lit "./dist/") nestedEntries
                   (lit "dist/_expo/ios.hbc.map") eq_refl _)).
  vm_compute. tauto.
Defined.

Lemma length_flat_map {A B} (f : A -> list B) (l : list A) :
  length (flat_map f l) = list_sum (map (fun x => length (f x)) l).
Proof.
  induction l as [|x l IH]; simpl; [reflexivity|].
  now rewrite length_app, IH.
Qed.

Lemma walkItem_count (item : dirent) :
  forall directory, length (walkItem directory item) = countAssets item.
Proof.
  induction item as [n|n|n sub IH] using dirent_nested_ind;
    intros directory; simpl.
  - now destruct (isAsset n).
  - reflexivity.
  - rewrite length_flat_map. f_equal.
    induction IH as [|item sub Hitem _ IHsub]; simpl; [reflexivity|].
    now rewrite Hitem, IHsub.
Qed.

(** X5.  The walk returns one path for each regular file, at any depth,
    whose name ends in [.map], [.js] or [.hbc], and none for any other
    entry; how many it returns does not depend on the directory path. *)
Theorem getAssetPathsSync_count (directory : str) (items : list dirent) :
  length (getAssetPathsSync directory items)
  = list_sum (map countAssets items).
Proof.
  unfold getAssetPathsSync. rewrite length_flat_map. f_equal.
  apply map_ext. intros item. apply walkItem_count.
Qed.

(** *** The walk as prefix and relative paths *)

Lemma walkItem_rel (item : dirent) :
  wellFormed item = true ->
  forall directory abs k names,
    (abs = true -> k = 0) ->
    Forall (fun s => plain s = true) names ->
    (forall n, plain n = true ->
               path.join directory n = prefix abs k names ++ n) ->
    walkItem directory item
    = map (app (prefix abs k names)) (relPaths item).
Proof.
  induction item as [n|n|n sub IH] using dirent_nested_ind;
    intros Hwf directory abs k names Hk Hnames Hd; simpl in *.
  - destruct (isAsset n); [|reflexivity]. simpl. now rewrite (Hd n Hwf).
  - reflexivity.
  - apply andb_true_iff in Hwf as [Hwf _].
    apply andb_true_iff in Hwf as [Hn Hsub].
    rewrite forallb_forall in Hsub. rewrite Forall_forall in IH.
    rewrite (Hd n Hn), map_map.
    assert (Hnames' : Forall (fun s => plain s = true) (names ++ [n]))
      by (apply Forall_app; split;
          [exact Hnames | constructor; [exact Hn | constructor]]).
    assert (Hd' : forall m, plain m = true ->
              path.join (prefix abs k names ++ n) m
              = prefix abs k (names ++ [n]) ++ m)
      by (intros m Hm; now apply join_walked_dir).
    induction sub as [|item sub IHsub]; simpl; [reflexivity|].
    rewrite map_app. f_equal.
    + rewrite (IH item (or_introl eq_refl) (Hsub item (or_introl eq_refl))
                 _ abs k (names ++ [n]) Hk Hnames' Hd').
      apply map_ext. intros r. rewrite prefix_snoc, <- !app_assoc.
      reflexivity.
    + apply IHsub.
      * intros x Hx. apply IH. now right.
      * intros x Hx. apply Hsub. now right.
Qed.

(** X6.  Under one directory path all walked paths start with one and the
    same normalized prefix, and continue with the names from the listing down
    to the file, separated by [/]. *)
Theorem getAssetPathsSync_relative (directory : str) (items : list dirent) :
  forallb wellFormed items = true ->
  exists pre,
    getAssetPathsSync directory items
    = map (app pre) (flat_map relPaths items)
    /\ (forall n, plain n = true -> path.join directory n = pre ++ n).
Proof.
  intros Hwf. destruct (join_uniform directory)
    as [abs [k [names [Hk [Hnames Hd]]]]].
  exists (prefix abs k names). split; [|exact Hd].
  unfold getAssetPathsSync. rewrite forallb_forall in Hwf.
  induction items as [|item items IH]; simpl; [reflexivity|].
  rewrite map_app. f_equal.
  - exact (walkItem_rel item (Hwf item (or_introl eq_refl))
             directory abs k names Hk Hnames Hd).
  - apply IH. intros x Hx. apply Hwf. now right.
Qed.

Lemma getAssetPathsSync_relative_witness :
  exists pre,
    getAssetPathsSync (lit "./dist/") nestedEntries
    = map (app pre) (flat_map relPaths nestedEntries)
    /\ (forall n, plain n = true -> path.join (lit "./dist/") n = pre ++ n).
Proof.
  exact (getAssetPathsSync_relative (lit "./dist/") nestedEntries eq_refl).
Defined.

(** *** No path twice *)

Lemma slashFree_head_unique (a b x y : str) :
  slashFree a = true -> slashFree b = true ->
  (x = [] \/ exists t, x = slash :: t) ->
  (y = [] \/ exists t, y = slash :: t) ->
  a ++ x = b ++ y -> a = b.
Proof.
  revert b. induction a as [|c a IH]; intros b Ha Hb Hx Hy E.
  - destruct b as [|d b]; [reflexivity|]. exfalso.
    rewrite slashFree_cons in Hb. apply andb_true_iff in Hb as [Hd _].
    simpl in E. destruct Hx as [->|[t ->]]; [discriminate|].
    injection E as <- _. rewrite Ascii.eqb_refl in Hd. discriminate.
  - rewrite slashFree_cons in Ha. apply andb_true_iff in Ha as [Hc Ha].
    destruct b as [|d b].
    + exfalso. simpl in E. destruct Hy as [->|[t ->]]; [discriminate|].
      injection E as -> _. rewrite Ascii.eqb_refl in Hc. discriminate.
    + rewrite slashFree_cons in Hb. apply andb_true_iff in Hb as [_ Hb].
      simpl in E. injection E as -> E. f_equal.
      exact (IH b Ha Hb Hx Hy E).
Qed.

Lemma relPaths_head (item : dirent) (r : str) :
  In r (relPaths item) ->
  exists rest,
    r = dirent_name item ++ rest /\ (rest = [] \/ exists t, rest = slash :: t).
Proof.
  destruct item as [n|n sub|n]; simpl.
  - destruct (isAsset n); [|contradiction]. intros [<-|[]].
    exists []. rewrite app_nil_r. auto.
  - intros H. apply in_map_iff in H as [t [<- _]].
    exists (slash :: t). eauto.
  - contradiction.
Qed.

Lemma wellFormed_name (item : dirent) (r : str) :
  wellFormed item = true -> In r (relPaths item) ->
  slashFree (dirent_name item) = true.
Proof.
  destruct item as [n|n sub|n]; simpl; intros Hwf Hin.
  - now apply plain_slashFree.
  - apply andb_true_iff in Hwf as [Hwf _].
    apply andb_true_iff in Hwf as [Hn _]. now apply plain_slashFree.
  - contradiction.
Qed.

Lemma nodupb_spec (l : list str) : nodupb l = true -> NoDup l.
Proof.
  induction l as [|x l IH]; simpl; intros H; [constructor|].
  apply andb_true_iff in H as [Hx Hl]. constructor; [|exact (IH Hl)].
  intros Hin. apply negb_true_iff in Hx.
  assert (existsb (str_eqb x) l = true)
    by (apply existsb_exists; exists x; split; [exact Hin | apply str_eqb_refl]).
  congruence.
Qed.

Lemma NoDup_map_injective {A B} (f : A -> B) (l : list A) :
  (forall x y, f x = f y -> x = y) -> NoDup l -> NoDup (map f l).
Proof.
  intros Hinj. induction 1 as [|x l Hx _ IH]; simpl; constructor; [|exact IH].
  intros Hin. apply in_map_iff in Hin as [y [E Hy]].
  apply Hinj in E. now subst.
Qed.

Lemma NoDup_flat_relPaths (items : list dirent) :
  Forall (fun it => wellFormed it = true -> NoDup (relPaths it)) items ->
  forallb wellFormed items = true ->
  NoDup (map dirent_name items) ->
  NoDup (flat_map relPaths items).
Proof.
  induction items as [|item items IH]; simpl; intros HP Hwf Hnd;
    [constructor|].
  inversion HP as [|? ? Hitem HP']; subst.
  inversion Hnd as [|? ? Hnot Hnd']; subst.
  apply andb_true_iff in Hwf as [Hw Hws].
  apply NoDup_app; [exact (Hitem Hw) | exact (IH HP' Hws Hnd') |].
  intros r Hr Hr'. apply in_flat_map in Hr' as [other [Hother Hr']].
  destruct (relPaths_head item r Hr) as [x [E1 Hx]].
  destruct (relPaths_head other r Hr') as [y [E2 Hy]].
  rewrite forallb_forall in Hws.
  pose proof (wellFormed_name item r Hw Hr) as Hs1.
  pose proof (wellFormed_name other r (Hws other Hother) Hr') as Hs2.
  rewrite E1 in E2.
  pose proof (slashFree_head_unique _ _ _ _ Hs1 Hs2 Hx Hy E2) as Hsame.
  apply Hnot. rewrite Hsame. now apply in_map.
Qed.

Lemma relPaths_NoDup (item : dirent) :
  wellFormed item = true -> NoDup (relPaths item).
Proof.
  induction item as [n|n|n sub IH] using dirent_nested_ind; simpl; intros Hwf.
  - destruct (isAsset n); repeat constructor. intros [].
  - constructor.
  - apply andb_true_iff in Hwf as [Hwf Hnd].
    apply andb_true_iff in Hwf as [_ Hsub].
    apply NoDup_map_injective.
    + intros x y E. apply app_inv_head in E. now injection E.
    + apply NoDup_flat_relPaths;
        [exact IH | exact Hsub | now apply nodupb_spec].
Qed.

Lemma walk_NoDup (directory : str) (items : list dirent) :
  forallb wellFormed items = true ->
  nodupb (map dirent_name items) = true ->
  NoDup (getAssetPathsSync directory items).
Proof.
  intros Hwf Hnd.
  destruct (join_uniform directory) as [abs [k [names [Hk [Hnames Hd]]]]].
  assert (E : getAssetPathsSync directory items
              = map (app (prefix abs k names)) (flat_map relPaths items)).
  { unfold getAssetPathsSync. rewrite forallb_forall in Hwf.
    clear Hnd. induction items as [|item items IH]; simpl; [reflexivity|].
    rewrite map_app. f_equal.
    - exact (walkItem_rel item (Hwf item (or_introl eq_refl))
               directory abs k names Hk Hnames Hd).
    - apply IH. intros x Hx. apply Hwf. now right. }
  rewrite E. apply NoDup_map_injective.
  - intros x y. apply app_inv_head.
  - apply NoDup_flat_relPaths; [| exact Hwf | now apply nodupb_spec].
    apply Forall_forall. intros item _. apply relPaths_NoDup.
Qed.

(** X7.  In a listing where no two entries of a directory share a name,
    the walk returns no path twice: two different asset files never get the
    same path. *)
Theorem getAssetPathsSync_NoDup (directory : str) (items : list dirent) :
  forallb wellFormed items = true ->
  nodupb (map dirent_name items) = true ->
  NoDup (getAssetPathsSync directory items).
Proof. exact (walk_NoDup directory items). Qed.

Lemma getAssetPathsSync_NoDup_witness :
  NoDup (getAssetPathsSync (lit "dist") nestedEntries).
Proof.
  exact (getAssetPathsSync_NoDup (lit "dist") nestedEntries eq_refl eq_refl).
Defined.

(** ** What staging keeps of the listing *)

Lemma keepsFs_ret Q {A} (a : A) : keepsFs Q (ret a).
Proof. intros st H. exact H. Qed.

Lemma keepsFs_stop Q {A} (h : halt) : keepsFs Q (@stop A h).
Proof. intros st H. exact H. Qed.

Lemma keepsFs_emit Q (e : event) : keepsFs Q (emit e).
Proof. intros st H. exact H. Qed.

Lemma keepsFs_getFs Q : keepsFs Q getFs.
Proof. intros st H. exact H. Qed.

Lemma keepsFs_bind Q {A B} (m : M A) (k : A -> M B) :
  keepsFs Q m -> (forall a, keepsFs Q (k a)) -> keepsFs Q (bind m k).
Proof.
  intros Hm Hk st H. unfold bind. specialize (Hm st H).
  destruct (m st) as [st' [h|a]]; simpl in *; [exact Hm|].
  exact (Hk a st' Hm).
Qed.

Lemma keepsFs_forEach Q {A S} (xs : list A) (body : S -> A -> M S) (acc : S) :
  (forall s x, In x xs -> keepsFs Q (body s x)) ->
  keepsFs Q (forEach xs body acc).
Proof.
  revert acc. induction xs as [|x xs IH]; intros acc Hb; simpl.
  - apply keepsFs_ret.
  - apply keepsFs_bind; [apply Hb; now left|].
    intros a. apply IH. intros s y Hy. apply Hb. now right.
Qed.

(** A copy into the scratch directory changes its listing, or makes the
    directory with the one file when it is missing. *)
Lemma writeAt_tmp_cases (n : str) (items items' : list dirent) :
  writeAt [TMP_DIR; n] items = Some items' ->
  (exists sub sub',
     tmpListing items = Some sub
     /\ writeFile n sub = Some sub'
     /\ items' = replaceEntry TMP_DIR (Directory TMP_DIR sub') items)
  \/ (tmpExists items = false
      /\ items' = addEntry (Directory TMP_DIR [File n]) items).
Proof.
  cbn [writeAt]. rewrite tmpListing_find, tmpExists_find.
  destruct (find (isNamed TMP_DIR) items) as [[f|d sub|o]|]; try discriminate.
  - destruct (writeFile n sub) as [sub'|] eqn:W; [|discriminate].
    intros H. injection H as <-. left. eauto.
  - intros H. injection H as <-. right. auto.
Qed.

Lemma keepsFs_cpSync Q (w : world) (root src n : str) :
  plain n = true ->
  (forall items items',
     Q items -> writeAt [TMP_DIR; n] items = Some items' -> Q items') ->
  keepsFs Q (cpSync w root src (path.join (path.join root TMP_DIR) n)).
Proof.
  intros Hn Hwr st HQ.
  destruct (cpSync_cases w root src (path.join (path.join root TMP_DIR) n) st)
    as [[msg E]|[[_ E]|(to & items' & Hl & Hw & E)]]; rewrite E; simpl;
    try exact HQ.
  rewrite (locate_tmp root n Hn) in Hl. injection Hl as <-.
  exact (Hwr _ _ HQ Hw).
Qed.

Lemma keepsFs_copyFiles Q (w : world) (root : str) (filePaths : list str)
  (N : str) :
  stageable N = true ->
  (forall items,
     tmpExists items = false -> Q items ->
     Q (addEntry (Directory TMP_DIR []) items)) ->
  (forall items items' p,
     Q items -> writeAt [TMP_DIR; stagedName N p] items = Some items' ->
     Q items') ->
  keepsFs Q (copyFilesToTmpDirectory w root filePaths N).
Proof.
  intros HN Hmk Hwr st HQ. unfold copyFilesToTmpDirectory. cbv zeta.
  unfold bind at 1. unfold emit at 1. unfold bind at 1. unfold getFs at 1.
  cbn [fs trace].
  match goal with
  | |- context [forEach filePaths ?b tt] =>
      assert (Hloop : keepsFs Q (forEach filePaths b tt))
  end.
  { apply keepsFs_forEach. intros s p _. cbv beta zeta.
    rewrite stagedPath_line110. unfold stagedPath.
    apply keepsFs_cpSync; [exact (stageable_stagedName N p HN)|].
    intros items items'. apply Hwr. }
  destruct (tmpExists (fs st)) eqn:E.
  - unfold bind at 1. unfold ret at 1. apply Hloop. exact HQ.
  - unfold bind at 1. unfold bind at 1. unfold putFs at 1. unfold emit at 1.
    cbn [fs trace]. apply Hloop. cbn [fs]. now apply Hmk.
Qed.

Section StagingKeeps.

Variable Q : list dirent -> Prop.
Hypothesis Hmk :
  forall items,
    tmpExists items = false -> Q items ->
    Q (addEntry (Directory TMP_DIR []) items).
Hypothesis Hwr :
  forall items items' n,
    stagedShape n -> Q items -> writeAt [TMP_DIR; n] items = Some items' ->
    Q items'.

Lemma keepsFs_correlate (w : world) (outputDir : str) (g : dict (list str))
  (runtimes : dict str) (u : update) :
  slashFree (platform u) = true -> slashFree (id u) = true ->
  keepsFs Q (correlate w outputDir g runtimes u).
Proof.
  intros Hp Hi. unfold correlate.
  destruct (findAssetGroup g (platform u)) as [k|].
  - destruct (get g k) as [filePaths|]; [|apply keepsFs_stop].
    apply keepsFs_bind; [|intros _; apply keepsFs_ret].
    apply keepsFs_copyFiles.
    + exact (stagedShape_stageable u k Hp Hi).
    + exact Hmk.
    + intros items items' p. apply Hwr. exact (stagedName_shape u k p Hp Hi).
  - apply keepsFs_bind; [apply keepsFs_emit | intros _; apply keepsFs_ret].
Qed.

Lemma keepsFs_correlate_loop (w : world) (outputDir : str)
  (g : dict (list str)) (updates : list update) (runtimes : dict str) :
  (forall u, In u updates ->
     slashFree (platform u) = true /\ slashFree (id u) = true) ->
  keepsFs Q (forEach updates (correlate w outputDir g) runtimes).
Proof.
  intros Hu. apply keepsFs_forEach. intros s u Hin.
  destruct (Hu u Hin). now apply keepsFs_correlate.
Qed.

End StagingKeeps.

(** Three things staging keeps: the entries other than the scratch
    directory, the shape of the names in the scratch directory, and that no
    two of them are the same. *)
Lemma removeTmp_mkdir (items : list dirent) :
  removeTmp (addEntry (Directory TMP_DIR []) items) = removeTmp items.
Proof. now apply removeTmp_addEntry. Qed.

Lemma removeTmp_writeAt (n : str) (items items' : list dirent) :
  writeAt [TMP_DIR; n] items = Some items' ->
  removeTmp items' = removeTmp items.
Proof.
  intros H.
  destruct (writeAt_tmp_cases n items items' H)
    as [(sub & sub' & _ & _ & ->)|[_ ->]].
  - now apply removeTmp_replaceEntry.
  - now apply removeTmp_addEntry.
Qed.

Lemma scratchShaped_mkdir (items : list dirent) :
  tmpExists items = false ->
  scratchShaped (addEntry (Directory TMP_DIR []) items).
Proof.
  intros H sub Hl. rewrite (tmpListing_addEntry items [] H) in Hl.
  injection Hl as <-. constructor.
Qed.

Lemma scratchShaped_writeAt (n : str) (items items' : list dirent) :
  stagedShape n -> scratchShaped items ->
  writeAt [TMP_DIR; n] items = Some items' -> scratchShaped items'.
Proof.
  intros Hn Hs H sub2 Hl.
  destruct (writeAt_tmp_cases n items items' H)
    as [(sub & sub' & Hsub & Hw & ->)|[Hno ->]].
  - rewrite (tmpListing_replaceEntry items sub sub' Hsub) in Hl.
    injection Hl as <-. apply Forall_forall. intros x Hx.
    destruct (writeFile_In n sub sub' x Hw Hx) as [->|Hin]; [eauto|].
    pose proof (Hs sub Hsub) as HF. rewrite Forall_forall in HF. auto.
  - rewrite (tmpListing_addEntry items _ Hno) in Hl. injection Hl as <-.
    constructor; [eauto | constructor].
Qed.

Lemma scratchShaped_removeTmp (items : list dirent) :
  scratchShaped (removeTmp items).
Proof. intros sub Hl. rewrite tmpListing_removeTmp in Hl. discriminate. Qed.






(** ** The run as a whole *)

Lemma keepsOthers_ret {A} (a : A) : keepsOthers (ret a).
Proof. intros st. reflexivity. Qed.

Lemma keepsOthers_stop {A} (h : halt) : keepsOthers (@stop A h).
Proof. intros st. reflexivity. Qed.

Lemma keepsOthers_emit (e : event) : keepsOthers (emit e).
Proof. intros st. reflexivity. Qed.

Lemma keepsOthers_getFs : keepsOthers getFs.
Proof. intros st. reflexivity. Qed.

Lemma keepsOthers_bind {A B} (m : M A) (k : A -> M B) :
  keepsOthers m -> (forall a, keepsOthers (k a)) -> keepsOthers (bind m k).
Proof.
  intros Hm Hk st. unfold bind. specialize (Hm st).
  destruct (m st) as [st' [h|a]]; simpl in *; [exact Hm|].
  rewrite (Hk a st'). exact Hm.
Qed.

Lemma keepsOthers_forEach {A S} (xs : list A) (body : S -> A -> M S) (acc : S) :
  (forall s x, keepsOthers (body s x)) -> keepsOthers (forEach xs body acc).
Proof.
  intros Hb. revert acc. induction xs as [|x xs IH]; intros acc; simpl.
  - apply keepsOthers_ret.
  - apply keepsOthers_bind; [apply Hb | intros a; apply IH].
Qed.

Lemma keepsOthers_correlate_loop (w : world) (outputDir : str)
  (g : dict (list str)) (updates : list update) (runtimes : dict str) :
  (forall u, In u updates ->
     slashFree (platform u) = true /\ slashFree (id u) = true) ->
  keepsOthers (forEach updates (correlate w outputDir g) runtimes).
Proof.
  intros Hu st.
  apply (keepsFs_correlate_loop
           (fun items => removeTmp items = removeTmp (fs st))); auto.
  - intros items _ H. now rewrite removeTmp_mkdir.
  - intros items items' n _ H Hw. now rewrite (removeTmp_writeAt n items items' Hw).
Qed.

Lemma keepsOthers_delete (w : world) (outputDir : str) :
  keepsOthers (deleteTmpDirectory w outputDir).
Proof.
  intros st. unfold deleteTmpDirectory. destruct (rmDenied w); [reflexivity|].
  unfold bind, getFs, putFs, emit. simpl. apply removeTmp_idem.
Qed.

Lemma keepsOthers_bind_ret {A B} (a : A) (k : A -> M B) :
  keepsOthers (k a) -> keepsOthers (bind (ret a) k).
Proof. intros H st. exact (H st). Qed.

Ltac keepsOthers_step :=
  first
    [ apply keepsOthers_ret | apply keepsOthers_stop | apply keepsOthers_emit
    | apply keepsOthers_getFs | apply keepsOthers_delete
    | apply keepsOthers_correlate_loop; assumption
    | apply keepsOthers_forEach; intros ? ?
    | apply keepsOthers_bind_ret
    | apply keepsOthers_bind; [|intros ?]
    | match goal with
      | |- keepsOthers (match ?x with _ => _ end) => destruct x
      | |- keepsOthers (if ?x then _ else _) => destruct x
      | |- keepsOthers (uploadGroup _ _ _ _ ?e) => destruct e
      end ].

Lemma keepsOthers_main (w : world) :
  (forall r, In r (manifestUpdates w) ->
     slashFree (platform r) = true /\ slashFree (id r) = true) ->
  keepsOthers (main w).
Proof.
  intros Hu.
  unfold main, resolveProject, getSentryPluginPropertiesFromExpoConfig,
    checkAuthToken, readOutputDir, pipeline, readAndPrintJSONFile, readTmp,
    grouped.
  unfold manifestUpdates in Hu.
  destruct (manifest w) as [[updates|]|]; repeat keepsOthers_step.
Qed.

(** X8.  When no platform and no update identifier of the manifest holds a
    [/], then, whatever else the script finds and however the run ends, the
    entries of the output directory other than the scratch directory are, at
    the end, the ones it started with, in the same order: the script creates,
    changes and removes nothing outside [.tmp]. *)
Theorem run_touches_only_scratch (w : world) (st : state) :
  (forall r, In r (manifestUpdates w) ->
     slashFree (platform r) = true /\ slashFree (id r) = true) ->
  removeTmp (fs (fst (main w st))) = removeTmp (fs st)
  /\ forall item, isNamed TMP_DIR item = false ->
       (In item (fs (fst (main w st))) <-> In item (fs st)).
Proof.
  intros Hu.
  pose proof (keepsOthers_main w Hu st) as H. split; [exact H|].
  intros item Hn.
  assert (Hf : forall l, In item l <-> In item (removeTmp l)).
  { intros l. unfold removeTmp. rewrite filter_In, Hn. simpl. tauto. }
  rewrite (Hf (fs (fst (main w st)))), (Hf (fs st)), H. reflexivity.
Qed.

Lemma run_touches_only_scratch_witness :
  removeTmp (fs (fst (main hermesWorld (start hermesWorld))))
  = entries hermesWorld.
Proof.
  refine (proj1 (run_touches_only_scratch hermesWorld (start hermesWorld) _)).
  intros r [<-|[]]. split; reflexivity.
Defined.

(** An update identifier with [..] in it takes the copy out of the scratch
    directory: the record [{id: "x/../../out", platform: "app"}] stages
    [dist/app.js] as [dist/out.js], next to the bundle. *)
Lemma update_id_escapes_scratch :
  let w :=
    mkWorld (Some (lit "demo")) (Some (lit "token")) None (Some (lit "dist"))
      [File (lit "app.js")] false
      (Some (Some [mkUpdate (lit "x/../../out") (lit "app") (lit "1.0.0")]))
      (fun _ => false) (fun _ _ _ => false) in
  In (CpSync (lit "dist/app.js") (lit "dist/out.js"))
     (trace (fst (main w (start w))))
  /\ removeTmp (fs (fst (main w (start w))))
     = [File (lit "app.js"); File (lit "out.js")].
Proof. vm_compute. split; [|reflexivity]. do 3 right. now left. Qed.

Lemma neverExits_ret {A} (a : A) : neverExits (ret a).
Proof. intros st code. discriminate. Qed.

Lemma neverExits_throw {A} (msg : str) : neverExits (@stop A (Throw msg)).
Proof. intros st code. discriminate. Qed.

Lemma neverExits_emit (e : event) : neverExits (emit e).
Proof. intros st code. discriminate. Qed.

Lemma neverExits_getFs : neverExits getFs.
Proof. intros st code. discriminate. Qed.

Lemma neverExits_putFs (items : list dirent) : neverExits (putFs items).
Proof. intros st code. discriminate. Qed.

Lemma neverExits_bind {A B} (m : M A) (k : A -> M B) :
  neverExits m -> (forall a, neverExits (k a)) -> neverExits (bind m k).
Proof.
  intros Hm Hk st code. unfold bind. specialize (Hm st code).
  destruct (m st) as [st' [h|a]]; simpl in *.
  - intros E. apply Hm. congruence.
  - apply Hk.
Qed.

Lemma neverExits_forEach {A S} (xs : list A) (body : S -> A -> M S) (acc : S) :
  (forall s x, neverExits (body s x)) -> neverExits (forEach xs body acc).
Proof.
  intros Hb. revert acc. induction xs as [|x xs IH]; intros acc; simpl.
  - apply neverExits_ret.
  - apply neverExits_bind; [apply Hb | intros a; apply IH].
Qed.

Lemma neverExits_cpSync (w : world) (root src dst : str) :
  neverExits (cpSync w root src dst).
Proof.
  intros st code.
  destruct (cpSync_cases w root src dst st)
    as [[msg E]|[[_ E]|(to & items' & _ & _ & E)]]; rewrite E; discriminate.
Qed.

Ltac neverExits_step :=
  first
    [ apply neverExits_ret | apply neverExits_throw | apply neverExits_emit
    | apply neverExits_getFs | apply neverExits_putFs
    | apply neverExits_cpSync
    | apply neverExits_bind; [|intros ?]
    | apply neverExits_forEach; intros ? ?
    | match goal with
      | |- neverExits (match ?x with _ => _ end) => destruct x
      | |- neverExits (if ?x then _ else _) => destruct x
      | |- neverExits (uploadGroup _ _ _ _ ?e) => destruct e
      end ].

(** Once the configuration is read, the script never calls
    [process.exit]: it ends normally or with an exception. *)
Lemma pipeline_neverExits (w : world) (project : option json) (outputDir : str) :
  neverExits (pipeline w project outputDir).
Proof.
  unfold pipeline, deleteTmpDirectory, readAndPrintJSONFile, readTmp,
    grouped, correlate, copyFilesToTmpDirectory.
  repeat neverExits_step.
Qed.

Lemma exitsClean_never {A} (m : M A) : neverExits m -> exitsClean m.
Proof. intros H st st' code E. exfalso. apply (H st code). now rewrite E. Qed.

Lemma exitsClean_bind {A B} (m : M A) (k : A -> M B) :
  readsOnly m -> (forall a, exitsClean (k a)) -> exitsClean (bind m k).
Proof.
  intros Hm Hk st st' code. unfold bind.
  destruct (Hm st) as [H1 [H2 H3]].
  destruct (m st) as [st1 [h|a]]; simpl in *.
  - intros E. injection E as <- ->.
    pose proof (H3 _ eq_refl) as H. injection H as ->. auto.
  - intros E. destruct (Hk a st1 st' code E) as [K1 [K2 K3]].
    rewrite K2, K3. auto.
Qed.

Lemma checkAuthToken_readsOnly (w : world) : readsOnly (checkAuthToken w).
Proof. unfold checkAuthToken. repeat readsOnly_step. Qed.

Lemma readOutputDir_readsOnly (w : world) : readsOnly (readOutputDir w).
Proof. unfold readOutputDir. repeat readsOnly_step. Qed.

(** X9.  Whenever the script ends with [process.exit], the exit code is 1
    and nothing has been removed, created or copied: every exit comes from
    the three configuration checks, before the scratch directory is touched.
    After them the script only ends normally or with an exception. *)
Theorem exit_is_code_1_before_any_mutation
  (w : world) (st' : state) (code : nat) :
  main w (start w) = (st', inl (Exit code)) ->
  code = 1
  /\ fs st' = entries w
  /\ existsb mutation (trace st') = false.
Proof.
  intros E.
  assert (H : exitsClean (main w)).
  { unfold main.
    apply exitsClean_bind; [apply resolveProject_readsOnly | intros project].
    apply exitsClean_bind; [apply checkAuthToken_readsOnly | intros _].
    apply exitsClean_bind; [apply readOutputDir_readsOnly | intros outputDir].
    apply exitsClean_never. apply pipeline_neverExits. }
  exact (H (start w) st' code E).
Qed.

Lemma exit_is_code_1_before_any_mutation_witness :
  let w := mkWorld (Some (lit "demo")) None None (Some (lit "dist"))
             scenarioEntries false (Some (Some [])) (fun _ => false)
             (fun _ _ _ => false) in
  exists st', main w (start w) = (st', inl (Exit 1)) /\ fs st' = entries w.
Proof.
  eexists. split; [vm_compute; reflexivity|].
  refine (proj1 (proj2 (exit_is_code_1_before_any_mutation _ _ 1 _))).
  vm_compute. reflexivity.
Defined.

Lemma uploads_app (a b : list event) : uploads (a ++ b) = uploads a ++ uploads b.
Proof. unfold uploads. apply flat_map_app. Qed.

(** X10.  A manifest that is missing, or that cannot be read, ends the run
    with an exception, but only after the removal of the scratch directory
    has been attempted: by then nothing has been staged and nothing is
    uploaded. *)
Theorem unreadable_manifest_throws_after_removal
  (w : world) (project : option json) (outputDir : str) (st : state) :
  manifest w = None \/ manifest w = Some None ->
  exists st' msg,
    pipeline w project outputDir st = (st', inl (Throw msg))
    /\ fs st' = (if rmDenied w then fs st else removeTmp (fs st))
    /\ copies (trace st') = copies (trace st)
    /\ uploads (trace st') = uploads (trace st)
    /\ (rmDenied w = false ->
        In (RmSync (path.join outputDir TMP_DIR)) (trace st')).
Proof.
  intros H. unfold pipeline, deleteTmpDirectory, readAndPrintJSONFile, grouped.
  destruct (rmDenied w);
    destruct H as [-> | ->];
    unfold bind, emit, getFs, putFs, stop, ret; cbn [fs trace fst snd];
    match goal with
    | |- context [groupAssets ?l] => destruct (groupAssets l)
    end; cbn [fs trace fst snd];
    eexists; eexists; (split; [reflexivity|]); simpl;
    rewrite ?copies_app, ?uploads_app; simpl; rewrite ?app_nil_r;
    repeat split; try discriminate;
    intros _; rewrite ?in_app_iff; simpl; tauto.
Qed.

Lemma unreadable_manifest_throws_after_removal_witness :
  let w := mkWorld (Some (lit "demo")) (Some (lit "token")) None
             (Some (lit "dist")) scenarioEntries false None (fun _ => false)
             (fun _ _ _ => false) in
  exists st' msg,
    pipeline w None (lit "dist") (start w) = (st', inl (Throw msg))
    /\ In (RmSync (lit "dist/.tmp")) (trace st').
Proof.
  destruct (unreadable_manifest_throws_after_removal
              (mkWorld (Some (lit "demo")) (Some (lit "token")) None
                 (Some (lit "dist")) scenarioEntries false None (fun _ => false)
                 (fun _ _ _ => false))
              None (lit "dist")
              (mkState scenarioEntries []) (or_introl eq_refl))
    as [st' [msg [H1 [_ [_ [_ H5]]]]]].
  exists st', msg. split; [exact H1 | exact (H5 eq_refl)].
Defined.

Lemma forEach_app {A S} (xs ys : list A) (body : S -> A -> M S) (acc : S)
  (st : state) :
  forEach (xs ++ ys) body acc st
  = bind (forEach xs body acc) (forEach ys body) st.
Proof.
  revert acc st. induction xs as [|x xs IH]; intros acc st.
  - reflexivity.
  - cbn [app forEach]. unfold bind at 1 2 3.
    destruct (body acc x st) as [st1 [h|acc1]]; [reflexivity|].
    rewrite IH. reflexivity.
Qed.

Lemma findAssetGroup_none (g : dict (list str)) (u : update) :
  hasMatch g u = false -> findAssetGroup g (platform u) = None.
Proof.
  unfold hasMatch, findAssetGroup. intros H.
  destruct (find _ (objectKeys g)) as [k|] eqn:E; [|reflexivity].
  apply find_some in E as [Hin Hinc].
  apply (proj1 (objectKeys_In g k)) in Hin.
  assert (existsb (fun key => includes key (platform u)) (keys g) = true)
    by (apply existsb_exists; eauto).
  congruence.
Qed.

Lemma correlate_unmatched_step (w : world) (outputDir : str)
  (g : dict (list str)) (u : update) (runtimes : dict str) (st : state) :
  hasMatch g u = false ->
  correlate w outputDir g runtimes u st
  = (mkState (fs st) (trace st ++ [ConsoleError (warningFor u)]), inr runtimes).
Proof.
  intros H. unfold correlate. rewrite (findAssetGroup_none g u H).
  reflexivity.
Qed.

(** Records without a match leave a warning each and nothing else. *)
Lemma correlate_unmatched (w : world) (outputDir : str) (g : dict (list str))
  (us : list update) (runtimes : dict str) (st : state) :
  (forall u, In u us -> hasMatch g u = false) ->
  forEach us (correlate w outputDir g) runtimes st
  = (mkState (fs st)
       (trace st ++ map (fun u => ConsoleError (warningFor u)) us),
     inr runtimes).
Proof.
  revert st. induction us as [|u us IH]; intros st H.
  - simpl. rewrite app_nil_r. now destruct st.
  - cbn [forEach].
    rewrite (bind_value _ _ _ _ _
               (correlate_unmatched_step w outputDir g u runtimes st
                  (H u (or_introl eq_refl)))).
    rewrite IH by (intros u' Hu'; apply H; now right).
    cbn [fs trace map]. rewrite <- app_assoc. reflexivity.
Qed.

(** X11.  When the scratch directory was removed, the grouping of the walked
    files does not throw, and no record of the manifest finds a group (an
    empty manifest included), nothing creates the scratch directory again,
    and the second walk fails on it: the run ends with an exception after one
    warning per record, without an upload and without the success message. *)
Theorem no_match_ends_in_missing_scratch
  (w : world) (project : option json) (outputDir : str)
  (updates : list update) (groups : dict (list str)) (st : state) :
  rmDenied w = false ->
  manifest w = Some (Some updates) ->
  groupAssets (getAssetPathsSync outputDir (removeTmp (fs st))) = Some groups ->
  (forall u, In u updates -> hasMatch groups u = false) ->
  pipeline w project outputDir st
  = (mkState (removeTmp (fs st))
       (trace st ++ RmSync (path.join outputDir TMP_DIR) :: map warn updates),
     inl (Throw (lit "ENOENT: no such file or directory, scandir"))).
Proof.
  intros Hrm Hman Hg Hno. unfold pipeline.
  destruct st as [items tr].
  rewrite (bind_value _ _ _ _ _ (deleteTmpDirectory_allowed w outputDir items tr Hrm)).
  unfold bind at 1. unfold getFs at 1. cbn [fs]. cbn [fs] in Hg.
  unfold grouped. rewrite Hg. unfold bind at 1. unfold ret at 1.
  unfold bind at 1. unfold readAndPrintJSONFile. rewrite Hman.
  unfold ret at 1.
  rewrite (bind_value _ _ _ _ _
             (correlate_unmatched w outputDir _ updates [] _ Hno)).
  unfold readTmp, bind, getFs. cbn [fs trace].
  rewrite tmpListing_removeTmp. unfold stop, warn.
  rewrite <- app_assoc. reflexivity.
Qed.

Lemma no_match_ends_in_missing_scratch_witness :
  pipeline iosOnlyWorld None (lit "dist") (start iosOnlyWorld)
  = (mkState scenarioEntries
       [RmSync (lit "dist/.tmp");
        ConsoleError (lit "Could not find code assets for ios")],
     inl (Throw (lit "ENOENT: no such file or directory, scandir"))).
Proof.
  refine (no_match_ends_in_missing_scratch iosOnlyWorld None (lit "dist")
            [mkUpdate (lit "u9") (lit "ios") (lit "1.2.0")] _
            (mkState scenarioEntries []) eq_refl eq_refl _ _).
  - vm_compute. reflexivity.
  - intros u [<-|[]]. vm_compute. reflexivity.
Defined.

(** A bundle named [constructor] makes the first grouping throw, before
    the manifest is read. *)
Lemma inherited_name_ends_run :
  let w :=
    mkWorld (Some (lit "demo")) (Some (lit "token")) None (Some (lit "."))
      [File (lit "constructor.map")] false (Some (Some []))
      (fun _ => false) (fun _ _ _ => false) in
  getAssetPathsSync (lit ".") (entries w) = [lit "constructor.map"]
  /\ groupAssets [lit "constructor.map"] = None
  /\ snd (main w (start w))
     = inl (Throw (lit "TypeError: groups[assetGroupName].push is not a function")).
Proof. vm_compute. auto. Qed.

(** ** The upload loop *)

Lemma upload_loop_run
  (w : world) (project : option json) (runtimes : dict str)
  (groups : dict (list str)) (st : state) :
  forEach groups (uploadGroup w project runtimes) tt st
  = (mkState (fs st)
       (trace st ++ map (fun u => Upload u project)
                      (attempted (cliFails w) (map (uploadOf runtimes) groups))),
     if existsb (cliFails w) (map (uploadOf runtimes) groups)
     then inl (Throw (lit "Command failed")) else inr tt).
Proof.
  revert st. induction groups as [|[name assets] groups IH];
    intros st.
  - simpl. rewrite app_nil_r. now destruct st.
  - cbn [forEach map attempted existsb]. unfold bind.
    rewrite uploadGroup_eq. cbv zeta. unfold uploadOf at 1 2 3. cbn [fst snd].
    destruct (cliFails w _) eqn:F.
    + reflexivity.
    + rewrite IH. cbn [fs trace orb]. rewrite <- app_assoc. reflexivity.
Qed.

(** X12.  The upload loop is fail-fast and ordered: the groups are
    uploaded in the order of the second grouping pass, each once, up to and
    with the first upload on which [sentry-cli] fails; the groups after it are
    not uploaded, and the loop ends normally exactly when no upload fails. *)
Theorem upload_loop_stops_at_first_failure
  (w : world) (project : option json) (runtimes : dict str)
  (groups : dict (list str)) (st : state) :
  let ups := map (uploadOf runtimes) groups in
  forEach groups (uploadGroup w project runtimes) tt st
  = (mkState (fs st)
       (trace st ++ map (fun u => Upload u project)
                      (attempted (cliFails w) ups)),
     if existsb (cliFails w) ups
     then inl (Throw (lit "Command failed")) else inr tt).
Proof. cbv zeta. apply upload_loop_run. Qed.

(** ** The success message *)

Lemma Forall_not_In {A} (x : A) (l : list A) :
  Forall (fun e => e <> x) l <-> ~ In x l.
Proof.
  rewrite Forall_forall. split.
  - intros H Hin. exact (H x Hin eq_refl).
  - intros H e He ->. contradiction.
Qed.

Lemma reportsSuccess_bind {A B} (m : M A) (k : A -> M B) :
  keeps (fun e => e <> successLog) m ->
  (forall a, reportsSuccess (k a)) ->
  reportsSuccess (bind m k).
Proof.
  intros Hm Hk st Hst. unfold bind.
  pose proof (Hm st (proj2 (Forall_not_In _ _) Hst)) as H1.
  apply Forall_not_In in H1.
  destruct (m st) as [st1 [h|a]]; simpl in *; [exact H1|].
  exact (Hk a st1 H1).
Qed.

Lemma reportsSuccess_emit : reportsSuccess (emit successLog).
Proof. intros st Hst. simpl. exists (trace st). auto. Qed.

Lemma reportsSuccess_stop {A} (h : halt) : reportsSuccess (@stop A h).
Proof. intros st Hst. exact Hst. Qed.

Ltac not_success :=
  let E := fresh in
  intros E; first [discriminate E | injection E as E; vm_compute in E; discriminate E].

Ltac quiet_step :=
  first
    [ apply keeps_ret | apply keeps_stop | apply keeps_getFs
    | apply keeps_putFs
    | apply keeps_bind; [|intros ?]
    | apply keeps_forEach; intros ? ?
    | apply keeps_emit; not_success
    | apply keeps_cpSync; not_success
    | match goal with
      | |- keeps _ (match ?x with _ => _ end) => destruct x
      | |- keeps _ (if ?x then _ else _) => destruct x
      | |- keeps _ (uploadGroup _ _ _ _ ?e) => destruct e
      end ].

Lemma main_reportsSuccess (w : world) : reportsSuccess (main w).
Proof.
  unfold main, pipeline.
  apply reportsSuccess_bind.
  { unfold resolveProject, getSentryPluginPropertiesFromExpoConfig.
    repeat quiet_step. }
  intros project. apply reportsSuccess_bind.
  { unfold checkAuthToken. repeat quiet_step. }
  intros _. apply reportsSuccess_bind.
  { unfold readOutputDir. repeat quiet_step. }
  intros outputDir. apply reportsSuccess_bind.
  { unfold deleteTmpDirectory. repeat quiet_step. }
  intros _. apply reportsSuccess_bind; [apply keeps_getFs|].
  intros items. apply reportsSuccess_bind.
  { unfold grouped. repeat quiet_step. }
  intros groupedAssets. apply reportsSuccess_bind.
  { unfold readAndPrintJSONFile. repeat quiet_step. }
  intros updates. apply reportsSuccess_bind.
  { unfold correlate, copyFilesToTmpDirectory. repeat quiet_step. }
  intros runtimes. apply reportsSuccess_bind.
  { unfold readTmp. repeat quiet_step. }
  intros tmpItems. apply reportsSuccess_bind.
  { unfold grouped. repeat quiet_step. }
  intros groupedTmpAssets. apply reportsSuccess_bind.
  { unfold uploadGroup. repeat quiet_step. }
  intros _. apply reportsSuccess_emit.
Qed.

(** X13.  The message [Uploaded sourcemaps to Sentry successfully.] is
    written exactly when the run ends normally, and then it is the last thing
    the script does; a run that ends with an exit or an exception never
    writes it. *)
Theorem success_message_iff_normal_end (w : world) :
  match main w (start w) with
  | (st', inr _) =>
      exists tr, trace st' = tr ++ [successLog] /\ ~ In successLog tr
  | (st', inl _) => ~ In successLog (trace st')
  end.
Proof. apply main_reportsSuccess. simpl. tauto. Qed.

(** ** Configuration *)

Lemma runsNoExpo_ret {A} (a : A) : runsNoExpo (ret a).
Proof. intros st. reflexivity. Qed.

Lemma runsNoExpo_stop {A} (h : halt) : runsNoExpo (@stop A h).
Proof. intros st. reflexivity. Qed.

Lemma runsNoExpo_getFs : runsNoExpo getFs.
Proof. intros st. reflexivity. Qed.

Lemma runsNoExpo_putFs (items : list dirent) : runsNoExpo (putFs items).
Proof. intros st. reflexivity. Qed.

Lemma expoRuns_app (a b : list event) : expoRuns (a ++ b) = expoRuns a + expoRuns b.
Proof. unfold expoRuns. now rewrite filter_app, length_app. Qed.

Lemma runsNoExpo_emit (e : event) : e <> ExpoConfig -> runsNoExpo (emit e).
Proof.
  intros He st. simpl. rewrite expoRuns_app.
  destruct e; try (unfold expoRuns; simpl; lia). congruence.
Qed.

Lemma runsNoExpo_bind {A B} (m : M A) (k : A -> M B) :
  runsNoExpo m -> (forall a, runsNoExpo (k a)) -> runsNoExpo (bind m k).
Proof.
  intros Hm Hk st. unfold bind. specialize (Hm st).
  destruct (m st) as [st' [h|a]]; simpl in *; [exact Hm|].
  rewrite (Hk a st'). exact Hm.
Qed.

Lemma runsNoExpo_forEach {A S} (xs : list A) (body : S -> A -> M S) (acc : S) :
  (forall s x, runsNoExpo (body s x)) -> runsNoExpo (forEach xs body acc).
Proof.
  intros Hb. revert acc. induction xs as [|x xs IH]; intros acc; simpl.
  - apply runsNoExpo_ret.
  - apply runsNoExpo_bind; [apply Hb | intros a; apply IH].
Qed.

Lemma runsNoExpo_cpSync (w : world) (root src dst : str) :
  runsNoExpo (cpSync w root src dst).
Proof.
  intros st.
  destruct (cpSync_cases w root src dst st)
    as [[msg E]|[[_ E]|(to & items' & _ & _ & E)]]; rewrite E;
    cbn [fst trace]; try reflexivity;
    rewrite expoRuns_app; cbn; lia.
Qed.

Ltac runsNoExpo_step :=
  first
    [ apply runsNoExpo_ret | apply runsNoExpo_stop | apply runsNoExpo_getFs
    | apply runsNoExpo_putFs | apply runsNoExpo_cpSync
    | apply runsNoExpo_forEach; intros ? ?
    | apply runsNoExpo_bind; [|intros ?]
    | apply runsNoExpo_emit; discriminate
    | match goal with
      | |- runsNoExpo (match ?x with _ => _ end) => destruct x
      | |- runsNoExpo (if ?x then _ else _) => destruct x
      | |- runsNoExpo (uploadGroup _ _ _ _ ?e) => destruct e
      end ].

Lemma rest_runsNoExpo (w : world) (project : option json) :
  runsNoExpo (checkAuthToken w ;;; outputDir <- readOutputDir w ;;
              pipeline w project outputDir).
Proof.
  unfold checkAuthToken, readOutputDir, pipeline, deleteTmpDirectory,
    readAndPrintJSONFile, readTmp, grouped, correlate,
    copyFilesToTmpDirectory, uploadGroup.
  repeat runsNoExpo_step.
Qed.

Lemma returns_ret {A} (a : A) : returns (ret a).
Proof. intros st. now exists a. Qed.

Lemma returns_emit (e : event) : returns (emit e).
Proof. intros st. now exists tt. Qed.

Lemma returns_bind {A B} (m : M A) (k : A -> M B) :
  returns m -> (forall a, returns (k a)) -> returns (bind m k).
Proof.
  intros Hm Hk st. unfold bind. destruct (Hm st) as [a Ha].
  destruct (m st) as [st' [h|a']]; simpl in *; [discriminate|]. apply Hk.
Qed.

Ltac returns_step :=
  first
    [ apply returns_ret | apply returns_emit
    | apply returns_bind; [|intros ?]
    | match goal with
      | |- returns (match ?x with _ => _ end) => destruct x
      | |- returns (if ?x then _ else _) => destruct x
      end ].

Lemma bind_emit {B} (e : event) (k : unit -> M B) (st : state) :
  bind (emit e) k st = k tt (mkState (fs st) (trace st ++ [e])).
Proof. reflexivity. Qed.

(** Reading the plugin properties runs the expo command once and always
    comes back, with the properties or with [null]. *)
Lemma pluginProperties_runOnce (w : world) (st : state) :
  expoRuns (trace (fst (getSentryPluginPropertiesFromExpoConfig w st)))
  = S (expoRuns (trace st))
  /\ exists r, snd (getSentryPluginPropertiesFromExpoConfig w st) = inr r.
Proof.
  unfold getSentryPluginPropertiesFromExpoConfig. cbv zeta.
  rewrite bind_emit.
  match goal with
  | |- expoRuns (trace (fst (?body ?s))) = _ /\ _ =>
      assert (Hb : runsNoExpo body) by (repeat runsNoExpo_step);
      assert (Hr : returns body) by (repeat returns_step);
      rewrite (Hb s); split; [|exact (Hr s)]
  end.
  cbn [trace]. rewrite expoRuns_app. unfold expoRuns. simpl. lia.
Qed.

Lemma resolveProject_fromEnv (w : world) (st : state) :
  projectInEnv w = true ->
  exists s, envProject w = Some s
            /\ resolveProject w st = (st, inr (Some (JStr s))).
Proof.
  unfold projectInEnv, resolveProject.
  destruct (envProject w) as [[|c s]|]; try discriminate.
  intros _. exists (c :: s). split; reflexivity.
Qed.

Lemma resolveProject_runsExpoOnce (w : world) (st : state) :
  projectInEnv w = false ->
  expoRuns (trace (fst (resolveProject w st))) = S (expoRuns (trace st)).
Proof.
  intros Hp. unfold resolveProject.
  assert (Hen : match envProject w with
                | Some s => if truthy s then Some s else None
                | None => None
                end = None).
  { unfold projectInEnv in Hp. destruct (envProject w) as [[|c s]|];
      try reflexivity. discriminate. }
  rewrite Hen. rewrite bind_emit. unfold bind.
  destruct (pluginProperties_runOnce w
              (mkState (fs st)
                 (trace st ++ [ConsoleLog (lit "Fetching SENTRY_PROJECT from expo config...")])))
    as [Hc [r Hr]].
  destruct (getSentryPluginPropertiesFromExpoConfig w _) as [st1 [h|pc]];
    simpl in *; [discriminate|].
  assert (Hst1 : expoRuns (trace st1) = S (expoRuns (trace st))).
  { rewrite Hc, expoRuns_app. unfold expoRuns. simpl. lia. }
  destruct pc as [pc|]; [destruct (jsTruthy pc)|];
    unfold emit, ret, stop; simpl; rewrite ?expoRuns_app, Hst1;
    unfold expoRuns; simpl; lia.
Qed.

(** X14.  [npx expo config --json] is run only to find the project: not
    at all when [SENTRY_PROJECT] is set to a non-empty value, and exactly
    once, however the run goes on, when it is unset or empty. *)
Theorem expo_config_runs_only_without_env_project (w : world) :
  expoRuns (trace (fst (main w (start w))))
  = if projectInEnv w then 0 else 1.
Proof.
  unfold main. destruct (projectInEnv w) eqn:Hp.
  - destruct (resolveProject_fromEnv w (start w) Hp) as [s [_ Hr]].
    rewrite (bind_value _ _ _ _ _ Hr).
    rewrite (rest_runsNoExpo w (Some (JStr s)) (start w)). reflexivity.
  - pose proof (resolveProject_runsExpoOnce w (start w) Hp) as Hc.
    unfold bind at 1.
    destruct (resolveProject w (start w)) as [st1 [h|project]]; simpl in *.
    + exact Hc.
    + rewrite (rest_runsNoExpo w project st1). exact Hc.
Qed.

Lemma find_all_false {A} (f : A -> bool) (l : list A) :
  (forall x, In x l -> f x = false) -> find f l = None.
Proof.
  induction l as [|x l IH]; simpl; intros H; [reflexivity|].
  rewrite (H x (or_introl eq_refl)). apply IH. intros y Hy. apply H. now right.
Qed.

(** X15.  Without [SENTRY_PROJECT] in the environment, a [plugins] list in
    which no entry is an array of at least two elements starting with the
    string [@sentry/react-native] ends the run with exit code 1 before
    anything is touched; the plugin listed by its bare name, or as an array
    of the name alone, is such an entry. *)
Theorem plugin_without_properties_exits
  (w : world) (fields : list (str * json)) (elems : list json) :
  projectInEnv w = false ->
  expoConfig w = Some (JObj fields) ->
  get fields (lit "plugins") = Some (JArr elems) ->
  (forall e, In e elems -> isSentryPlugin e = false) ->
  main w (start w)
  = (mkState (entries w)
       [ConsoleLog (lit "Fetching SENTRY_PROJECT from expo config...");
        ExpoConfig;
        ConsoleError
          (lit "Could not fetch '@sentry/react-native' plugin properties from expo config.")],
     inl (Exit 1))
  /\ (forall s, isSentryPlugin (JStr s) = false)
  /\ (forall x, isSentryPlugin (JArr [x]) = false).
Proof.
  intros Hp Hc Hf Hno. split; [|split; [reflexivity | intros x; reflexivity]].
  unfold main, resolveProject.
  assert (Hen : match envProject w with
                | Some s => if truthy s then Some s else None
                | None => None
                end = None).
  { unfold projectInEnv in Hp. destruct (envProject w) as [[|c s]|];
      try reflexivity. discriminate. }
  rewrite Hen. unfold getSentryPluginPropertiesFromExpoConfig. cbv zeta.
  rewrite Hc. cbn [getField]. rewrite Hf. cbn [jsTruthy negb].
  rewrite (find_all_false _ _ Hno). reflexivity.
Qed.

Lemma plugin_without_properties_exits_witness :
  exists st',
    main bareStringPluginWorld (start bareStringPluginWorld)
    = (st', inl (Exit 1))
    /\ fs st' = scenarioEntries.
Proof.
  eexists. split.
  - refine (proj1 (plugin_without_properties_exits bareStringPluginWorld
                     _ _ eq_refl eq_refl eq_refl _)).
    intros e [<-|[<-|[]]]; reflexivity.
  - reflexivity.
Defined.

(** ** The release of an upload *)

Lemma correlate_result (w : world) (outputDir : str) (g : dict (list str))
  (runtimes runtimes' : dict str) (u : update) (st : state) :
  snd (correlate w outputDir g runtimes u st) = inr runtimes' ->
  runtimes' = recordRuntime g runtimes u.
Proof.
  unfold correlate, recordRuntime.
  destruct (findAssetGroup g (platform u)) as [k|].
  - destruct (get g k) as [filePaths|]; [|discriminate].
    unfold bind.
    destruct (copyFilesToTmpDirectory w outputDir filePaths _ st)
      as [st' [h|[]]]; simpl; [discriminate|].
    intros E. now injection E.
  - simpl. intros E. now injection E.
Qed.

Lemma correlate_loop_result (w : world) (outputDir : str)
  (g : dict (list str)) (updates : list update) :
  forall (runtimes runtimes' : dict str) (st : state),
    snd (forEach updates (correlate w outputDir g) runtimes st)
    = inr runtimes' ->
    runtimes' = fold_left (recordRuntime g) updates runtimes.
Proof.
  induction updates as [|u updates IH]; intros runtimes runtimes' st.
  - simpl. intros E. now injection E.
  - cbn [forEach fold_left]. unfold bind.
    pose proof (correlate_result w outputDir g runtimes) as Hr.
    specialize (fun r => Hr r u st).
    destruct (correlate w outputDir g runtimes u st) as [st1 [h|runtimes1]];
      simpl in *; [discriminate|].
    rewrite <- (Hr runtimes1 eq_refl). apply IH.
Qed.

(** The names in the table of runtimes hold no separator. *)
Lemma recordRuntime_keys (g : dict (list str)) (updates : list update) :
  (forall u, In u updates ->
     slashFree (platform u) = true /\ slashFree (id u) = true) ->
  forall runtimes,
    Forall (fun k => slashFree k = true) (keys runtimes) ->
    Forall (fun k => slashFree k = true)
      (keys (fold_left (recordRuntime g) updates runtimes)).
Proof.
  induction updates as [|u updates IH]; intros Hu runtimes Hk; [exact Hk|].
  cbn [fold_left]. apply IH; [intros r Hr; apply Hu; now right|].
  unfold recordRuntime. destruct (findAssetGroup g (platform u)) as [k|];
    [|exact Hk].
  rewrite keys_set. destruct (get runtimes _); [exact Hk|].
  apply Forall_app. split; [exact Hk|].
  constructor; [|constructor].
  destruct (Hu u (or_introl eq_refl)) as [Hp Hi].
  exact (proj1 (newAssetGroupName_shape u k Hp Hi)).
Qed.

Lemma correlate_loop_shaped (w : world) (outputDir : str)
  (g : dict (list str)) (updates : list update) (runtimes : dict str) :
  (forall u, In u updates ->
     slashFree (platform u) = true /\ slashFree (id u) = true) ->
  keepsFs scratchShaped (forEach updates (correlate w outputDir g) runtimes).
Proof.
  intros Hu. apply keepsFs_correlate_loop; [| |exact Hu].
  - intros items H _. now apply scratchShaped_mkdir.
  - intros items items' n Hn H Hw.
    exact (scratchShaped_writeAt n items items' Hn H Hw).
Qed.

Lemma In_slash_prefix_snoc (abs : bool) (k : nat) (names : list str) (n : str) :
  In slash (prefix abs k (names ++ [n])).
Proof.
  rewrite prefix_snoc. apply in_or_app. right. apply in_or_app. right.
  now left.
Qed.

(** The group names of the second pass hold a separator: they are paths
    under the scratch directory. *)
Lemma second_pass_key_has_slash (outputDir : str) (sub : list dirent) (p : str) :
  Forall (fun item => exists n, item = File n /\ stagedShape n) sub ->
  In p (getAssetPathsSync (path.join outputDir TMP_DIR) sub) ->
  In slash (assetGroupName p).
Proof.
  intros Hsub Hin. unfold getAssetPathsSync in Hin.
  apply in_flat_map in Hin as [item [Hitem Hp]].
  rewrite Forall_forall in Hsub.
  destruct (Hsub item Hitem) as [n [-> Hshape]].
  simpl in Hp. destruct (isAsset n); [|contradiction].
  destruct Hp as [<-|[]].
  destruct (stagedShape_plain n Hshape) as [Hn [Hd1 Hd2]].
  destruct (join_plain outputDir TMP_DIR TMP_DIR_plain)
    as [abs [k [names [Hk [Hnames ->]]]]].
  rewrite (join_walked_dir abs k names TMP_DIR n Hk Hnames TMP_DIR_plain Hn).
  assert (Hnames' : Forall (fun s => plain s = true) (names ++ [TMP_DIR]))
    by (apply Forall_app; split;
        [exact Hnames | constructor; [reflexivity | constructor]]).
  assert (Hw : walked (prefix abs k (names ++ [TMP_DIR]) ++ n))
    by (exists abs, k, (names ++ [TMP_DIR]), n; auto).
  assert (Hslash : In slash (prefix abs k (names ++ [TMP_DIR]) ++ n))
    by (apply in_or_app; left; apply In_slash_prefix_snoc).
  destruct (isSourcemap (prefix abs k (names ++ [TMP_DIR]) ++ n)) eqn:Hsm.
  - assert (Hdot : dotStem (prefix abs k (names ++ [TMP_DIR]) ++ n) = false).
    { unfold dotStem.
      rewrite (parse_walked abs k (names ++ [TMP_DIR]) n Hk Hnames' Hn).
      cbv zeta. unfold mkParsedOf. cbn [path.base].
      apply orb_false_iff. split; apply str_eqb_neq; assumption. }
    destruct (walked_key_map _ Hw Hsm Hdot) as [Hpm Hkey].
    rewrite Hkey. rewrite Hpm in Hslash.
    apply in_app_or in Hslash as [H|H]; [exact H|].
    exfalso. cbv in H. intuition discriminate.
  - rewrite (walked_key_self _ Hw Hsm). exact Hslash.
Qed.

Lemma get_slashFree_keys (runtimes : dict str) (name : str) :
  Forall (fun k => slashFree k = true) (keys runtimes) ->
  In slash name -> get runtimes name = None.
Proof.
  intros Hk Hs. destruct (get runtimes name) as [v|] eqn:E; [|reflexivity].
  exfalso. assert (Hin : In name (keys runtimes)) by (apply get_in_keys; eauto).
  rewrite Forall_forall in Hk. exact (slashFree_In name (Hk name Hin) Hs).
Qed.

Lemma second_pass_groupable (outputDir : str) (sub : list dirent) :
  Forall (fun item => exists n, item = File n /\ stagedShape n) sub ->
  groupable (getAssetPathsSync (path.join outputDir TMP_DIR) sub) = true.
Proof.
  intros Hsub. apply groupable_spec. intros p Hp.
  pose proof (second_pass_key_has_slash outputDir sub p Hsub Hp) as Hs.
  destruct (inherited (assetGroupName p)) eqn:E; [|reflexivity].
  exfalso. unfold inherited in E. apply existsb_exists in E as (k & Hk & Ek).
  apply str_eqb_eq in Ek. rewrite Ek in Hs.
  revert Hs. clear -Hk.
  repeat (destruct Hk as [<-|Hk]; [cbv; intuition discriminate|]).
  destruct Hk.
Qed.

Lemma upload_loop_undefined (w : world) (project : option json)
  (runtimes : dict str) (groups : dict (list str)) :
  (forall name assets, In (name, assets) groups -> get runtimes name = None) ->
  keeps releaseUndefined (forEach groups (uploadGroup w project runtimes) tt).
Proof.
  induction groups as [|[name assets] groups IH]; intros Hg.
  - apply keeps_ret.
  - cbn [forEach]. apply keeps_bind.
    + intros st H. rewrite uploadGroup_eq. cbv zeta. cbn [fst trace].
      apply Forall_app. split; [exact H|].
      constructor; [|constructor]. simpl.
      exact (Hg name assets (or_introl eq_refl)).
    + intros []. apply IH. intros n a Hin. apply (Hg n a). now right.
Qed.

Ltac silent_step :=
  first
    [ apply keeps_ret | apply keeps_stop | apply keeps_getFs
    | apply keeps_putFs
    | apply keeps_forEach; intros ? ?
    | apply keeps_bind; [|intros ?]
    | apply keeps_emit; exact I
    | apply keeps_cpSync; exact I
    | match goal with
      | |- keeps _ (match ?x with _ => _ end) => destruct x
      | |- keeps _ (if ?x then _ else _) => destruct x
      end ].

Lemma correlate_loop_silent (w : world) (outputDir : str)
  (g : dict (list str)) (updates : list update) (runtimes : dict str) :
  keeps releaseUndefined (forEach updates (correlate w outputDir g) runtimes).
Proof.
  apply keeps_forEach. intros s u.
  unfold correlate, copyFilesToTmpDirectory. repeat silent_step.
Qed.

Lemma pipeline_release_undefined
  (w : world) (project : option json) (outputDir : str) :
  rmDenied w = false ->
  (forall u, In u (manifestUpdates w) ->
     slashFree (platform u) = true /\ slashFree (id u) = true) ->
  keeps releaseUndefined (pipeline w project outputDir).
Proof.
  intros Hrm Hu [items tr] Htr. unfold pipeline.
  rewrite (bind_value _ _ _ _ _
             (deleteTmpDirectory_allowed w outputDir items tr Hrm)).
  unfold bind at 1. unfold getFs at 1. cbn [fs].
  assert (Htr1 : Forall releaseUndefined
                   (tr ++ [RmSync (path.join outputDir TMP_DIR)])).
  { apply Forall_app. split; [exact Htr | repeat constructor]. }
  unfold grouped at 1.
  destruct (groupAssets (getAssetPathsSync outputDir (removeTmp items)))
    as [g|]; [|exact Htr1].
  unfold bind at 1. unfold ret at 1.
  unfold bind at 1. unfold readAndPrintJSONFile. unfold manifestUpdates in Hu.
  destruct (manifest w) as [[updates|]|].
  - unfold ret at 1.
    set (st1 := mkState (removeTmp items)
                  (tr ++ [RmSync (path.join outputDir TMP_DIR)])).
    pose proof (correlate_loop_silent w outputDir g updates [] st1 Htr1) as Hq.
    pose proof (correlate_loop_shaped w outputDir g updates [] Hu st1
                  (scratchShaped_removeTmp items)) as Hshape.
    pose proof (correlate_loop_result w outputDir g updates []) as Hres.
    specialize (fun r => Hres r st1).
    unfold bind at 1.
    destruct (forEach updates (correlate w outputDir g) [] st1)
      as [st2 [h|runtimes]]; cbn [fst snd] in *; [exact Hq|].
    pose proof (recordRuntime_keys g updates Hu [] (Forall_nil _)) as Hkeys.
    rewrite <- (Hres runtimes eq_refl) in Hkeys.
    unfold bind at 1. unfold readTmp. unfold bind at 1. unfold getFs at 1.
    cbn [fst snd].
    destruct (tmpListing (fs st2)) as [sub|] eqn:Hl; [|exact Hq].
    unfold ret at 1.
    pose proof (Hshape sub Hl) as Hsub.
    unfold grouped. rewrite groupAssets_own.
    rewrite (second_pass_groupable outputDir sub Hsub).
    unfold bind at 1. unfold ret at 1.
    apply keeps_bind; [|intros _; apply keeps_emit; exact I | exact Hq].
    apply upload_loop_undefined. intros name assets Hin.
    apply get_slashFree_keys; [exact Hkeys|].
    apply (Permutation_in _ (objectEntries_perm _)) in Hin.
    assert (Hk : In name (keys (ownGroups
                   (getAssetPathsSync (path.join outputDir TMP_DIR) sub))))
      by (apply (in_map fst) in Hin; exact Hin).
    apply ownGroups_keys in Hk as [p [Hp <-]].
    exact (second_pass_key_has_slash outputDir sub p Hsub Hp).
  - unfold bind, emit, stop. cbn [fst snd trace].
    apply Forall_app. split; [exact Htr1 | repeat constructor].
  - exact Htr1.
Qed.

(** X16.  When the scratch directory could be removed and no platform or
    update identifier of the manifest holds a [/], no upload of the run is
    given the runtime version of a record: the table of runtimes is keyed by
    the new group names, which hold no [/], and is looked up with the paths
    of the staged groups under the scratch directory, which do; every upload
    is made with an undefined release. *)
Theorem every_upload_has_undefined_release
  (w : world) (u : upload) (project : option json) :
  rmDenied w = false ->
  (forall r, In r (manifestUpdates w) ->
     slashFree (platform r) = true /\ slashFree (id r) = true) ->
  In (Upload u project) (trace (fst (main w (start w)))) ->
  release u = None.
Proof.
  intros Hrm Hu Hin.
  assert (H : keeps releaseUndefined (main w)).
  { unfold main. apply keeps_bind.
    { unfold resolveProject, getSentryPluginPropertiesFromExpoConfig.
      repeat silent_step. }
    intros sp. apply keeps_bind.
    { unfold checkAuthToken. repeat silent_step. }
    intros _. apply keeps_bind.
    { unfold readOutputDir. repeat silent_step. }
    intros outputDir. now apply pipeline_release_undefined. }
  specialize (H (start w) (Forall_nil _)).
  rewrite Forall_forall in H. exact (H _ Hin).
Qed.

Lemma every_upload_has_undefined_release_witness :
  exists u,
    In (Upload u (Some (JStr (lit "demo"))))
       (trace (fst (main hermesWorld (start hermesWorld))))
    /\ targets u = [lit "dist/.tmp/ios-update-id-u2.hbc";
                    lit "dist/.tmp/ios-update-id-u2.hbc.map"]
    /\ release u = None.
Proof.
  assert (Hin : In (Upload
                     (mkUpload None true
                        [lit "dist/.tmp/ios-update-id-u2.hbc";
                         lit "dist/.tmp/ios-update-id-u2.hbc.map"])
                     (Some (JStr (lit "demo"))))
                  (trace (fst (main hermesWorld (start hermesWorld)))))
    by (vm_compute; do 5 right; left; reflexivity).
  eexists. split; [exact Hin|]. split; [reflexivity|].
  refine (every_upload_has_undefined_release hermesWorld _ _ eq_refl _ Hin).
  intros r [<-|[]]. split; reflexivity.
Defined.

(** ** A sourcemap without its bundle *)





















(** Why the collision of staged names is excluded: the record
    [{id: "c-update-id-d", platform: "b"}] finds the lone sourcemap
    [dist/b.js.map], the record [{id: "d", platform: "b-update-id-c"}] finds
    the bundle [dist/z/b-update-id-c.js], both get the new name
    [b-update-id-c-update-id-d.js], and the one upload of the run holds the
    bundle next to the sourcemap. *)
Lemma colliding_name_brings_a_bundle :
  let w :=
    mkWorld (Some (lit "demo")) (Some (lit "token")) None (Some (lit "dist"))
      [File (lit "b.js.map");
       Directory (lit "z") [File (lit "b-update-id-c.js")]] false
      (Some (Some [mkUpdate (lit "c-update-id-d") (lit "b") (lit "1.0.0");
                   mkUpdate (lit "d") (lit "b-update-id-c") (lit "1.0.0")]))
      (fun _ => false) (fun _ _ _ => false) in
  map targets (uploads (trace (fst (main w (start w)))))
  = [[lit "dist/.tmp/b-update-id-c-update-id-d.js";
      lit "dist/.tmp/b-update-id-c-update-id-d.js.map"]].
Proof. vm_compute. reflexivity. Qed.

(** Why the failure of another upload is excluded: the groups are uploaded
    in the order of the scratch directory, and when the upload of the iOS
    group fails, the group of the lone sourcemap staged for [web] is never
    uploaded. *)
Lemma failed_upload_ends_the_run :
  let w :=
    mkWorld (Some (lit "demo")) (Some (lit "token")) None (Some (lit "dist"))
      [Directory (lit "_expo")
         [File (lit "ios.hbc"); File (lit "ios.hbc.map")];
       File (lit "index.web.bundle"); File (lit "index.web.bundle.map")]
      false
      (Some (Some [mkUpdate (lit "u1") (lit "web") (lit "1.2.0");
                   mkUpdate (lit "u2") (lit "ios") (lit "1.2.0")]))
      (fun u => isHermes (targets u)) (fun _ _ _ => false) in
  map targets (uploads (trace (fst (main w (start w)))))
  = [[lit "dist/.tmp/ios-update-id-u2.hbc";
      lit "dist/.tmp/ios-update-id-u2.hbc.map"]]
  /\ snd (main w (start w)) = inl (Throw (lit "Command failed")).
Proof. vm_compute. auto. Qed.
(** ** Staging *)



(** A new name that leaves the scratch directory is filed where it leads:
    staging [dist/app.js] under [../out.js] makes [dist/out.js], and a copy
    of a file onto itself throws. *)
Lemma staging_outside_scratch :
  fs (fst (copyFilesToTmpDirectory scenarioWorld (lit "dist")
             [lit "dist/app.js"] (lit "../out.js")
             (mkState [File (lit "app.js")] [])))
  = [Directory TMP_DIR []; File (lit "app.js"); File (lit "out.js")]
  /\ snd (copyFilesToTmpDirectory scenarioWorld (lit "dist")
            [lit "dist/app.js"] (lit "../app.js")
            (mkState [File (lit "app.js")] []))
     = inl (Throw (lit "cpSync: src and dest cannot be the same")).
Proof. vm_compute. auto. Qed.

(** * The Spotlight integration: the host of the development server *)

Module spotlight_facts.
Import spotlight.

Section Repetition.
Context {A : Type}.
Variable cls : ascii -> bool.

Lemma star_inv (s taken : str) (k : str -> str -> option A) (r : A) :
  star cls s taken k = Some r ->
  exists a b, s = a ++ b /\ forallb cls a = true /\ k (taken ++ a) b = Some r.
Proof.
  revert taken. induction s as [|c s IH]; intros taken H; simpl in H.
  - exists [], []. rewrite (app_nil_r taken). auto.
  - destruct (cls c) eqn:Hc.
    + destruct (star cls s (taken ++ [c]) k) as [r0|] eqn:E.
      * injection H as ->. destruct (IH _ E) as (a & b & -> & Ha & Hk).
        exists (c :: a), b. simpl. rewrite Hc, Ha.
        rewrite <- app_assoc in Hk. auto.
      * exists [], (c :: s). rewrite (app_nil_r taken). auto.
    + exists [], (c :: s). rewrite (app_nil_r taken). auto.
Qed.

Lemma star_greedy (a b taken : str) (k : str -> str -> option A) (r : A) :
  forallb cls a = true -> endsRun cls b = true ->
  k (taken ++ a) b = Some r ->
  star cls (a ++ b) taken k = Some r.
Proof.
  revert taken. induction a as [|c a IH]; intros taken Ha Hb Hk.
  - rewrite app_nil_r in Hk. simpl. destruct b as [|c b]; simpl; auto.
    simpl in Hb. apply negb_true_iff in Hb. now rewrite Hb.
  - simpl in Ha. apply andb_true_iff in Ha as [Hc Ha]. simpl. rewrite Hc.
    rewrite (IH (taken ++ [c])); auto. now rewrite <- app_assoc.
Qed.

Lemma plus_inv (s : str) (k : str -> str -> option A) (r : A) :
  plus cls s k = Some r ->
  exists a b, s = a ++ b /\ a <> [] /\ forallb cls a = true /\ k a b = Some r.
Proof.
  unfold plus. destruct s as [|c s]; [discriminate|].
  destruct (cls c) eqn:Hc; [|discriminate]. intros H.
  destruct (star_inv _ _ _ _ H) as (a & b & -> & Ha & Hk).
  exists (c :: a), b. simpl. rewrite Hc, Ha. repeat split; auto. discriminate.
Qed.

Lemma plus_greedy (a b : str) (k : str -> str -> option A) (r : A) :
  a <> [] -> forallb cls a = true -> endsRun cls b = true ->
  k a b = Some r ->
  plus cls (a ++ b) k = Some r.
Proof.
  intros Hne Ha Hb Hk. destruct a as [|c a]; [congruence|].
  simpl in Ha. apply andb_true_iff in Ha as [Hc Ha]. simpl. rewrite Hc.
  now apply star_greedy.
Qed.

Lemma plus_stuck (s : str) (k : str -> str -> option A) :
  endsRun cls s = true -> plus cls s k = None.
Proof.
  destruct s as [|c s]; simpl; auto. intros H.
  apply negb_true_iff in H. now rewrite H.
Qed.

(** A run of the class is a prefix of the longest one. *)
Lemma run_prefix (a b amax bmax : str) :
  a ++ b = amax ++ bmax ->
  forallb cls a = true -> endsRun cls bmax = true ->
  exists a', b = a' ++ bmax.
Proof.
  revert amax. induction a as [|c a IH]; intros amax E Ha Hb.
  - exists amax. exact E.
  - simpl in Ha. apply andb_true_iff in Ha as [Hc Ha].
    destruct amax as [|c' amax]; simpl in E.
    + subst bmax. simpl in Hb. rewrite Hc in Hb. discriminate.
    + injection E as _ E. eauto.
Qed.

Lemma longest_run (s : str) :
  exists a b, s = a ++ b /\ forallb cls a = true /\ endsRun cls b = true.
Proof.
  induction s as [|c s (a & b & -> & Ha & Hb)].
  - exists [], []. auto.
  - destruct (cls c) eqn:Hc.
    + exists (c :: a), b. simpl. rewrite Hc. auto.
    + exists [], (c :: a ++ b). simpl. rewrite Hc. auto.
Qed.

End Repetition.

Lemma char_inv {A} (c : ascii) (s : str) (k : str -> option A) (r : A) :
  char c s k = Some r -> exists s', s = c :: s' /\ k s' = Some r.
Proof.
  unfold char. destruct s as [|x s]; [discriminate|].
  destruct (Ascii.eqb x c) eqn:E; [|discriminate].
  apply Ascii.eqb_eq in E as ->. eauto.
Qed.

Lemma char_here {A} (c : ascii) (s : str) (k : str -> option A) :
  char c (c :: s) k = k s.
Proof. unfold char. now rewrite Ascii.eqb_refl. Qed.

Lemma isDigit_isAny (c : ascii) : isDigit c = true -> isAny c = true.
Proof.
  destruct c as [b0 b1 b2 b3 b4 b5 b6 b7].
  destruct b0, b1, b2, b3, b4, b5, b6, b7; vm_compute; congruence.
Qed.

Lemma digits_any (a : str) : forallb isDigit a = true -> forallb isAny a = true.
Proof.
  induction a as [|c a IH]; simpl; auto. intros H.
  apply andb_true_iff in H as [Hc Ha]. now rewrite isDigit_isAny, IH.
Qed.

Lemma star_atEnd (host : str) (port : option str) (s taken : str) :
  star isAny s taken (atEnd host port)
  = if forallb isAny s then Some (host, port, taken ++ s) else None.
Proof.
  revert taken. induction s as [|c s IH]; intros taken; simpl.
  - now rewrite app_nil_r.
  - destruct (isAny c); simpl; auto. rewrite IH.
    destruct (forallb isAny s); auto. now rewrite <- app_assoc.
Qed.

Lemma restPart_spec (host : str) (port : option str) (s : str) :
  restPart host port s
  = if forallb isAny s then Some (host, port, s) else None.
Proof. unfold restPart. now rewrite star_atEnd. Qed.

Lemma portPart_some (host s : str) (r : str * option str * str) :
  portPart host s = Some r ->
  fst (fst r) = host /\ forallb isAny s = true.
Proof.
  unfold portPart, optPort.
  destruct (char ":" s _) as [p|] eqn:E; intros H.
  - injection H as ->.
    apply char_inv in E as (s1 & -> & E).
    apply plus_inv in E as (a & b & -> & _ & Ha & E).
    rewrite restPart_spec in E.
    destruct (forallb isAny b) eqn:Hb; [|discriminate]. injection E as <-.
    split; auto. simpl. rewrite forallb_app, (digits_any _ Ha), Hb.
    reflexivity.
  - rewrite restPart_spec in H.
    destruct (forallb isAny s); [|discriminate]. injection H as <-. auto.
Qed.

Lemma portPart_ok (host s : str) :
  forallb isAny s = true ->
  exists port rest, portPart host s = Some (host, port, rest).
Proof.
  intros Hs. unfold portPart, optPort.
  destruct (char ":" s _) as [p|] eqn:E.
  - apply char_inv in E as (s1 & -> & E).
    apply plus_inv in E as (a & b & -> & _ & Ha & E).
    rewrite restPart_spec in E.
    destruct (forallb isAny b); [|discriminate]. injection E as <-. eauto.
  - rewrite restPart_spec, Hs. eauto.
Qed.

Lemma hostPart_ok (h t : str) :
  h <> [] -> forallb isHostChar h = true -> endsRun isHostChar t = true ->
  forallb isAny t = true ->
  exists port rest, hostPart (h ++ t) = Some (h, port, rest).
Proof.
  intros Hne Hh Ht Hany.
  destruct (portPart_ok h t Hany) as (port & rest & E).
  exists port, rest. unfold hostPart. now apply plus_greedy.
Qed.

Lemma hostPart_some (s : str) (r : str * option str * str) :
  hostPart s = Some r ->
  exists t, s = fst (fst r) ++ t /\ fst (fst r) <> [] /\
    forallb isHostChar (fst (fst r)) = true /\
    endsRun isHostChar t = true /\ forallb isAny t = true.
Proof.
  intros H.
  destruct (longest_run isHostChar s) as (h & t & -> & Hh & Ht).
  pose proof H as H0. unfold hostPart in H0.
  apply plus_inv in H0 as (a & b & E & Hne & Ha & Hk).
  apply portPart_some in Hk as [_ Hb].
  destruct (run_prefix _ _ _ _ _ (eq_sym E) Ha Ht) as (a' & ->).
  rewrite forallb_app in Hb. apply andb_true_iff in Hb as [_ Hany].
  assert (Hh0 : h <> []).
  { intros ->. unfold hostPart in H. simpl in H.
    now rewrite plus_stuck in H. }
  destruct (hostPart_ok h t Hh0 Hh Ht Hany) as (port & rest & E').
  rewrite E' in H. injection H as <-. simpl. eauto 6.
Qed.

Lemma slashesPart_here (s : str) : slashesPart (lit "//" ++ s) = hostPart s.
Proof.
  change (lit "//" ++ s) with ("/"%char :: "/"%char :: s).
  unfold slashesPart. now rewrite !char_here.
Qed.

Lemma slashesPart_some (s : str) (r : str * option str * str) :
  slashesPart s = Some r ->
  exists s', s = lit "//" ++ s' /\ hostPart s' = Some r.
Proof.
  unfold slashesPart. intros H.
  apply char_inv in H as (s1 & -> & H).
  apply char_inv in H as (s2 & -> & H).
  exists s2. split; [reflexivity|exact H].
Qed.

Lemma matchUrl_ok (pre s : str) (r : str * option str * str) :
  isScheme pre -> hostPart s = Some r ->
  matchUrl (pre ++ lit "//" ++ s) = Some r.
Proof.
  intros [->|(name & Hne & Hw & ->)] H; unfold matchUrl, optScheme.
  - change ([] ++ lit "//" ++ s) with (lit "//" ++ s).
    rewrite plus_stuck by reflexivity.
    now rewrite slashesPart_here.
  - rewrite <- app_assoc.
    rewrite (plus_greedy isWord name _ _ r); auto.
Qed.

Lemma matchUrl_some (s : str) (r : str * option str * str) :
  matchUrl s = Some r ->
  exists pre s', s = pre ++ lit "//" ++ s' /\ isScheme pre /\
    hostPart s' = Some r.
Proof.
  unfold matchUrl, optScheme.
  destruct (plus isWord s _) as [p|] eqn:E; intros H.
  - injection H as ->.
    apply plus_inv in E as (a & b & -> & Hne & Ha & E).
    apply char_inv in E as (s1 & -> & E).
    apply slashesPart_some in E as (s' & -> & E).
    exists (a ++ lit ":"), s'. rewrite <- app_assoc.
    repeat split; auto. right. eauto.
  - apply slashesPart_some in H as (s' & -> & H).
    exists [], s'. repeat split; auto. now left.
Qed.

(** The host of a text is the run after the two slashes. *)
Lemma hostname_ok (pre h t : str) :
  isScheme pre -> h <> [] -> forallb isHostChar h = true ->
  endsRun isHostChar t = true -> forallb isAny t = true ->
  getHostnameFromString (pre ++ lit "//" ++ h ++ t) = Some h.
Proof.
  intros Hpre Hne Hh Ht Hany.
  destruct (hostPart_ok h t Hne Hh Ht Hany) as (port & rest & E).
  unfold getHostnameFromString. rewrite (matchUrl_ok _ _ _ Hpre E).
  destruct h; [congruence|reflexivity].
Qed.

Lemma hostname_some (s h : str) :
  getHostnameFromString s = Some h ->
  exists pre t, s = pre ++ lit "//" ++ h ++ t /\ isScheme pre /\ h <> [] /\
    forallb isHostChar h = true /\ endsRun isHostChar t = true /\
    forallb isAny t = true.
Proof.
  unfold getHostnameFromString.
  destruct (matchUrl s) as [[[host port] rest]|] eqn:E; [|discriminate].
  destruct (truthy host); [|discriminate]. intros H. injection H as ->.
  apply matchUrl_some in E as (pre & s' & -> & Hpre & E).
  apply hostPart_some in E as (t & -> & Hne & Hh & Ht & Hany).
  simpl in *. exists pre, t. auto 7.
Qed.

(** X18. [getHostnameFromString] gives a host exactly for a text made of an
    optional scheme (word characters and a colon), two slashes, the host, and
    a rest of one line that does not go on with a host character. The host
    is then the non-empty run of characters other than [/] and [:] after the
    two slashes. *)
Theorem getHostnameFromString_spec (urlString hostname : str) :
  getHostnameFromString urlString = Some hostname <->
  exists pre rest,
    urlString = pre ++ lit "//" ++ hostname ++ rest /\
    isScheme pre /\ hostname <> [] /\
    forallb isHostChar hostname = true /\
    endsRun isHostChar rest = true /\ forallb isAny rest = true.
Proof.
  split.
  - apply hostname_some.
  - intros (pre & rest & -> & Hpre & Hne & Hh & Ht & Hany).
    now apply hostname_ok.
Qed.

Lemma includes_app_r (a b sub : str) :
  includes b sub = true -> includes (a ++ b) sub = true.
Proof.
  induction a as [|c a IH]; simpl; auto. intros H.
  rewrite (IH H). now rewrite orb_true_r.
Qed.

(** X19. A text in which no two slashes follow each other has no host: the
    address [localhost:8081] of a development server gives [null]. *)
Theorem getHostnameFromString_needs_slashes (urlString : str) :
  includes urlString (lit "//") = false ->
  getHostnameFromString urlString = None.
Proof.
  intros H. destruct (getHostnameFromString urlString) as [h|] eqn:E; auto.
  apply hostname_some in E as (pre & t & -> & _).
  rewrite includes_app_r in H; [discriminate|].
  change (lit "//" ++ h ++ t) with ("/"%char :: "/"%char :: h ++ t).
  destruct (h ++ t); reflexivity.
Qed.

Lemma getHostnameFromString_needs_slashes_witness :
  getHostnameFromString (lit "localhost:8081") = None.
Proof.
  apply (getHostnameFromString_needs_slashes (lit "localhost:8081")).
  reflexivity.
Defined.

(** X20. The default sidecar address is always [http://], a host and
    [:8969/stream], and its host is read back by [getHostnameFromString]:
    the host of the development server, the text [null] when the server's
    address has no host, and [localhost] when there is no server to ask. *)
Theorem getDefaultSidecarUrl_host (d : devtools) :
  getDefaultSidecarUrl d
  = lit "http://" ++ sidecarHost d ++ lit ":8969/stream" /\
  getHostnameFromString (getDefaultSidecarUrl d) = Some (sidecarHost d).
Proof.
  assert (Hpre : isScheme (lit "http:")).
  { right. exists (lit "http"). repeat split; discriminate || reflexivity. }
  assert (Hurl : forall h, h <> [] -> forallb isHostChar h = true ->
    getHostnameFromString (lit "http://" ++ h ++ lit ":8969/stream") = Some h).
  { intros h Hne Hh.
    apply (hostname_ok (lit "http:") h (lit ":8969/stream")); auto. }
  destruct d as [| |[url|]]; simpl;
    try (split; [reflexivity|apply (Hurl (lit "localhost")); easy]).
  split; [reflexivity|].
  destruct (getHostnameFromString url) as [h|] eqn:E.
  - apply hostname_some in E as (_ & _ & _ & _ & Hne & Hh & _).
    now apply Hurl.
  - apply (Hurl (lit "null")); easy.
Qed.

End spotlight_facts.

(** ** From staging to the second walk *)









(** * The probes of the runtime *)

Module environment_facts.
Import environment.

(** X22. [isExpoGo] never throws and always gives a boolean; it gives [true]
    only in a runtime in which [isExpo] does. *)
Theorem isExpoGo_is_boolean_and_needs_expo (g : globalObj) :
  exists b, isExpoGo g = Some (VBool b) /\ (b = true -> isExpo g = true).
Proof.
  unfold isExpoGo, isExpo, andAlso.
  destruct (field g (lit "expo")) as [| |b|n|s|fields|f] eqn:Eg;
    try (match goal with
         | |- context [prop ?v (lit "modules")] =>
             destruct (truthyValue v) eqn:Et
         end;
         try discriminate Et;
         cbn [prop andThen]; rewrite ?Et; cbn [truthyValue andThen];
         exists false; (split; [reflexivity|discriminate])).
  cbn [truthyValue notNullish prop].
  match goal with
  | |- exists b, andThen ?x _ = _ /\ _ => set (r := x)
  end.
  assert (Hr : exists v, r = Some v
               /\ (truthyValue v = true -> v = VBool true)).
    { unfold r. clear r.
      destruct (get fields (lit "modules")) as [m|]; cbn [andThen];
        [|exists VUndefined; split; [reflexivity|discriminate]].
      destruct (truthyValue m) eqn:Em; [|exists m; split; [easy|congruence]].
      destruct (prop m (lit "ExponentConstants")) as [c|] eqn:Ec.
      2: { destruct m; simpl in Em, Ec; try discriminate.
           destruct (get fields0 _); discriminate. }
      cbn [andThen].
      destruct (truthyValue c) eqn:Etc; [|exists c; split; [easy|congruence]].
      destruct (prop c (lit "appOwnership")) as [o|] eqn:Eo.
      2: { destruct c; simpl in Etc, Eo; try discriminate.
           destruct (get fields0 _); discriminate. }
      cbn [andThen]. eexists. split; [reflexivity|].
      cbn [truthyValue]. now intros ->. }
    destruct Hr as (v & -> & Hv). cbn [andThen].
    destruct (truthyValue v) eqn:Ev.
    + rewrite (Hv eq_refl). exists true. split; easy.
    + exists false. split; easy.
Qed.

(** X23. Without Hermes, [getHermesVersion] gives the falsy value of
    [HermesInternal] itself, without a call; a truthy version is only ever
    read in a runtime in which [isHermesEnabled] holds. *)
Theorem getHermesVersion_needs_hermes (g : globalObj) :
  (isHermesEnabled g = false ->
   getHermesVersion g = Some (field g (lit "HermesInternal")))
  /\ (forall v, getHermesVersion g = Some v -> truthyValue v = true ->
        isHermesEnabled g = true).
Proof.
  unfold isHermesEnabled, getHermesVersion, andAlso.
  rewrite negb_involutive.
  destruct (truthyValue (field g (lit "HermesInternal"))) eqn:E.
  - split; [discriminate|reflexivity].
  - split; [reflexivity|]. intros v H Hv. injection H as <-. congruence.
Qed.

Lemma getHermesVersion_needs_hermes_witness :
  getHermesVersion [(lit "HermesInternal", VNull)] = Some VNull.
Proof.
  apply (proj1 (getHermesVersion_needs_hermes
                  [(lit "HermesInternal", VNull)])).
  reflexivity.
Defined.

(** ** The version string *)

Lemma run_unique (cls : ascii -> bool) (a b a' b' : str) :
  forallb cls a = true -> forallb cls a' = true ->
  spotlight.endsRun cls b = true -> spotlight.endsRun cls b' = true ->
  a ++ b = a' ++ b' -> a = a' /\ b = b'.
Proof.
  revert a'. induction a as [|c a IH]; intros [|c' a'] Ha Ha' Hb Hb' E;
    simpl in *.
  - auto.
  - subst b. simpl in Hb. apply andb_true_iff in Ha' as [Hc _].
    rewrite Hc in Hb. discriminate.
  - subst b'. simpl in Hb'. apply andb_true_iff in Ha as [Hc _].
    rewrite Hc in Hb'. discriminate.
  - injection E as -> E.
    apply andb_true_iff in Ha as [_ Ha]. apply andb_true_iff in Ha' as [_ Ha'].
    destruct (IH a' Ha Ha' Hb Hb' E) as [-> ->]. auto.
Qed.

Lemma uint_digits (d : Decimal.uint) :
  forallb spotlight.isDigit
    (list_ascii_of_string (NilEmpty.string_of_uint d)) = true.
Proof.
  induction d; [reflexivity|..];
    cbn [NilEmpty.string_of_uint list_ascii_of_string forallb];
    rewrite IHd; reflexivity.
Qed.

Lemma decimal_digits (n : safeInteger) : forallb spotlight.isDigit (decimal n) = true.
Proof. apply uint_digits. Qed.

Lemma safeInteger_eq (a b : safeInteger) : val a = val b -> a = b.
Proof.
  destruct a as [x Hx], b as [y Hy]. simpl. intros ->. f_equal.
  apply UIP_dec. apply Bool.bool_dec.
Qed.

Lemma decimal_inj (a b : safeInteger) : decimal a = decimal b -> a = b.
Proof.
  unfold decimal. intros H.
  apply (f_equal string_of_list_ascii) in H.
  rewrite !string_of_list_ascii_of_string in H.
  apply (f_equal NilEmpty.uint_of_string) in H.
  rewrite !NilEmpty.usu in H. injection H as H.
  apply safeInteger_eq. now apply DecimalN.Unsigned.to_uint_inj.
Qed.

Lemma decimal_split (a b : safeInteger) (r r' : str) :
  spotlight.endsRun spotlight.isDigit r = true ->
  spotlight.endsRun spotlight.isDigit r' = true ->
  decimal a ++ r = decimal b ++ r' -> a = b /\ r = r'.
Proof.
  intros Hr Hr' E.
  destruct (run_unique spotlight.isDigit _ _ _ _
              (decimal_digits a) (decimal_digits b) Hr Hr' E) as [H ->].
  split; [now apply decimal_inj|reflexivity].
Qed.

Lemma getReactNativeVersion_example :
  getReactNativeVersion (Some rn_0_73_2_rc1) = Some (lit "0.73.2-rc.1")
  /\ getReactNativeVersion None = None.
Proof. vm_compute. auto. Qed.

(** X24.  For versions whose three numbers are non-negative integers below
    [2^53], the version string tells the version: two versions have the same
    string exactly when they have the same three numbers and the same
    prerelease (none, or the same string). *)
Theorem getReactNativeVersion_injective (v v' : version) :
  getReactNativeVersion (Some v) = getReactNativeVersion (Some v') <->
  v = v'.
Proof.
  split; [|now intros ->].
  destruct v as [M m p pre], v' as [M' m' p' pre'].
  unfold getReactNativeVersion.
  cbn [major minor patch prerelease]. intros H. injection H as H.
  change (lit ".") with ["."%char] in H. cbn [app] in H.
  apply decimal_split in H as [-> H]; [|reflexivity..].
  injection H as H.
  apply decimal_split in H as [-> H]; [|reflexivity..].
  injection H as H.
  apply decimal_split in H as [-> H];
    [|now destruct pre|now destruct pre'].
  destruct pre as [s|], pre' as [s'|]; try discriminate.
  - injection H as ->. reflexivity.
  - reflexivity.
Qed.

End environment_facts.
